(** * KTP NIK extractor: a shallow embedding of [src/server.js]

    The development models the functions of the server, [extractNIK],
    [extractKTPInfo] and [compressImage], the two extraction routes that
    call them and [detectInput] of the OCR client, together with the part of
    the ECMAScript regular-expression and string library they rely on, and
    states the properties of the specification over these definitions.

    - A JavaScript string is a sequence of UTF-16 code units: [list N].
    - Regular expressions are an abstract syntax interpreted by a backtracking
      matcher that returns, in priority order, every end state the ECMAScript
      matcher would try; the engine's answer is the first one.
    - [sharp]'s pipelines, the base64 codec of [Buffer] and the OCR service
      are outside the repository: they are parameters of the functions that
      use them, and those that may fail (throw) return a [result]. *)

From Stdlib Require Import List NArith Arith Bool Lia String Ascii ZArith.
Import ListNotations.

(** ** Strings *)

Definition char := N.
Definition jsstring := list char.

(** String literals of the source (all ASCII) as code-unit lists. *)
Definition js (s : string) : jsstring :=
  List.map N_of_ascii (list_ascii_of_string s).

(** A one-character literal as a code unit. *)
Definition ch (s : string) : char :=
  match s with
  | String a _ => N_of_ascii a
  | EmptyString => 0%N
  end.

(** ** Character classes of the source's regular expressions *)

Module CharClass.

#[local] Open Scope N_scope.

(** "\d": ASCII digits only. *)
Definition is_digit (c : char) : bool := (48 <=? c) && (c <=? 57).

(** "\s": WhiteSpace and LineTerminator code points of ECMAScript. The same
    set is stripped by [String.prototype.trim]. *)
Definition is_space (c : char) : bool :=
  ((9 <=? c) && (c <=? 13))
  || (c =? 32) || (c =? 160) || (c =? 5760)
  || ((8192 <=? c) && (c <=? 8202))
  || (c =? 8232) || (c =? 8233) || (c =? 8239) || (c =? 8287)
  || (c =? 12288) || (c =? 65279).

(** "[\n\r]" *)
Definition is_newline (c : char) : bool := (c =? 10) || (c =? 13).

(** "[^\n]" *)
Definition not_lf (c : char) : bool := negb (c =? 10).

(** "[\s\-]" *)
Definition is_sepdash (c : char) : bool := is_space c || (c =? 45).

(** "[:.\s\-]" *)
Definition is_labelsep (c : char) : bool :=
  (c =? 58) || (c =? 46) || is_space c || (c =? 45).

(** "[:]" *)
Definition is_colon (c : char) : bool := c =? 58.

(** "\D" *)
Definition not_digit (c : char) : bool := negb (is_digit c).

(** Canonicalize under the [i] flag without the [u] flag maps a code unit to
    its upper-case form, except that a non-ASCII code unit is never taken to
    an ASCII one. The patterns of the source contain ASCII literals only, so
    it is enough to know Canonicalize on ASCII and that it keeps non-ASCII
    code units non-ASCII: the model leaves those unchanged. *)
Definition canonicalize (c : char) : char :=
  if (97 <=? c) && (c <=? 122) then c - 32 else c.

(** A literal pattern character under the [i] flag. *)
Definition lit_ci (x : char) (c : char) : bool :=
  canonicalize c =? canonicalize x.

End CharClass.
Import CharClass.

(** ** Regular expressions *)

Inductive regex : Type :=
| Eps : regex
| Chr : (char -> bool) -> regex                 (* one character of a class *)
| Seq : regex -> regex -> regex
| Alt : regex -> regex -> regex
| Rep : nat -> option nat -> regex -> regex     (* greedy {min,max}; None = unbounded *)
| Group : nat -> regex -> regex                 (* capturing group number n *)
| Bol : regex                                   (* ^ without the m flag *)
| Eol : regex.                                  (* $ without the m flag *)

Definition Star (r : regex) := Rep 0 None r.
Definition Plus (r : regex) := Rep 1 None r.
Definition Opt (r : regex) := Rep 0 (Some 1) r.

(** Concatenation of a non-empty sequence of terms. *)
Fixpoint seqs (l : list regex) : regex :=
  match l with
  | [] => Eps
  | [r] => r
  | r :: l' => Seq r (seqs l')
  end.

Fixpoint alts (l : list regex) : regex :=
  match l with
  | [] => Eps
  | [r] => r
  | r :: l' => Alt r (alts l')
  end.

(** A literal word under the [i] flag. *)
Definition word_ci (w : string) : regex := seqs (List.map (fun c => Chr (lit_ci c)) (js w)).

(** Capturing groups contained in a term (they are reset on each iteration of
    an enclosing quantifier). *)
Fixpoint groups (r : regex) : list nat :=
  match r with
  | Seq a b | Alt a b => groups a ++ groups b
  | Rep _ _ a => groups a
  | Group n a => n :: groups a
  | _ => []
  end.

(** ** The matcher *)

Definition captures := list (nat * jsstring).

Record mstate : Type := MState {
  pos : nat;            (* endIndex: number of code units before the current position *)
  rest : jsstring;      (* the input from the current position on *)
  caps : captures       (* the defined captures *)
}.

Definition get_cap (n : nat) (cs : captures) : option jsstring :=
  match find (fun e => Nat.eqb (fst e) n) cs with
  | Some e => Some (snd e)
  | None => None
  end.

Definition clear_caps (gs : list nat) (s : mstate) : mstate :=
  MState (pos s) (rest s)
         (filter (fun e => negb (existsb (Nat.eqb (fst e)) gs)) (caps s)).

(** The state reached from [s] by a group numbered [n] that ended in [s']. *)
Definition close_group (n : nat) (s s' : mstate) : mstate :=
  MState (pos s') (rest s')
         ((n, firstn (pos s' - pos s) (rest s))
            :: filter (fun e => negb (Nat.eqb (fst e) n)) (caps s')).

(** RepeatMatcher of ECMAScript, greedy case. [body] is the matcher of the
    quantified term and [clr] clears its groups. After [min] has reached
    zero an iteration that consumed nothing is rejected. The recursion is on
    [fuel]; [matcher] supplies [min + length rest + 1], which is never
    exhausted (see [matcher_Rep]). *)
Fixpoint rep (body : mstate -> list mstate) (clr : mstate -> mstate)
         (fuel min : nat) (max : option nat) (s : mstate) : list mstate :=
  match fuel with
  | O => []
  | S fuel' =>
      match max with
      | Some O => [s]
      | _ =>
          flat_map
            (fun s' =>
               if (min =? 0)%nat && (pos s' =? pos s)%nat then []
               else rep body clr fuel' (Nat.pred min) (option_map Nat.pred max) s')
            (body (clr s))
          ++ (if (min =? 0)%nat then [s] else [])
      end
  end.

(** [matcher r s]: the end states of every way [r] matches at [s], in the
    order in which the backtracking matcher of ECMAScript tries them. *)
Fixpoint matcher (r : regex) (s : mstate) : list mstate :=
  match r with
  | Eps => [s]
  | Chr p =>
      match rest s with
      | c :: t => if p c then [MState (S (pos s)) t (caps s)] else []
      | [] => []
      end
  | Seq a b => flat_map (matcher b) (matcher a s)
  | Alt a b => matcher a s ++ matcher b s
  | Rep min max a =>
      rep (matcher a) (clear_caps (groups a))
          (min + List.length (rest s) + 1) min max s
  | Group n a => List.map (close_group n s) (matcher a s)
  | Bol => if (pos s =? 0)%nat then [s] else []
  | Eol => match rest s with [] => [s] | _ => [] end
  end.

(** The result of the matcher at one position: its first success. *)
Definition match_at (r : regex) (p : nat) (s : jsstring) : option mstate :=
  hd_error (matcher r (MState p s [])).

(** ** RegExp and String built-ins used by the source *)

(** RegExpBuiltinExec for a regex without [g]/[y]: the matcher is tried at
    each index from [p] on. The result is the index of the first success,
    the input from that index on, and the end state. *)
Fixpoint exec_from (r : regex) (p : nat) (s : jsstring)
  : option (nat * jsstring * mstate) :=
  match match_at r p s with
  | Some e => Some (p, s, e)
  | None =>
      match s with
      | [] => None
      | _ :: t => exec_from r (S p) t
      end
  end.

(** The matched substring between a start position and an end state. *)
Definition matched (p : nat) (s : jsstring) (e : mstate) : jsstring :=
  firstn (pos e - p) s.

(** [str.match(re)] without the [g] flag: the match array restricted to the
    entries the source reads, i.e. element 0 and capture 1. *)
Record match_result : Type := MatchResult {
  m0 : jsstring;
  m1 : option jsstring
}.

Definition match_first (r : regex) (s : jsstring) : option match_result :=
  match exec_from r 0 s with
  | Some (p, t, e) => Some (MatchResult (matched p t e) (get_cap 1 (caps e)))
  | None => None
  end.

(** [re.test(str)] *)
Definition test (r : regex) (s : jsstring) : bool :=
  match exec_from r 0 s with Some _ => true | None => false end.

(** One left-to-right pass of a global regex over the input, as performed by
    [match] and [replace] with the [g] flag: [lastIndex] starts at 0, after a
    match it is the end of the match, and after an empty match it advances by
    one code unit. [skip] counts the code units still covered by the
    previous match. The pass yields the unmatched code units and the matches
    in order. *)
Inductive piece : Type :=
| Kept : char -> piece
| Matched : jsstring -> piece.

Fixpoint gscan (r : regex) (p skip : nat) (s : jsstring) : list piece :=
  match skip with
  | S k =>
      match s with
      | [] => []
      | _ :: t => gscan r (S p) k t
      end
  | O =>
      match match_at r p s with
      | Some e =>
          let n := (pos e - p)%nat in
          Matched (firstn n s) ::
            match s with
            | [] => []
            | c :: t =>
                match n with
                | O => Kept c :: gscan r (S p) 0 t
                | S k => gscan r (S p) k t
                end
            end
      | None =>
          match s with
          | [] => []
          | c :: t => Kept c :: gscan r (S p) 0 t
          end
      end
  end.

(** [str.match(re)] with the [g] flag: all matched substrings, or null. *)
Definition match_all (r : regex) (s : jsstring) : option (list jsstring) :=
  match flat_map (fun x => match x with Matched w => [w] | Kept _ => [] end)
                 (gscan r 0 0 s) with
  | [] => None
  | l => Some l
  end.

(** [str.replace(re, by)] with the [g] flag and a replacement without [$]. *)
Definition replace_all (r : regex) (by_ : jsstring) (s : jsstring) : jsstring :=
  flat_map (fun x => match x with Matched _ => by_ | Kept c => [c] end)
           (gscan r 0 0 s).

(** [str.split(re)] for a regex without capturing groups and no limit. The
    separator is tried at each index [q] (sticky); a match is ignored when it
    ends at the end [p] of the previous separator, i.e. when it is empty and
    nothing has been accumulated. [cur] is the reversed text since [p]. *)
Fixpoint split_scan (r : regex) (q skip : nat) (cur : jsstring) (s : jsstring)
  : list jsstring :=
  match s with
  | [] => [rev cur]
  | c :: t =>
      match skip with
      | S k => split_scan r (S q) k cur t
      | O =>
          match match_at r q s with
          | None => split_scan r (S q) 0 (c :: cur) t
          | Some e =>
              match (pos e - q)%nat, cur with
              | O, [] => split_scan r (S q) 0 [c] t
              | O, _ => rev cur :: split_scan r (S q) 0 [c] t
              | S k, _ => rev cur :: split_scan r (S q) k [] t
              end
          end
      end
  end.

Definition split (r : regex) (s : jsstring) : list jsstring :=
  match s with
  | [] => match match_at r 0 [] with Some _ => [] | None => [[]] end
  | _ => split_scan r 0 0 [] s
  end.

(** [str.trim()] *)
Fixpoint trim_start (s : jsstring) : jsstring :=
  match s with
  | c :: t => if is_space c then trim_start t else s
  | [] => []
  end.

Definition trim_end (s : jsstring) : jsstring := rev (trim_start (rev s)).

Definition trim (s : jsstring) : jsstring := trim_end (trim_start s).

(** [str.substring(0, n)] *)
Definition substring0 (n : nat) (s : jsstring) : jsstring := firstn n s.

(** ** The regular expressions of [src/server.js] *)

Definition digit := Chr is_digit.
Definition space := Chr is_space.
Definition sepdash := Chr is_sepdash.

(** The pattern "/[\n\r]+/g". *)
Definition re_newlines : regex := Plus (Chr is_newline).

(** The pattern "/\s+/g". *)
Definition re_spaces : regex := Plus space.

(** The term "\d{1,3}". *)
Definition digits13 : regex := Rep 1 (Some 3) digit.

(** The pattern
    "/NIK\s*[:.\s\-]*\s*(\d{1,3}[\s\-]?\d{1,3}[\s\-]?\d{1,3}[\s\-]?\d{1,3}[\s\-]?\d{1,3}[\s\-]?\d{1,3}[\s\-]?\d{1,3}[\s\-]?\d{1,3})/i":
    the label, its separators, and group 1 made of eight digit groups. *)
Definition re_nik_groups : regex :=
  seqs [digits13; Opt sepdash; digits13; Opt sepdash; digits13; Opt sepdash;
        digits13; Opt sepdash; digits13; Opt sepdash; digits13; Opt sepdash;
        digits13; Opt sepdash; digits13].

Definition re_nik_label : regex :=
  seqs [Chr (lit_ci (ch "N")); Chr (lit_ci (ch "I")); Chr (lit_ci (ch "K"));
        Star space; Star (Chr is_labelsep); Star space;
        Group 1 re_nik_groups].

(** The pattern "/[\s\-]/g". *)
Definition re_sepdash : regex := sepdash.

(** The pattern "/^\d{16}$/". *)
Definition re_16digits : regex := seqs [Bol; Rep 16 (Some 16) digit; Eol].

(** The group "(R)", with R = "\d[\s\-]*", that the digit-run pattern repeats. *)
Definition run_body : regex := Group 1 (Seq digit (Star sepdash)).

(** The pattern "/(R){15,}\d/g" where R is the group above. *)
Definition re_digit_runs : regex := Seq (Rep 15 None run_body) digit.

(** The pattern "/\D/g". *)
Definition re_nondigit : regex := Chr not_digit.

(** The pattern "/[\s\-]+/". *)
Definition re_word_sep : regex := Plus sepdash.

(** The pattern "/Nama\s*[:]*\s*([^\n]+)/i". *)
Definition re_nama : regex :=
  seqs [Chr (lit_ci (ch "N")); Chr (lit_ci (ch "a")); Chr (lit_ci (ch "m")); Chr (lit_ci (ch "a"));
        Star space; Star (Chr is_colon); Star space;
        Group 1 (Plus (Chr not_lf))].

(** The pattern "/\n|Tempat|Jenis|Gol\.|Alamat/i". *)
Definition re_next_label : regex :=
  alts [Chr (lit_ci 10%N);
        word_ci "Tempat";
        word_ci "Jenis";
        Seq (word_ci "Gol") (Chr (lit_ci (ch ".")));
        word_ci "Alamat"].

(** ** [extractNIK] *)

Definition space_str : jsstring := js " ".

(** The guard [nik.length === 16 && re.test(nik)] with the 16-digit pattern. *)
Definition is_nik (nik : jsstring) : bool :=
  (List.length nik =? 16)%nat && test re_16digits nik.

(** The normalisation: newline runs, then whitespace runs, become one space;
    the ends are trimmed. *)
Definition cleanText (text : jsstring) : jsstring :=
  trim (replace_all re_spaces space_str (replace_all re_newlines space_str text)).

(** Method 1: the first match of the labelled pattern. Group 1 takes part in
    every match of [re_nik_label], so [rawNik] is never undefined and the
    last branch is not reachable ([nik_label_capture]). *)
Definition method1 (clean : jsstring) : option jsstring :=
  match match_first re_nik_label clean with
  | Some nikLabelMatch =>
      match m1 nikLabelMatch with
      | Some rawNik =>
          let nik := replace_all re_sepdash [] rawNik in
          if is_nik nik then Some nik else None
      | None => None
      end
  | None => None
  end.

(** Method 2: the [for ... of] loop over the matches of the digit-run
    pattern. *)
Fixpoint method2_loop (allDigitsPattern : list jsstring) : option jsstring :=
  match allDigitsPattern with
  | [] => None
  | mtch :: others =>
      let nik := replace_all re_nondigit [] mtch in
      if is_nik nik then Some nik
      else if (16 <? List.length nik)%nat then
        let first16 := substring0 16 nik in
        if test re_16digits first16 then Some first16
        else method2_loop others
      else method2_loop others
  end.

Definition method2 (clean : jsstring) : option jsstring :=
  match match_all re_digit_runs clean with
  | Some allDigitsPattern => method2_loop allDigitsPattern
  | None => None
  end.

(** Method 3: the loop over the words. *)
Fixpoint method3_loop (words : list jsstring) : option jsstring :=
  match words with
  | [] => None
  | word :: others =>
      let nik := replace_all re_nondigit [] word in
      if is_nik nik then Some nik else method3_loop others
  end.

Definition method3 (clean : jsstring) : option jsstring :=
  method3_loop (split re_word_sep clean).

(** [None] is JavaScript's [null]. [!text] holds for the empty string. *)
Definition extractNIK (text : jsstring) : option jsstring :=
  match text with
  | [] => None
  | _ =>
      let clean := cleanText text in
      match method1 clean with
      | Some nik => Some nik
      | None =>
          match method2 clean with
          | Some nik => Some nik
          | None => method3 clean
          end
      end
  end.

(** ** [extractKTPInfo] *)

(** The [info] object: its only property is [nama], absent or a string. *)
Record ktp_info : Type := KtpInfo { nama : option jsstring }.

(** [split] never returns an empty array here ([re_next_label] does not match
    the empty string), so element 0 exists; likewise group 1 is defined on
    every match of [re_nama]. *)
Definition extractKTPInfo (text : jsstring) : ktp_info :=
  match text with
  | [] => KtpInfo None
  | _ =>
      match match_first re_nama text with
      | Some namaMatch =>
          match m1 namaMatch with
          | Some captured =>
              let nama := trim captured in
              match split re_next_label nama with
              | first :: _ => KtpInfo (Some (trim first))
              | [] => KtpInfo None
              end
          | None => KtpInfo None
          end
      | None => KtpInfo None
      end
  end.

(** ** [compressImage] *)

(** The outcome of a computation that may throw. *)
Inductive result (A : Type) : Type :=
| Ok : A -> result A
| Throw : result A.
Arguments Ok {A} _.
Arguments Throw {A}.

Definition buffer := list Byte.byte.

(** [buf.length] *)
Definition byteLength (b : buffer) : N := N.of_nat (List.length b).

Definition MAX_FILE_SIZE : N := 1024 * 1024.
Definition COMPRESSION_QUALITY : Z := 80.
Definition MAX_DIMENSION : Z := 2000.
Definition maxAttempts : nat := 5.

(** The variables of the loop. *)
Record loop_state : Type := LoopState {
  compressed : buffer;
  quality : Z;
  maxDimension : Z;
  attempts : nat
}.

(** [Math.floor(maxDimension * 0.9)]. On the integers the loop reaches
    (2000, 1800, 1620, 1458, 1312) the double-precision product rounds to a
    value whose floor is the floor of nine tenths. *)
Definition shrink (d : Z) : Z := (d * 9 / 10)%Z.

Section CompressImage.

(** The pipeline [sharp(buf).resize(d, d, {fit: 'inside', withoutEnlargement:
    true}).jpeg({quality: q, progressive: true}).toBuffer()] awaited by the
    loop: given the buffer, [d] and [q] it yields a buffer or throws. *)
Variable sharp : buffer -> Z -> Z -> result buffer.

(** The condition of the [while]. *)
Definition loop_cond (st : loop_state) : bool :=
  (MAX_FILE_SIZE <? byteLength (compressed st))%N
  && (attempts st <? maxAttempts)%nat.

(** The body of the [while]. *)
Definition loop_body (st : loop_state) : result loop_state :=
  let attempts' := S (attempts st) in
  match sharp (compressed st) (maxDimension st) (quality st) with
  | Ok compressed' =>
      Ok (LoopState compressed'
                    (quality st - 10)%Z
                    (shrink (maxDimension st))
                    attempts')
  | Throw => Throw
  end.

(** The [while] loop. [fuel] bounds the number of executions of the body;
    [None] means the bound was reached before the loop ended. *)
Fixpoint while_loop (fuel : nat) (st : loop_state) : option (result loop_state) :=
  if loop_cond st then
    match fuel with
    | O => None
    | S fuel' =>
        match loop_body st with
        | Ok st' => while_loop fuel' st'
        | Throw => Some Throw
        end
    end
  else Some (Ok st).

(** The states in which the body is entered, in order. *)
Fixpoint entered (fuel : nat) (st : loop_state) : list loop_state :=
  if loop_cond st then
    match fuel with
    | O => []
    | S fuel' =>
        st :: match loop_body st with
              | Ok st' => entered fuel' st'
              | Throw => []
              end
    end
  else [].

Definition initial (imageBuffer : buffer) : loop_state :=
  LoopState imageBuffer COMPRESSION_QUALITY MAX_DIMENSION 0.

(** The body of the [try] block. *)
Definition try_block (fuel : nat) (imageBuffer : buffer) : option (result buffer) :=
  match while_loop fuel (initial imageBuffer) with
  | Some (Ok st) => Some (Ok (compressed st))
  | Some Throw => Some Throw
  | None => None
  end.

(** [try { ... } catch (error) { return imageBuffer; }]. The promise returned
    by the [async] function is fulfilled with [Ok b] and rejected on
    [Throw]. [mimeType] is accepted and not used. *)
Definition compressImage (fuel : nat) (imageBuffer : buffer) (mimeType : jsstring)
  : option (result buffer) :=
  match try_block fuel imageBuffer with
  | Some Throw => Some (Ok imageBuffer)
  | r => r
  end.

End CompressImage.

(** Stand-ins for the encoder, used to run the loop on concrete inputs. *)
Definition halving_encoder (b : buffer) (d q : Z) : result buffer :=
  Ok (firstn (List.length b / 2) b).

Definition padding_encoder (b : buffer) (d q : Z) : result buffer :=
  Ok (Byte.x00 :: b).

Definition failing_encoder (b : buffer) (d q : Z) : result buffer := Throw.

(** A buffer one byte above the ceiling. *)
Definition oversized : buffer := repeat Byte.x00 (N.to_nat 1048577).

(** ** The OCR client: [detectInput] *)

(** The comparison of two characters by a literal of a pattern without the
    [i] flag, and by [startsWith]. *)
Definition is_char (x : char) (c : char) : bool := (c =? x)%N.

(** [s.startsWith(prefix)] *)
Fixpoint startsWith (s prefix : jsstring) {struct prefix} : bool :=
  match prefix, s with
  | [], _ => true
  | x :: prefix', c :: s' => is_char x c && startsWith s' prefix'
  | _ :: _, [] => false
  end.

(** The three answers of [detectInput]: 'url', 'base64Image' and 'file'. *)
Inductive input_type : Type := Url | Base64Image | File.

Definition detectInput (input : jsstring) : input_type :=
  if startsWith input (js "http") then Url
  else if startsWith input (js "data:") then Base64Image
  else File.

(** ** The request handlers *)

(** A value of the request body, of the query or of the OCR result, as far
    as the handlers observe it: a string, or a value of another type, of
    which they observe the truthiness only ([undefined], [null], [false] and
    [0] are falsy; objects, arrays, [true] and the other numbers truthy).
    Such a value comes from a JSON or form parser and is never callable. *)
Inductive jsvalue : Type :=
| VString : jsstring -> jsvalue
| VOther : bool -> jsvalue.

Definition truthy (v : jsvalue) : bool :=
  match v with
  | VString [] => false
  | VString (_ :: _) => true
  | VOther b => b
  end.

Fixpoint string_eqb (a b : jsstring) : bool :=
  match a, b with
  | [], [] => true
  | x :: a', y :: b' => (x =? y)%N && string_eqb a' b'
  | _, _ => false
  end.

(** [v === 'literal'] *)
Definition strict_eq (v : jsvalue) (literal : string) : bool :=
  match v with
  | VString s => string_eqb s (js literal)
  | VOther _ => false
  end.

(** What [ocrSpace] resolves to, restricted to the properties the handlers
    read. [ocrSpace] reads [data.ParsedText] before it returns [data], so it
    never resolves to [null] or [undefined]; on a primitive the three
    properties are [undefined]. *)
Record ocr_result : Type := OcrResult {
  IsErroredOnProcessing : jsvalue;
  ParsedText : jsvalue;
  ErrorMessage : jsvalue
}.

(** The bodies passed to [res.json]. The property [error] that the [catch]
    of a route adds to its body, the [message] of what was thrown, is not
    part of the model: exceptions are modelled without their value. *)
Inductive response_body : Type :=
| Failure (message : jsstring)
    (* { success: false, message } *)
| OcrError (message : jsstring) (err : jsvalue)
    (* { status: 'error', message, error: ocrResult.ErrorMessage } *)
| Extracted (message : jsstring) (identity_number fullname : option jsstring).
    (* { status: 'success', message, data: { identity_number, fullname } } *)

Record response : Type := Response {
  status : nat;
  body : response_body
}.

(** The template literal [`data:${mimeType};base64,${base64}`]. *)
Definition data_uri (mimeType base64 : jsstring) : jsstring :=
  js "data:" ++ mimeType ++ js ";base64," ++ base64.

(** A literal word of a pattern without the [i] flag. *)
Definition word (w : string) : regex :=
  seqs (List.map (fun x => Chr (is_char x)) (js w)).

(** "[^;]" *)
Definition not_semicolon (c : char) : bool := negb (c =? 59)%N.

(** ".": any character but a line terminator. *)
Definition any_char (c : char) : bool :=
  negb ((c =? 10) || (c =? 13) || (c =? 8232) || (c =? 8233))%N.

(** The pattern "/data:([^;]+);base64,(.+)/". *)
Definition re_data_uri : regex :=
  seqs [word "data:"; Group 1 (Plus (Chr not_semicolon));
        word ";base64,"; Group 2 (Plus (Chr any_char))].

(** [str.match(re)] without the [g] flag, restricted to captures 1 and 2. *)
Definition match_groups (r : regex) (s : jsstring)
  : option (option jsstring * option jsstring) :=
  match exec_from r 0 s with
  | Some (_, _, e) => Some (get_cap 1 (caps e), get_cap 2 (caps e))
  | None => None
  end.

(** [x || 'image/jpeg'] for a string [x]. *)
Definition or_jpeg (x : jsstring) : jsstring :=
  match x with
  | [] => js "image/jpeg"
  | _ => x
  end.

(** [extractNIK] and [extractKTPInfo] applied to the [ParsedText] of the OCR
    result: a falsy value takes the [!text] exit, and a truthy value that is
    not a string has no [replace] or [match] method. *)
Definition extractNIK_of (text : jsvalue) : result (option jsstring) :=
  match text with
  | VString s => Ok (extractNIK s)
  | VOther false => Ok None
  | VOther true => Throw
  end.

Definition extractKTPInfo_of (text : jsvalue) : result ktp_info :=
  match text with
  | VString s => Ok (extractKTPInfo s)
  | VOther false => Ok (KtpInfo None)
  | VOther true => Throw
  end.

(** The statements after the OCR call, shared by the two extraction
    routes. *)
Definition respond (ocrResult : ocr_result) : result response :=
  if negb (truthy (IsErroredOnProcessing ocrResult)) then
    let extractedText := ParsedText ocrResult in
    match extractNIK_of extractedText with
    | Throw => Throw
    | Ok nik =>
        match extractKTPInfo_of extractedText with
        | Throw => Throw
        | Ok ktpInfo =>
            Ok (Response 200
              (Extracted
                 (match nik with
                  | Some (_ :: _) => js "Data berhasil diekstraksi"
                  | _ => js "NIK tidak ditemukan"
                  end)
                 nik
                 (match nama ktpInfo with
                  | Some (c :: t) => Some (c :: t)
                  | _ => None
                  end)))
        end
    end
  else
    Ok (Response 400
      (OcrError (js "Error processing image") (ErrorMessage ocrResult))).

(** The [catch] of a route. *)
Definition internal_error : response :=
  Response 500 (Failure (js "Internal server error")).

Section Routes.

(** The collaborators: the resize-and-encode pipeline of [compressImage],
    the crop pipeline [sharp(buf).extract(...).toBuffer()] at the requested
    height, [Buffer.from(s, 'base64')], [buf.toString('base64')] and the OCR
    client. [fuel] bounds the executions of the body of the compression
    loop. *)
Variable sharp : buffer -> Z -> Z -> result buffer.
Variable crop : buffer -> result buffer.
Variable from_base64 : jsstring -> buffer.
Variable to_base64 : buffer -> jsstring.
Variable ocrSpace : jsstring -> result ocr_result.
Variable fuel : nat.

(** The OCR call and what follows it. *)
Definition call_ocr (input : jsstring) : response :=
  match ocrSpace input with
  | Throw => internal_error
  | Ok ocrResult =>
      match respond ocrResult with
      | Ok r => r
      | Throw => internal_error
      end
  end.

(** POST /extract-nik: [isBase64]. *)
Definition isBase64 (image : jsstring) (type : jsvalue) : bool :=
  strict_eq type "base64" || startsWith image (js "data:").

(** POST /extract-nik: the inner [try] block, for a string [image]. It
    yields the new value of [input]. Both groups take part in every match of
    [re_data_uri], so the last branch of the inner [match] is not
    reachable. *)
Definition base64_try (image : jsstring) : option (result jsstring) :=
  let '(mimeType, base64Data) :=
    if startsWith image (js "data:") then
      match match_groups re_data_uri image with
      | Some (Some m, Some d) => (m, d)
      | _ => (js "image/jpeg", image)
      end
    else (js "image/jpeg", image) in
  let imageBuffer := from_base64 base64Data in
  if (MAX_FILE_SIZE <? byteLength imageBuffer)%N then
    match compressImage sharp fuel imageBuffer mimeType with
    | Some (Ok compressedBuffer) =>
        Some (Ok (data_uri mimeType (to_base64 compressedBuffer)))
    | Some Throw => Some Throw
    | None => None
    end
  else if negb (startsWith image (js "data:")) then
    Some (Ok (data_uri mimeType base64Data))
  else Some (Ok image).

(** POST /extract-nik: the value of [input] at the OCR call, for a string
    [image]. *)
Definition base64_input (image : jsstring) (type : jsvalue) : option jsstring :=
  if isBase64 image type then
    match base64_try image with
    | Some (Ok input) => Some input
    | Some Throw =>
        Some (if negb (startsWith image (js "data:"))
              then data_uri (js "image/jpeg") image
              else image)
    | None => None
    end
  else Some image.

(** POST /extract-nik, on the properties [image] and [type] of the body. A
    truthy [image] that is not a string has no [startsWith]: the call throws
    in the handler, or in the inner [try] and again in its [catch]. *)
Definition post_extract_nik (image type : jsvalue) : option response :=
  if negb (truthy image) then
    Some (Response 400 (Failure (js "Image is required")))
  else
    match image with
    | VOther _ => Some internal_error
    | VString img =>
        match base64_input img type with
        | Some input => Some (call_ocr input)
        | None => None
        end
    end.

(** The uploaded file [req.file]. *)
Record upload : Type := Upload {
  file_buffer : buffer;
  mimetype : jsstring
}.

(** POST /extract: the value of [input] at the OCR call. *)
Definition upload_input (file : upload) (shouldCrop : bool) : option (result jsstring) :=
  let imageBuffer :=
    if shouldCrop then
      match crop (file_buffer file) with
      | Ok cropped => cropped
      | Throw => file_buffer file
      end
    else file_buffer file in
  let compressed :=
    if (MAX_FILE_SIZE <? byteLength imageBuffer)%N
    then compressImage sharp fuel imageBuffer (or_jpeg (mimetype file))
    else Some (Ok imageBuffer) in
  match compressed with
  | Some (Ok imageBuffer') =>
      Some (Ok (data_uri (or_jpeg (mimetype file)) (to_base64 imageBuffer')))
  | Some Throw => Some Throw
  | None => None
  end.

(** POST /extract, on [req.file] and [req.query.crop]. *)
Definition post_extract (file : option upload) (crop_param : jsvalue) : option response :=
  match file with
  | None => Some (Response 400 (Failure (js "File is required")))
  | Some f =>
      match upload_input f (strict_eq crop_param "true") with
      | Some (Ok input) => Some (call_ocr input)
      | Some Throw => Some internal_error
      | None => None
      end
  end.

End Routes.

(** Stand-ins for the collaborators of the routes, used to run them on
    concrete requests. *)
Definition sample_from_base64 (s : jsstring) : buffer :=
  List.map (fun _ => Byte.x00) s.

Definition sample_to_base64 (b : buffer) : jsstring :=
  List.map (fun _ => ch "A") b.

Definition failing_crop (b : buffer) : result buffer := Throw.

Definition sample_ocr (input : jsstring) : result ocr_result :=
  Ok (OcrResult (VOther false)
                (VString (js "NIK: 3201 0145 0390 0021 Nama: BUDI"))
                (VOther false)).

(** * Notions used to state the claims *)

(** ** Labels and numbers in a text *)

(** The head of [s] spells the label "NIK", ignoring case. *)
Definition starts_label (s : jsstring) : bool :=
  match s with
  | a :: b :: c :: _ =>
      lit_ci (ch "N") a && lit_ci (ch "I") b && lit_ci (ch "K") c
  | _ => false
  end.

(** The indices at which the label occurs in [s], counted from [p]. *)
Fixpoint label_positions (p : nat) (s : jsstring) : list nat :=
  match s with
  | [] => []
  | _ :: t =>
      (if starts_label s then [p] else []) ++ label_positions (S p) t
  end.

(** The label occurs somewhere in [s]. *)
Fixpoint has_label (s : jsstring) : bool :=
  match s with
  | [] => false
  | _ :: t => starts_label s || has_label t
  end.

Definition starts_with_digit (s : jsstring) : bool :=
  match s with
  | c :: _ => is_digit c
  | [] => false
  end.

(** Sixteen digits. *)
Definition is_number16 (n : jsstring) : bool :=
  (List.length n =? 16) && forallb is_digit n.

(** The text [pre ++ lab ++ sep ++ n ++ post] holds the 16-digit number [n]
    right after a label: [lab] spells "NIK" in any case, [sep] is made of the
    separators the pattern allows after the label, and the number is not
    continued by a further digit. *)
Definition labelled (lab sep n post : jsstring) : Prop :=
  starts_label lab = true /\ List.length lab = 3
  /\ forallb is_labelsep sep = true
  /\ is_number16 n = true
  /\ starts_with_digit post = false.

(** [m] occurs in [s]. *)
Definition occurs (m s : jsstring) : Prop :=
  exists a b, s = a ++ m ++ b.

(** What follows the number does not extend the capture of the labelled
    pattern: no digit, no dash followed by a digit, and no whitespace (which
    the normalisation turns into one space) followed by a digit. *)
Definition ends_number (post : jsstring) : bool :=
  match post with
  | [] => true
  | c :: t =>
      negb (is_digit c)
      && negb ((c =? 45)%N && starts_with_digit t)
      && negb (is_space c && starts_with_digit (trim_start t))
  end.

(** The scenario of the specification. *)
Definition scenario : jsstring := js "NIK: 3201 0145 0390 0021".

(** The line feed. *)
Definition LF : jsstring := [10%N].

(** ** Digit runs and tokens *)

(** Number of digits of the digit run that starts at the head of [s], when
    two digits of a run are separated by at most one whitespace or dash
    character. [sep_seen] tells that the previous character was such a
    separator. *)
Fixpoint run_single (sep_seen : bool) (s : jsstring) : nat :=
  match s with
  | [] => 0
  | c :: t =>
      if is_digit c then S (run_single false t)
      else if is_sepdash c && negb sep_seen then run_single true t
      else 0
  end.

(** Number of digits of the longest such run of [s]. *)
Fixpoint max_single_run (s : jsstring) : nat :=
  match s with
  | [] => 0
  | _ :: t => Nat.max (run_single false s) (max_single_run t)
  end.

(** Number of digits of the digit run that starts at the head of [s], when
    the digits of a run are separated by any number of whitespace or dash
    characters (what the digit-run pattern of the source allows, and what
    the normalisation turns into single spaces); the run ends at the first
    other character. *)
Fixpoint run_here (s : jsstring) : nat :=
  match s with
  | [] => 0
  | c :: t =>
      if is_digit c then S (run_here t)
      else if is_sepdash c then run_here t
      else 0
  end.

(** Number of digits of the longest such run of [s]. *)
Fixpoint max_digit_run (s : jsstring) : nat :=
  match s with
  | [] => 0
  | _ :: t => Nat.max (run_here s) (max_digit_run t)
  end.

Definition count_digits (s : jsstring) : nat :=
  List.length (filter is_digit s).

(** The fields of [s] between characters of the class [p] (empty fields
    included). *)
Fixpoint fields (p : char -> bool) (s : jsstring) : list jsstring :=
  match s with
  | [] => [[]]
  | c :: t =>
      if p c then [] :: fields p t
      else match fields p t with
           | w :: l => (c :: w) :: l
           | [] => [[c]]
           end
  end.

(** Some whitespace/dash-delimited token of [s] holds exactly 16 digits. *)
Definition has_token16 (s : jsstring) : bool :=
  existsb (fun w => count_digits w =? 16) (fields is_sepdash s).

(** ** The compression loop *)

(** The loop variables other than the buffer. *)
Definition params (st : loop_state) : nat * Z * Z :=
  (attempts st, quality st, maxDimension st).

(** Their values when the body is entered for the [k]+1-th time. *)
Definition schedule (k : nat) : nat * Z * Z :=
  (k, (COMPRESSION_QUALITY - 10 * Z.of_nat k)%Z, Nat.iter k shrink MAX_DIMENSION).

(** The successive values of the variable [compressed]. *)
Fixpoint working (sharp : buffer -> Z -> Z -> result buffer)
         (fuel : nat) (st : loop_state) : list buffer :=
  compressed st ::
    (if loop_cond st then
       match fuel with
       | O => []
       | S fuel' =>
           match loop_body sharp st with
           | Ok st' => working sharp fuel' st'
           | Throw => []
           end
       end
     else []).

Fixpoint nonincreasing (l : list N) : Prop :=
  match l with
  | a :: (b :: _) as t => (b <= a)%N /\ nonincreasing t
  | _ => True
  end.

(** * Notions used to state the further properties *)

(** ** Tokens *)

(** The token holds exactly 16 digits. *)
Definition sixteen_digits (w : jsstring) : bool := count_digits w =? 16.

(** ** Names and labels *)

(** The head of [s] spells the word [w], ignoring case as the [i] flag
    does. *)
Fixpoint starts_ci (w s : jsstring) : bool :=
  match w, s with
  | [], _ => true
  | x :: w', c :: s' => lit_ci x c && starts_ci w' s'
  | _ :: _, [] => false
  end.

(** The word [w] occurs in [s], ignoring case. *)
Fixpoint occurs_ci (w s : jsstring) : bool :=
  match s with
  | [] => starts_ci w []
  | _ :: t => starts_ci w s || occurs_ci w t
  end.

(** The field labels at which the name is cut. *)
Definition next_labels : list jsstring :=
  [js "Tempat"; js "Jenis"; js "Gol."; js "Alamat"].

(** The head of [s] is a line feed or spells one of these labels. *)
Definition starts_next_label (s : jsstring) : bool :=
  match s with c :: _ => (c =? 10)%N | [] => false end
  || existsb (fun w => starts_ci w s) next_labels.

(** The part of [s] before the first line feed or label. *)
Fixpoint before_label (s : jsstring) : jsstring :=
  match s with
  | [] => []
  | c :: t => if starts_next_label s then [] else c :: before_label t
  end.

(** Some occurrence of "Nama" in [s], in any case, is followed, at any
    distance, by a character that is not a line feed. *)
Fixpoint has_name (s : jsstring) : bool :=
  match s with
  | [] => false
  | _ :: t => (starts_ci (js "Nama") s && existsb not_lf (skipn 4 s)) || has_name t
  end.

(** The text [lab ++ s1 ++ colons ++ s2 ++ line ++ more]: [lab] spells "Nama"
    in any case, whitespace and colons follow in that order, [line] begins
    with a character that is neither, holds no line feed and extends to the
    end of its line. *)
Definition name_line (lab s1 colons s2 line more : jsstring) : Prop :=
  starts_ci (js "Nama") lab = true /\ List.length lab = 4
  /\ forallb is_space s1 = true
  /\ forallb is_colon colons = true
  /\ forallb is_space s2 = true
  /\ match line with
     | x :: _ => is_space x = false /\ is_colon x = false
     | [] => False
     end
  /\ forallb not_lf line = true
  /\ match more with [] => True | c :: _ => c = 10%N end.

(** * Notions used in the proofs *)

(** ** States of the matcher *)

(** [advances s s']: [s'] is reached from [s] by consuming a word [w]. *)
Definition advances (s s' : mstate) : Prop :=
  exists w, rest s = w ++ rest s' /\ pos s' = pos s + List.length w.

(** [consumes P s s' w]: [s'] is reached from [s] by consuming the word [w],
    made of characters of [P]. *)
Definition consumes (P : char -> bool) (s s' : mstate) (w : jsstring) : Prop :=
  rest s = w ++ rest s' /\ pos s' = pos s + List.length w /\ forallb P w = true.

(** Every character class of [r] is included in [P]. *)
Fixpoint chars_in (P : char -> bool) (r : regex) : Prop :=
  match r with
  | Chr p => forall c, p c = true -> P c = true
  | Seq a b | Alt a b => chars_in P a /\ chars_in P b
  | Rep _ _ a | Group _ a => chars_in P a
  | _ => True
  end.

(** [first_is r s e]: the matcher of [r] at [s] succeeds first with [e]. *)
Definition first_is (r : regex) (s e : mstate) : Prop :=
  exists tl, matcher r s = e :: tl.

(** The state [k] code units after [s]. *)
Definition adv (s : mstate) (k : nat) : mstate :=
  MState (pos s + k) (skipn k (rest s)) (caps s).

(** ** Runs of a character class *)

(** Length of the longest prefix made of characters of a class. *)
Fixpoint run (p : char -> bool) (s : jsstring) : nat :=
  match s with
  | c :: t => if p c then S (run p t) else 0
  | [] => 0
  end.

(** The head of [s], if any, is outside the class. *)
Definition stops_class (p : char -> bool) (s : jsstring) : Prop :=
  match s with [] => True | c :: _ => p c = false end.

(** The number of iterations a quantifier allows on a run of length [n]. *)
Definition bound (max : option nat) (n : nat) : nat :=
  match max with
  | Some m => Nat.min n m
  | None => n
  end.

(** The numbers [hi, hi-1, ..., lo], empty when [hi < lo]. *)
Definition downto (hi lo : nat) : list nat := rev (seq lo (S hi - lo)).

Definition digit_or_sep (c : char) : bool := is_digit c || is_sepdash c.

(** ** The normalisation, directly *)

(** Each maximal run of the class [p] is replaced by [by_]; [inrun] tells
    that the previous character belonged to a run. *)
Fixpoint squeeze (p : char -> bool) (by_ : jsstring) (inrun : bool) (s : jsstring)
  : jsstring :=
  match s with
  | [] => []
  | c :: t =>
      if p c then (if inrun then [] else by_) ++ squeeze p by_ true t
      else c :: squeeze p by_ false t
  end.

(** The normalised form of what precedes, and of what follows, a character
    that is not whitespace. *)
Definition norm_left (s : jsstring) : jsstring :=
  trim_start (squeeze is_space space_str false s).

Definition norm_right (s : jsstring) : jsstring :=
  trim_end (squeeze is_space space_str false s).

(** The text without its whitespace. *)
Definition strip_space (s : jsstring) : jsstring :=
  filter (fun c => negb (is_space c)) s.

(** ** The digit groups of the labelled pattern *)

(** [m]+1 digit groups with an optional separator between two groups. *)
Fixpoint nik_groups (m : nat) : regex :=
  match m with
  | O => digits13
  | S m' => Seq digits13 (Seq (Opt sepdash) (nik_groups m'))
  end.

(** What follows the digits does not extend the capture: no digit, and no
    separator followed by a digit. *)
Definition stops (s : jsstring) : bool :=
  match s with
  | [] => true
  | c :: t => negb (is_digit c) && negb (is_sepdash c && starts_with_digit t)
  end.

(** ** Further notions *)

(** Every whitespace character of [s] is a single space with no whitespace
    next to it; with [b], moreover, [s] does not begin with whitespace. *)
Fixpoint tidy (b : bool) (s : jsstring) : bool :=
  match s with
  | [] => true
  | c :: t =>
      if is_space c then negb b && (c =? 32)%N && tidy true t
      else tidy false t
  end.

(** The words that are not empty. *)
Definition nonempty (l : list jsstring) : list jsstring :=
  filter (fun w => match w with [] => false | _ => true end) l.

(** The head of [s] spells the word [w] when characters are compared with
    [f]. *)
Fixpoint spells (f : char -> char -> bool) (w s : jsstring) : bool :=
  match w, s with
  | [], _ => true
  | x :: w', c :: s' => f x c && spells f w' s'
  | _ :: _, [] => false
  end.

(** * Properties of the matcher *)

(** ** The characters a pattern consumes *)

Lemma consumes_refl P s : consumes P s s [].
Proof. repeat split. cbn. lia. Qed.

Lemma consumes_trans P s1 s2 s3 w1 w2 :
  consumes P s1 s2 w1 -> consumes P s2 s3 w2 -> consumes P s1 s3 (w1 ++ w2).
Proof.
  intros (H1 & P1 & F1) (H2 & P2 & F2). repeat split.
  - now rewrite H1, H2, app_assoc.
  - rewrite length_app. lia.
  - rewrite forallb_app. now rewrite F1, F2.
Qed.

Lemma rep_consumes P body clr :
  (forall s s', In s' (body s) -> exists w, consumes P s s' w) ->
  (forall s, pos (clr s) = pos s /\ rest (clr s) = rest s) ->
  forall fuel min max s s',
    In s' (rep body clr fuel min max s) -> exists w, consumes P s s' w.
Proof.
  intros Hb Hc. induction fuel as [|fuel IH]; intros min max s s' Hin.
  - destruct Hin.
  - cbn [rep] in Hin.
    assert (Hgen :
      In s' (flat_map
               (fun s0 => if (min =? 0) && (pos s0 =? pos s) then []
                          else rep body clr fuel (Nat.pred min) (option_map Nat.pred max) s0)
               (body (clr s)) ++ (if min =? 0 then [s] else [])) ->
      exists w, consumes P s s' w).
    { intros H. apply in_app_or in H. destruct H as [H|H].
      - apply in_flat_map in H. destruct H as (s0 & H0 & H1).
        destruct ((min =? 0) && (pos s0 =? pos s)); [destruct H1|].
        apply Hb in H0. apply IH in H1.
        destruct H0 as (w0 & R0 & P0 & F0). destruct H1 as (w1 & C1).
        destruct (Hc s) as [Pc Rc].
        exists (w0 ++ w1). apply consumes_trans with s0; [|exact C1].
        repeat split; [now rewrite <- Rc | now rewrite <- Pc | exact F0].
      - destruct (min =? 0); [|destruct H].
        destruct H as [<-|[]]. exists []. apply consumes_refl. }
    destruct max as [[|k]|]; [|auto|auto].
    destruct Hin as [<-|[]]. exists []. apply consumes_refl.
Qed.

Lemma matcher_consumes P r :
  chars_in P r ->
  forall s s', In s' (matcher r s) -> exists w, consumes P s s' w.
Proof.
  induction r as [|p|a IHa b IHb|a IHa b IHb|min max a IHa|n a IHa| |];
    intros Hr s s' Hin; cbn [matcher] in Hin; cbn [chars_in] in Hr.
  - destruct Hin as [<-|[]]. exists []. apply consumes_refl.
  - destruct (rest s) as [|c t] eqn:E; [destruct Hin|].
    destruct (p c) eqn:Ep; [|destruct Hin]. destruct Hin as [<-|[]].
    exists [c]. repeat split; cbn; [exact E | lia |].
    now rewrite (Hr c Ep).
  - apply in_flat_map in Hin. destruct Hin as (s0 & H0 & H1).
    destruct Hr as [Ha Hb].
    destruct (IHa Ha _ _ H0) as (w0 & C0). destruct (IHb Hb _ _ H1) as (w1 & C1).
    exists (w0 ++ w1). eapply consumes_trans; eauto.
  - destruct Hr as [Ha Hb]. apply in_app_or in Hin. destruct Hin; eauto.
  - eapply rep_consumes; [| |exact Hin]; [now apply IHa|].
    intros s0. split; reflexivity.
  - apply in_map_iff in Hin. destruct Hin as (s0 & <- & H0).
    destruct (IHa Hr _ _ H0) as (w & C). exists w. exact C.
  - destruct (pos s =? 0); [|destruct Hin]. destruct Hin as [<-|[]].
    exists []. apply consumes_refl.
  - destruct (rest s); [|destruct Hin]. destruct Hin as [<-|[]].
    exists []. apply consumes_refl.
Qed.

(** ** End states are suffixes of the input *)

Lemma advances_refl s : advances s s.
Proof. exists []. simpl. split; [reflexivity | lia]. Qed.

Lemma advances_trans s1 s2 s3 :
  advances s1 s2 -> advances s2 s3 -> advances s1 s3.
Proof.
  intros (w1 & H1 & P1) (w2 & H2 & P2). exists (w1 ++ w2).
  rewrite H1, H2, <- app_assoc, length_app. split; [reflexivity | lia].
Qed.

Lemma advances_length s s' :
  advances s s' -> List.length (rest s') <= List.length (rest s).
Proof. intros (w & H & _). rewrite H, length_app. lia. Qed.

Lemma chars_in_any r : chars_in (fun _ => true) r.
Proof.
  induction r; cbn [chars_in]; auto.
Qed.

Lemma matcher_advances r s s' : In s' (matcher r s) -> advances s s'.
Proof.
  intros H.
  destruct (matcher_consumes (fun _ => true) r (chars_in_any r) s s' H)
    as (w & R & P & _).
  exists w. auto.
Qed.

Lemma flat_map_ext_In (A B : Type) (f g : A -> list B) (l : list A) :
  (forall a, In a l -> f a = g a) -> flat_map f l = flat_map g l.
Proof.
  induction l as [|a l IH]; intros H; simpl; [reflexivity|].
  rewrite (H a) by (left; reflexivity). f_equal.
  apply IH. intros b Hb. apply H. right. exact Hb.
Qed.

(** The fuel given by [matcher] is never exhausted: any larger amount gives
    the same result. *)
Lemma rep_fuel body clr :
  (forall s s', In s' (body s) -> advances s s') ->
  (forall s, pos (clr s) = pos s /\ rest (clr s) = rest s) ->
  forall f1 f2 min max s,
    min + List.length (rest s) < f1 ->
    min + List.length (rest s) < f2 ->
    rep body clr f1 min max s = rep body clr f2 min max s.
Proof.
  intros Hb Hc. induction f1 as [|f1 IH]; intros f2 min max s H1 H2; [lia|].
  destruct f2 as [|f2]; [lia|]. simpl.
  assert (Hgen :
    flat_map (fun s' => if (min =? 0) && (pos s' =? pos s) then []
                        else rep body clr f1 (Nat.pred min) (option_map Nat.pred max) s')
             (body (clr s))
    = flat_map (fun s' => if (min =? 0) && (pos s' =? pos s) then []
                          else rep body clr f2 (Nat.pred min) (option_map Nat.pred max) s')
               (body (clr s))).
  { apply flat_map_ext_In. intros s0 H0. apply Hb in H0.
    destruct (Hc s) as [Pc Rc].
    assert (Hadv : advances s s0).
    { destruct H0 as (w & Hw & Pw). exists w. rewrite <- Rc, <- Pc. auto. }
    destruct (min =? 0) eqn:Em; simpl.
    - destruct (pos s0 =? pos s) eqn:Ep; [reflexivity|].
      apply Nat.eqb_eq in Em. apply Nat.eqb_neq in Ep. subst min.
      destruct Hadv as (w & Hw & Pw).
      destruct w as [|c w]; [simpl in Pw; lia|].
      rewrite Hw in H1, H2. simpl in H1, H2. rewrite length_app in H1, H2.
      apply IH; simpl; lia.
    - apply Nat.eqb_neq in Em. apply advances_length in Hadv.
      apply IH; lia. }
  destruct max as [[|k]|]; [reflexivity| |]; now rewrite Hgen.
Qed.

(** The defining equation of the quantifier, free of fuel. *)
Lemma matcher_Rep min max a s :
  matcher (Rep min max a) s =
  match max with
  | Some O => [s]
  | _ =>
      flat_map
        (fun s' =>
           if (min =? 0) && (pos s' =? pos s) then []
           else matcher (Rep (Nat.pred min) (option_map Nat.pred max) a) s')
        (matcher a (clear_caps (groups a) s))
      ++ (if min =? 0 then [s] else [])
  end.
Proof.
  simpl matcher at 1. rewrite Nat.add_1_r. simpl rep.
  assert (Hgen :
    flat_map (fun s' => if (min =? 0) && (pos s' =? pos s) then []
                        else rep (matcher a) (clear_caps (groups a))
                                 (min + List.length (rest s)) (Nat.pred min)
                                 (option_map Nat.pred max) s')
             (matcher a (clear_caps (groups a) s))
    = flat_map (fun s' => if (min =? 0) && (pos s' =? pos s) then []
                          else matcher (Rep (Nat.pred min) (option_map Nat.pred max) a) s')
               (matcher a (clear_caps (groups a) s))).
  { apply flat_map_ext_In. intros s0 H0. apply matcher_advances in H0.
    change (advances s s0) in H0.
    destruct (min =? 0) eqn:Em; simpl.
    - destruct (pos s0 =? pos s) eqn:Ep; [reflexivity|].
      apply Nat.eqb_eq in Em. apply Nat.eqb_neq in Ep. subst min.
      destruct H0 as (w & Hw & Pw).
      destruct w as [|c w]; [simpl in Pw; lia|].
      apply rep_fuel.
      + apply matcher_advances.
      + intros s1. split; reflexivity.
      + rewrite Hw. simpl. rewrite length_app. lia.
      + simpl. lia.
    - apply Nat.eqb_neq in Em. apply advances_length in H0.
      apply rep_fuel.
      + apply matcher_advances.
      + intros s1. split; reflexivity.
      + lia.
      + lia. }
  destruct max as [[|k]|]; [reflexivity| |]; now rewrite Hgen.
Qed.

(** ** Quantified character classes *)

Lemma clear_caps_nil s : clear_caps [] s = s.
Proof.
  destruct s as [p t cs]. unfold clear_caps. simpl. f_equal.
  induction cs as [|e cs IH]; simpl; [reflexivity | now rewrite IH].
Qed.

Lemma adv_0 s : adv s 0 = s.
Proof. destruct s. unfold adv. simpl. now rewrite Nat.add_0_r. Qed.

Lemma downto_S hi lo : map S (downto hi lo) = downto (S hi) (S lo).
Proof.
  unfold downto. rewrite map_rev. f_equal.
  change (S (S hi) - S lo) with (S hi - lo). now rewrite seq_shift.
Qed.

Lemma downto_0 hi : downto (S hi) 0 = map S (downto hi 0) ++ [0].
Proof.
  unfold downto. rewrite !Nat.sub_0_r.
  change (seq 0 (S (S hi))) with (0 :: seq 1 (S hi)).
  simpl rev at 1. rewrite map_rev, seq_shift. reflexivity.
Qed.

Lemma matcher_Rep_Chr_stop p min max s :
  match rest s with [] => True | c :: _ => p c = false end ->
  matcher (Rep min max (Chr p)) s =
  match max with
  | Some O => [s]
  | _ => if min =? 0 then [s] else []
  end.
Proof.
  intros H. rewrite matcher_Rep, clear_caps_nil.
  change (matcher (Chr p) s) with
    (match rest s with
     | c :: t => if p c then [MState (S (pos s)) t (caps s)] else []
     | [] => []
     end).
  destruct (rest s) as [|c t]; [|rewrite H]; reflexivity.
Qed.

Lemma matcher_Rep_Chr_step p min max n c t cs :
  p c = true ->
  matcher (Rep min max (Chr p)) (MState n (c :: t) cs) =
  match max with
  | Some O => [MState n (c :: t) cs]
  | _ =>
      matcher (Rep (Nat.pred min) (option_map Nat.pred max) (Chr p)) (MState (S n) t cs)
      ++ (if min =? 0 then [MState n (c :: t) cs] else [])
  end.
Proof.
  intros H. rewrite matcher_Rep, clear_caps_nil.
  change (matcher (Chr p) (MState n (c :: t) cs)) with
    (if p c then [MState (S n) t cs] else []).
  rewrite H. cbn [flat_map pos]. rewrite app_nil_r.
  replace (S n =? n) with false by (symmetry; apply Nat.eqb_neq; lia).
  rewrite andb_false_r. reflexivity.
Qed.

(** A greedy quantifier over one character class yields the positions after
    [hi], [hi - 1], ..., [min] characters, [hi] being the length of the run
    of the class capped by [max]. *)
Lemma matcher_Rep_Chr p : forall t min max n cs,
  (forall m, max = Some m -> min <= m) ->
  matcher (Rep min max (Chr p)) (MState n t cs)
  = map (adv (MState n t cs)) (downto (bound max (run p t)) min).
Proof.
  assert (Hstop : forall s min max,
            (forall m, max = Some m -> min <= m) ->
            match max with
            | Some O => [s]
            | _ => if min =? 0 then [s] else []
            end = map (adv s) (downto (bound max 0) min)).
  { intros s min max Hmax. destruct max as [[|k]|].
    - specialize (Hmax 0 eq_refl). assert (min = 0) by lia. subst.
      cbn. now rewrite adv_0.
    - destruct min; cbn; [now rewrite adv_0 | reflexivity].
    - destruct min; cbn; [now rewrite adv_0 | reflexivity]. }
  induction t as [|c t IH]; intros min max n cs Hmax.
  - rewrite matcher_Rep_Chr_stop by exact I. now apply Hstop.
  - cbn [run]. destruct (p c) eqn:Ep.
    + rewrite matcher_Rep_Chr_step by exact Ep.
      destruct max as [[|k]|].
      * specialize (Hmax 0 eq_refl). assert (min = 0) by lia. subst.
        cbn. now rewrite adv_0.
      * cbn [option_map Nat.pred].
        rewrite IH by (intros m [= <-]; specialize (Hmax (S k) eq_refl); lia).
        cbn [bound]. rewrite <- Nat.succ_min_distr.
        destruct min as [|min'].
        -- cbn [Nat.pred Nat.eqb]. rewrite downto_0, map_app, map_map.
           cbn [map]. rewrite adv_0. f_equal. apply map_ext. intros a.
           unfold adv. cbn. f_equal. lia.
        -- cbn [Nat.pred Nat.eqb]. rewrite app_nil_r, <- downto_S, map_map.
           apply map_ext. intros a. unfold adv. cbn. f_equal. lia.
      * cbn [option_map Nat.pred].
        rewrite IH by (intros m [=]).
        cbn [bound].
        destruct min as [|min'].
        -- cbn [Nat.pred Nat.eqb]. rewrite downto_0, map_app, map_map.
           cbn [map]. rewrite adv_0. f_equal. apply map_ext. intros a.
           unfold adv. cbn. f_equal. lia.
        -- cbn [Nat.pred Nat.eqb]. rewrite app_nil_r, <- downto_S, map_map.
           apply map_ext. intros a. unfold adv. cbn. f_equal. lia.
    + rewrite matcher_Rep_Chr_stop by exact Ep.
      rewrite Hstop by exact Hmax. reflexivity.
Qed.

Lemma matcher_Seq a b s :
  matcher (Seq a b) s = flat_map (matcher b) (matcher a s).
Proof. reflexivity. Qed.

Lemma matcher_Chr p s :
  matcher (Chr p) s =
  match rest s with
  | c :: t => if p c then [MState (S (pos s)) t (caps s)] else []
  | [] => []
  end.
Proof. reflexivity. Qed.

Lemma matcher_Alt a b s : matcher (Alt a b) s = matcher a s ++ matcher b s.
Proof. reflexivity. Qed.

Lemma matcher_Group n a s :
  matcher (Group n a) s = map (close_group n s) (matcher a s).
Proof. reflexivity. Qed.

Lemma matcher_Bol s : matcher Bol s = if pos s =? 0 then [s] else [].
Proof. reflexivity. Qed.

Lemma matcher_Eol s : matcher Eol s = match rest s with [] => [s] | _ => [] end.
Proof. reflexivity. Qed.

Lemma downto_lt hi lo : hi < lo -> downto hi lo = [].
Proof. intros H. unfold downto. replace (S hi - lo) with 0 by lia. reflexivity. Qed.

Lemma downto_same n : downto n n = [n].
Proof. unfold downto. replace (S n - n) with 1 by lia. reflexivity. Qed.

Lemma downto_cons hi lo : lo <= S hi -> downto (S hi) lo = S hi :: downto hi lo.
Proof.
  intros H. unfold downto.
  replace (S (S hi) - lo) with (S (S hi - lo)) by lia.
  rewrite seq_S, rev_app_distr. cbn [rev app].
  replace (lo + (S hi - lo)) with (S hi) by lia. reflexivity.
Qed.

Lemma run_le p s : run p s <= List.length s.
Proof. induction s as [|c s IH]; cbn; [lia|]. destruct (p c); lia. Qed.

Lemma run_all p s : run p s = List.length s <-> forallb p s = true.
Proof.
  induction s as [|c s IH]; cbn; [tauto|].
  destruct (p c); cbn.
  - rewrite <- IH. split; lia.
  - split; [lia | discriminate].
Qed.

(** ** The 16-digit test *)

Lemma test_16digits s :
  test re_16digits s = (List.length s =? 16) && forallb is_digit s.
Proof.
  unfold test.
  assert (Hlater : forall t p, exec_from re_16digits (S p) t = None).
  { induction t as [|c t IH]; intros p; cbn [exec_from]; unfold match_at;
      unfold re_16digits; cbn [seqs]; rewrite matcher_Seq, matcher_Bol;
      cbn [pos Nat.eqb flat_map hd_error]; [reflexivity | apply IH]. }
  assert (Hfirst : match_at re_16digits 0 s
                   = if (List.length s =? 16) && forallb is_digit s
                     then Some (MState 16 [] []) else None).
  { unfold match_at, re_16digits, digit. cbn [seqs].
    rewrite matcher_Seq, matcher_Bol. cbn [pos Nat.eqb flat_map]. rewrite app_nil_r.
    rewrite matcher_Seq, matcher_Rep_Chr by (intros m [= <-]; lia).
    cbn [bound]. pose proof (run_le is_digit s) as Hle.
    destruct (Nat.le_gt_cases 16 (run is_digit s)) as [Hr|Hr].
    - rewrite Nat.min_r by lia. rewrite downto_same. cbn [map flat_map].
      rewrite app_nil_r, matcher_Eol. unfold adv. cbn [rest pos caps].
      destruct (Nat.eq_dec (List.length s) 16) as [E|E].
      + assert (Hall : forallb is_digit s = true) by (apply run_all; lia).
        rewrite Hall, E. cbn [Nat.eqb andb].
        rewrite <- E, skipn_all. reflexivity.
      + pose proof E as E'. apply Nat.eqb_neq in E'. rewrite E'. cbn [andb].
        destruct (skipn 16 s) eqn:Es; [|reflexivity].
        apply (f_equal (@List.length _)) in Es. rewrite length_skipn in Es.
        cbn in Es. lia.
    - rewrite Nat.min_l by lia. rewrite downto_lt by lia. cbn [map flat_map hd_error].
      destruct (Nat.eq_dec (List.length s) 16) as [E|E].
      + destruct (forallb is_digit s) eqn:Hall.
        * apply run_all in Hall. lia.
        * now rewrite andb_false_r.
      + apply Nat.eqb_neq in E. now rewrite E. }
  destruct s as [|c t]; cbn [exec_from]; rewrite Hfirst.
  - reflexivity.
  - destruct ((List.length (c :: t) =? 16) && forallb is_digit (c :: t)); [reflexivity|].
    now rewrite Hlater.
Qed.

Lemma is_nik_spec nik :
  is_nik nik = (List.length nik =? 16) && forallb is_digit nik.
Proof. unfold is_nik. rewrite test_16digits. now destruct (List.length nik =? 16). Qed.

(** * [extractNIK]: the shape of the result *)

Lemma method2_loop_nik l nik :
  method2_loop l = Some nik ->
  List.length nik = 16 /\ forallb is_digit nik = true.
Proof.
  induction l as [|w l IH]; cbn [method2_loop]; [discriminate|].
  rewrite is_nik_spec.
  destruct ((List.length (replace_all re_nondigit [] w) =? 16)
            && forallb is_digit (replace_all re_nondigit [] w)) eqn:E.
  - intros [= <-]. apply andb_true_iff in E. destruct E as [E1 E2].
    apply Nat.eqb_eq in E1. auto.
  - destruct (16 <? List.length (replace_all re_nondigit [] w)); [|exact IH].
    rewrite test_16digits.
    destruct ((List.length (substring0 16 (replace_all re_nondigit [] w)) =? 16)
              && forallb is_digit (substring0 16 (replace_all re_nondigit [] w))) eqn:E'.
    + intros [= <-]. apply andb_true_iff in E'. destruct E' as [E1 E2].
      apply Nat.eqb_eq in E1. auto.
    + exact IH.
Qed.

Lemma method3_loop_nik l nik :
  method3_loop l = Some nik ->
  List.length nik = 16 /\ forallb is_digit nik = true.
Proof.
  induction l as [|w l IH]; cbn [method3_loop]; [discriminate|].
  rewrite is_nik_spec.
  destruct ((List.length (replace_all re_nondigit [] w) =? 16)
            && forallb is_digit (replace_all re_nondigit [] w)) eqn:E.
  - intros [= <-]. apply andb_true_iff in E. destruct E as [E1 E2].
    apply Nat.eqb_eq in E1. auto.
  - exact IH.
Qed.

Lemma method1_nik clean nik :
  method1 clean = Some nik ->
  List.length nik = 16 /\ forallb is_digit nik = true.
Proof.
  unfold method1. destruct (match_first re_nik_label clean) as [mr|]; [|discriminate].
  destruct (m1 mr) as [raw|]; [|discriminate].
  rewrite is_nik_spec.
  destruct ((List.length (replace_all re_sepdash [] raw) =? 16)
            && forallb is_digit (replace_all re_sepdash [] raw)) eqn:E; [|discriminate].
  intros [= <-]. apply andb_true_iff in E. destruct E as [E1 E2].
  apply Nat.eqb_eq in E1. auto.
Qed.

(** C1. Whatever the input text, an identity number returned by [extractNIK]
    is made of exactly 16 code units, each of them an ASCII digit (so it
    holds no separator). *)
Theorem extractNIK_sixteen_digits (text nik : jsstring) :
  extractNIK text = Some nik ->
  List.length nik = 16 /\ forallb is_digit nik = true.
Proof.
  unfold extractNIK. destruct text as [|c t]; [discriminate|].
  cbv zeta.
  destruct (method1 (cleanText (c :: t))) as [n1|] eqn:E1.
  - intros [= <-]. eapply method1_nik; eauto.
  - destruct (method2 (cleanText (c :: t))) as [n2|] eqn:E2.
    + intros [= <-]. unfold method2 in E2.
      destruct (match_all re_digit_runs (cleanText (c :: t))); [|discriminate].
      eapply method2_loop_nik; eauto.
    + unfold method3. apply method3_loop_nik.
Qed.

Lemma extractNIK_sixteen_digits_witness :
  List.length (js "3201014503900021") = 16
  /\ forallb is_digit (js "3201014503900021") = true.
Proof.
  apply (extractNIK_sixteen_digits (js "KTP NIK: 3201 0145 0390 0021 Nama")).
  vm_compute. reflexivity.
Defined.

(** * Claims settled by evaluation *)

(** C9. On ["Nama : John Doe\nTempat Lahir: Jakarta"] (with a line feed)
    [extractKTPInfo] yields the name ["John Doe"]: group 1 stops at the end
    of the line, before the next label "Tempat", and the result is trimmed. *)
Theorem extractKTPInfo_john_doe :
  extractKTPInfo (js "Nama : John Doe" ++ LF ++ js "Tempat Lahir: Jakarta")
  = KtpInfo (Some (js "John Doe"))
  /\ match_first re_nama (js "Nama : John Doe" ++ LF ++ js "Tempat Lahir: Jakarta")
     = Some (MatchResult (js "Nama : John Doe") (Some (js "John Doe"))).
Proof. split; vm_compute; reflexivity. Qed.

(** C10. The labelled pattern asks for no word boundary before the label:
    in the text below the letters "nik" occur only at index 28, as the tail
    of the word "elektronik", a different 16-digit number comes first, and
    [extractNIK] returns the digit groups that follow "elektronik". *)
Theorem extractNIK_embedded_label :
  exists text : jsstring,
    text = js "1234567890123456 KTP " ++ js "elektronik" ++ js " 3201 0145 0390 0021"
    /\ label_positions 0 text = [28]
    /\ extractNIK text = Some (js "3201014503900021")
    /\ js "3201014503900021" <> js "1234567890123456".
Proof.
  eexists. split; [reflexivity|]. split; [vm_compute; reflexivity|].
  split; [vm_compute; reflexivity | vm_compute; discriminate].
Qed.

(** C2, as stated, fails: the number after the label is followed by a space
    and three more digits, the eight digit groups of the pattern take all 19
    digits, the guard rejects them, and the digit-run scan returns the
    number that comes first in the text. *)
Lemma labelled_number_not_always_returned :
  ~ (forall pre lab sep n post m : jsstring,
        labelled lab sep n post ->
        is_number16 m = true -> m <> n ->
        occurs m pre \/ occurs m post ->
        extractNIK (pre ++ lab ++ sep ++ n ++ post) = Some n).
Proof.
  intros H.
  specialize (H (js "9999999999999999 ") (js "NIK") (js ": ")
                (js "3201014503900021") (js " 123") (js "9999999999999999")).
  assert (E : extractNIK (js "9999999999999999 " ++ js "NIK" ++ js ": "
                          ++ js "3201014503900021" ++ js " 123")
              = Some (js "9999999999999999")) by (vm_compute; reflexivity).
  rewrite E in H. discriminate H.
  - repeat split; vm_compute; reflexivity.
  - vm_compute; reflexivity.
  - vm_compute; discriminate.
  - left. exists [], (js " "). reflexivity.
Qed.

(** The same happens when the label occurs earlier in the text, followed by
    fewer digits: only the first match of the labelled pattern is looked
    at. *)
Lemma earlier_label_hides_number :
  extractNIK (js "9999999999999999 NIK 12345678 NIK: 3201014503900021")
  = Some (js "9999999999999999").
Proof. vm_compute. reflexivity. Qed.

(** C3, as stated, fails: in the text below no two digits belong to one run
    (a letter stands between any two), yet the token scan strips the letters
    of the only token and returns its 16 digits. *)
Lemma fragmented_digits_returned :
  ~ (forall text : jsstring,
        max_single_run text < 15 -> extractNIK text = None).
Proof.
  intros H. specialize (H (js "1a2b3c4d5e6f7g8h1a2b3c4d5e6f7g8h")).
  assert (E : extractNIK (js "1a2b3c4d5e6f7g8h1a2b3c4d5e6f7g8h")
              = Some (js "1234567812345678")) by (vm_compute; reflexivity).
  rewrite E in H. discriminate H.
  vm_compute. lia.
Qed.

(** It also fails on digit groups that two spaces separate: no run with
    single separators has more than 4 digits, but the normalisation leaves
    one space between the groups and the digit-run scan returns the 16
    digits. Runs must be taken with any number of separators. *)
Lemma double_spaced_digits_returned :
  max_single_run (js "3201  0145  0390  0021") = 4
  /\ has_token16 (js "3201  0145  0390  0021") = false
  /\ extractNIK (js "3201  0145  0390  0021") = Some (js "3201014503900021").
Proof. repeat split; vm_compute; reflexivity. Qed.

(** C4, as stated, fails: the substring is there, but an earlier label with
    its own 16 digits is matched first. *)
Lemma scenario_substring_not_enough :
  ~ (forall pre post : jsstring,
        extractNIK (pre ++ js "NIK: 3201 0145 0390 0021" ++ post)
        = Some (js "3201014503900021")).
Proof.
  intros H. specialize (H (js "NIK 1111111111111111 ") []).
  assert (E : extractNIK (js "NIK 1111111111111111 " ++ js "NIK: 3201 0145 0390 0021" ++ [])
              = Some (js "1111111111111111")) by (vm_compute; reflexivity).
  rewrite E in H. discriminate H.
Qed.

(** The same happens when a digit follows the substring: the eight groups
    take 17 digits, the guard rejects them, and the digit-run scan returns
    the number that comes first. *)
Lemma scenario_followed_by_digit :
  extractNIK (js "9999999999999999 " ++ js "NIK: 3201 0145 0390 0021" ++ js "9")
  = Some (js "9999999999999999").
Proof. vm_compute. reflexivity. Qed.

(** * [compressImage] *)

Section CompressImageProperties.

Variable sharp : buffer -> Z -> Z -> result buffer.

Lemma loop_body_params st st' k :
  loop_body sharp st = Ok st' -> params st = schedule k ->
  params st' = schedule (S k).
Proof.
  unfold loop_body, params, schedule.
  destruct (sharp (compressed st) (maxDimension st) (quality st)); [|discriminate].
  intros [= <-] Hp. cbn [attempts quality maxDimension].
  pose proof (f_equal (fun x => fst (fst x)) Hp) as Ha.
  pose proof (f_equal (fun x => snd (fst x)) Hp) as Hq.
  pose proof (f_equal snd Hp) as Hd.
  cbn [fst snd] in Ha, Hq, Hd.
  rewrite Ha, Hq, Hd. cbn [Nat.iter]. f_equal. f_equal. lia.
Qed.

Lemma loop_cond_attempts st :
  loop_cond st = true -> attempts st < maxAttempts.
Proof.
  unfold loop_cond. intros H. apply andb_true_iff in H.
  destruct H as [_ H]. now apply Nat.ltb_lt in H.
Qed.

(** With fuel for the attempts that remain the loop ends, and the body is
    entered with the scheduled parameters, at most [maxAttempts] times. *)
Lemma loop_runs : forall fuel k st,
  params st = schedule k -> k <= maxAttempts -> maxAttempts <= fuel + k ->
  while_loop sharp fuel st <> None
  /\ map params (entered sharp fuel st)
     = map schedule (seq k (List.length (entered sharp fuel st)))
  /\ List.length (entered sharp fuel st) + k <= maxAttempts.
Proof.
  induction fuel as [|fuel IH]; intros k st Hp Hk Hf;
    cbn [while_loop entered]; destruct (loop_cond st) eqn:Hc.
  - apply loop_cond_attempts in Hc.
    assert (Ha : attempts st = k)
      by (exact (f_equal (fun x => fst (fst x)) Hp)).
    lia.
  - cbn. repeat split; [discriminate | exact Hk].
  - pose proof (loop_cond_attempts _ Hc) as Hlt.
    assert (Ha : attempts st = k)
      by (exact (f_equal (fun x => fst (fst x)) Hp)).
    destruct (loop_body sharp st) as [st'|] eqn:Hb.
    + destruct (IH (S k) st') as (H1 & H2 & H3);
        [eapply loop_body_params; eauto | lia | lia |].
      split; [exact H1|]. cbn [map List.length seq]. rewrite H2, Hp.
      split; [reflexivity | lia].
    + cbn. rewrite Hp. repeat split; [discriminate | lia].
  - cbn. repeat split; [discriminate | exact Hk].
Qed.

(** The schedule of the five attempts, and the values left after the last. *)
Lemma schedule_values :
  map schedule (seq 0 6)
  = [(0, 80%Z, 2000%Z); (1, 70%Z, 1800%Z); (2, 60%Z, 1620%Z);
     (3, 50%Z, 1458%Z); (4, 40%Z, 1312%Z); (5, 30%Z, 1180%Z)].
Proof. reflexivity. Qed.

Lemma schedule_strict k :
  k < maxAttempts ->
  let '(a, q, d) := schedule k in
  let '(a', q', d') := schedule (S k) in
  a' = S a /\ (q' = q - 10)%Z /\ (q' < q)%Z
  /\ d' = shrink d /\ (0 < d' < d)%Z.
Proof.
  unfold maxAttempts. intros H.
  destruct k as [|[|[|[|[|k]]]]]; [| | | | |lia];
    (split; [reflexivity|]); (split; [reflexivity|]);
    (split; [reflexivity|]); (split; [reflexivity|]); split; reflexivity.
Qed.

(** With fuel for [maxAttempts] executions of the body the function returns
    a buffer. *)
Lemma compressImage_returns (fuel : nat) (imageBuffer : buffer) (mimeType : jsstring) :
  maxAttempts <= fuel ->
  exists b, compressImage sharp fuel imageBuffer mimeType = Some (Ok b).
Proof.
  intros Hf.
  destruct (loop_runs fuel 0 (initial imageBuffer))
    as (H1 & _ & _); [reflexivity | unfold maxAttempts; lia | lia |].
  unfold compressImage, try_block.
  destruct (while_loop sharp fuel (initial imageBuffer)) as [[st|]|];
    [eexists; reflexivity | eexists; reflexivity | contradiction].
Qed.

(** C6. Given fuel for [maxAttempts] = 5 executions of the body, the loop of
    [compressImage] ends and the function returns a buffer for every
    encoder, input buffer and MIME type. The body is entered at most 5
    times; on its [k]+1-th entry [attempts] is [k], [quality] is [80 - 10k]
    and [maxDimension] is [2000] shrunk [k] times; from one entry to the
    next [attempts] grows by one, [quality] drops by 10 and [maxDimension]
    becomes the floor of nine tenths of itself, which is strictly smaller. *)
Theorem compressImage_terminates (fuel : nat) (imageBuffer : buffer) (mimeType : jsstring) :
  maxAttempts <= fuel ->
  (exists b, compressImage sharp fuel imageBuffer mimeType = Some (Ok b))
  /\ List.length (entered sharp fuel (initial imageBuffer)) <= 5
  /\ map params (entered sharp fuel (initial imageBuffer))
     = map schedule (seq 0 (List.length (entered sharp fuel (initial imageBuffer))))
  /\ (forall k, k < maxAttempts ->
        let '(a, q, d) := schedule k in
        let '(a', q', d') := schedule (S k) in
        a' = S a /\ (q' = q - 10)%Z /\ (q' < q)%Z
        /\ d' = shrink d /\ (0 < d' < d)%Z).
Proof.
  intros Hf.
  destruct (loop_runs fuel 0 (initial imageBuffer))
    as (H1 & H2 & H3); [reflexivity | unfold maxAttempts; lia | lia |].
  split; [|split; [|split]].
  - now apply compressImage_returns.
  - unfold maxAttempts in H3. lia.
  - exact H2.
  - exact schedule_strict.
Qed.

Lemma entered_throw : forall fuel st0 st,
  In st (entered sharp fuel st0) ->
  sharp (compressed st) (maxDimension st) (quality st) = Throw ->
  while_loop sharp fuel st0 = Some Throw.
Proof.
  induction fuel as [|fuel IH]; intros st0 st Hin Hs;
    cbn [entered while_loop] in *; destruct (loop_cond st0); try destruct Hin.
  - subst st0. unfold loop_body. now rewrite Hs.
  - destruct (loop_body sharp st0) as [st1|]; [|reflexivity].
    eapply IH; eauto.
Qed.

(** C8. [compressImage] does not raise: with fuel for [maxAttempts]
    executions of the body it returns a buffer for every encoder and input,
    and whenever the encoder throws in some iteration the buffer returned is
    the input buffer itself. *)
Theorem compressImage_never_raises (fuel : nat) (imageBuffer : buffer) (mimeType : jsstring) :
  maxAttempts <= fuel ->
  (exists b, compressImage sharp fuel imageBuffer mimeType = Some (Ok b))
  /\ ((exists st, In st (entered sharp fuel (initial imageBuffer))
                  /\ sharp (compressed st) (maxDimension st) (quality st) = Throw) ->
      compressImage sharp fuel imageBuffer mimeType = Some (Ok imageBuffer)).
Proof.
  intros Hf. split.
  - apply (compressImage_returns fuel imageBuffer mimeType Hf).
  - intros (st & Hin & Hs). unfold compressImage, try_block.
    now rewrite (entered_throw fuel _ st Hin Hs).
Qed.

Lemma working_nonincreasing :
  (forall b d q b', sharp b d q = Ok b' -> (byteLength b' <= byteLength b)%N) ->
  forall fuel st, nonincreasing (map byteLength (working sharp fuel st)).
Proof.
  intros Hs. induction fuel as [|fuel IH]; intros st; cbn [working];
    destruct (loop_cond st); try exact I.
  destruct (loop_body sharp st) as [st'|] eqn:Hb; [|exact I].
  specialize (IH st'). destruct fuel as [|fuel'];
    cbn [working map nonincreasing] in *; (split; [|exact IH]);
    unfold loop_body in Hb;
    destruct (sharp (compressed st) (maxDimension st) (quality st)) eqn:E;
    try discriminate; injection Hb as <-; cbn [compressed]; eapply Hs; eauto.
Qed.

Lemma working_bounded :
  (forall b d q b', sharp b d q = Ok b' -> (byteLength b' <= byteLength b)%N) ->
  forall fuel st,
    Forall (fun w => (byteLength w <= byteLength (compressed st))%N)
           (working sharp fuel st).
Proof.
  intros Hs. induction fuel as [|fuel IH]; intros st; cbn [working];
    (constructor; [lia|]); destruct (loop_cond st); try constructor.
  destruct (loop_body sharp st) as [st'|] eqn:Hb; [|constructor].
  unfold loop_body in Hb.
  destruct (sharp (compressed st) (maxDimension st) (quality st)) eqn:E;
    [|discriminate].
  injection Hb as <-. specialize (IH (LoopState b (quality st - 10)%Z
                                      (shrink (maxDimension st)) (S (attempts st)))).
  cbn [compressed] in IH. apply Hs in E.
  eapply Forall_impl; [|exact IH]. cbn beta. intros w Hw. lia.
Qed.

Lemma while_loop_working : forall fuel st st',
  while_loop sharp fuel st = Some (Ok st') ->
  In (compressed st') (working sharp fuel st).
Proof.
  induction fuel as [|fuel IH]; intros st st'; cbn [while_loop working];
    destruct (loop_cond st); try discriminate.
  - intros [= <-]. left. reflexivity.
  - destruct (loop_body sharp st) as [st1|]; [|discriminate].
    intros H. right. now apply IH.
  - intros [= <-]. left. reflexivity.
Qed.

(** C7, amended. If the encoder never returns a buffer larger than the one
    it was given, then the successive values of the working buffer have
    non-increasing sizes, and the buffer returned is one of them (or the
    input itself after a failure) and is no larger than the input. The loop
    does not compare sizes: it keeps whatever the encoder returns. *)
Theorem compressImage_sizes (fuel : nat) (imageBuffer : buffer) (mimeType : jsstring) :
  (forall b d q b', sharp b d q = Ok b' -> (byteLength b' <= byteLength b)%N) ->
  maxAttempts <= fuel ->
  nonincreasing (map byteLength (working sharp fuel (initial imageBuffer)))
  /\ exists b, compressImage sharp fuel imageBuffer mimeType = Some (Ok b)
               /\ In b (working sharp fuel (initial imageBuffer))
               /\ (byteLength b <= byteLength imageBuffer)%N.
Proof.
  intros Hs Hf. split; [now apply working_nonincreasing|].
  destruct (compressImage_returns fuel imageBuffer mimeType Hf) as (b & Hb).
  exists b. split; [exact Hb|].
  assert (Hin : In b (working sharp fuel (initial imageBuffer))).
  { unfold compressImage, try_block in Hb.
    destruct (while_loop sharp fuel (initial imageBuffer)) as [[st|]|] eqn:E;
      [| |discriminate]; injection Hb as <-.
    - now apply while_loop_working.
    - destruct fuel; cbn [working]; left; reflexivity. }
  split; [exact Hin|].
  pose proof (working_bounded Hs fuel (initial imageBuffer)) as Hall.
  rewrite Forall_forall in Hall. apply (Hall b Hin).
Qed.

End CompressImageProperties.

Lemma compressImage_terminates_witness :
  (exists b, compressImage halving_encoder 5 oversized (js "image/jpeg") = Some (Ok b))
  /\ List.length (entered halving_encoder 5 (initial oversized)) <= 5
  /\ map params (entered halving_encoder 5 (initial oversized))
     = map schedule (seq 0 (List.length (entered halving_encoder 5 (initial oversized))))
  /\ (forall k, k < maxAttempts ->
        let '(a, q, d) := schedule k in
        let '(a', q', d') := schedule (S k) in
        a' = S a /\ (q' = q - 10)%Z /\ (q' < q)%Z
        /\ d' = shrink d /\ (0 < d' < d)%Z).
Proof.
  apply (compressImage_terminates halving_encoder 5).
  unfold maxAttempts. lia.
Defined.

Lemma compressImage_never_raises_witness :
  (exists b, compressImage failing_encoder 5 oversized (js "image/png") = Some (Ok b))
  /\ ((exists st, In st (entered failing_encoder 5 (initial oversized))
                  /\ failing_encoder (compressed st) (maxDimension st) (quality st) = Throw) ->
      compressImage failing_encoder 5 oversized (js "image/png") = Some (Ok oversized)).
Proof.
  apply (compressImage_never_raises failing_encoder 5).
  unfold maxAttempts. lia.
Defined.

Lemma halving_encoder_shrinks b d q b' :
  halving_encoder b d q = Ok b' -> (byteLength b' <= byteLength b)%N.
Proof.
  unfold halving_encoder, byteLength. intros [= <-].
  rewrite length_firstn. lia.
Qed.

Lemma compressImage_sizes_witness :
  nonincreasing (map byteLength (working halving_encoder 5 (initial oversized)))
  /\ exists b, compressImage halving_encoder 5 oversized (js "image/jpeg") = Some (Ok b)
               /\ In b (working halving_encoder 5 (initial oversized))
               /\ (byteLength b <= byteLength oversized)%N.
Proof.
  apply (compressImage_sizes halving_encoder 5).
  - exact halving_encoder_shrinks.
  - unfold maxAttempts. lia.
Defined.

(** C7, as stated, fails: nothing in the loop keeps the encoder from
    returning more bytes than it was given. With an encoder that adds one
    byte the buffer grows at each of the five attempts and the result is
    larger than the input. *)
Lemma compressImage_can_grow :
  ~ (forall (sharp : buffer -> Z -> Z -> result buffer) (imageBuffer b : buffer)
            (mimeType : jsstring),
        compressImage sharp 5 imageBuffer mimeType = Some (Ok b) ->
        nonincreasing (map byteLength (working sharp 5 (initial imageBuffer)))
        /\ (byteLength b <= byteLength imageBuffer)%N).
Proof.
  intros H.
  assert (E : match compressImage padding_encoder 5 oversized [] with
              | Some (Ok b) => byteLength b
              | _ => 0%N
              end = 1048582%N) by (vm_compute; reflexivity).
  destruct (compressImage padding_encoder 5 oversized []) as [[b|]|] eqn:Eb;
    try discriminate E.
  apply H in Eb. destruct Eb as [_ Hle]. rewrite E in Hle.
  assert (Eo : byteLength oversized = 1048577%N) by (vm_compute; reflexivity).
  rewrite Eo in Hle. lia.
Qed.

(** * [extractNIK]: the three strategies *)

(** ** The normalisation in one pass *)

Lemma match_at_Chr p q s :
  match_at (Chr p) q s =
  match s with
  | c :: t => if p c then Some (MState (S q) t []) else None
  | [] => None
  end.
Proof.
  unfold match_at. rewrite matcher_Chr. cbn [rest pos caps].
  destruct s as [|c t]; [reflexivity|]. now destruct (p c).
Qed.

Lemma match_at_Plus p q s :
  match_at (Plus (Chr p)) q s =
  match run p s with
  | O => None
  | S n => Some (MState (q + S n) (skipn (S n) s) [])
  end.
Proof.
  unfold match_at, Plus. rewrite matcher_Rep_Chr by (intros m [=]).
  cbn [bound]. destruct (run p s) as [|n].
  - rewrite downto_lt by lia. reflexivity.
  - rewrite downto_cons by lia. reflexivity.
Qed.

Lemma gscan_Chr p by_ : forall s q,
  flat_map (fun x => match x with Matched _ => by_ | Kept c => [c] end)
           (gscan (Chr p) q 0 s)
  = flat_map (fun c => if p c then by_ else [c]) s.
Proof.
  induction s as [|c t IH]; intros q; cbn [gscan]; rewrite match_at_Chr.
  - reflexivity.
  - destruct (p c) eqn:E; cbn [pos].
    + replace (S q - q) with 1 by lia. cbn [flat_map]. rewrite E, IH. reflexivity.
    + cbn [flat_map]. rewrite E, IH. reflexivity.
Qed.

(** Replacing the characters of a class one by one. *)
Lemma replace_all_Chr p by_ s :
  replace_all (Chr p) by_ s = flat_map (fun c => if p c then by_ else [c]) s.
Proof. apply gscan_Chr. Qed.

Lemma replace_all_Chr_nil p s :
  replace_all (Chr p) [] s = filter (fun c => negb (p c)) s.
Proof.
  rewrite replace_all_Chr. induction s as [|c t IH]; cbn; [reflexivity|].
  destruct (p c); cbn; now rewrite IH.
Qed.

(** Replacing each maximal run of a class. *)
Lemma gscan_Plus p by_ : forall s q,
  flat_map (fun x => match x with Matched _ => by_ | Kept c => [c] end)
           (gscan (Plus (Chr p)) q 0 s) = squeeze p by_ false s
  /\ flat_map (fun x => match x with Matched _ => by_ | Kept c => [c] end)
              (gscan (Plus (Chr p)) q (run p s) s) = squeeze p by_ true s.
Proof.
  induction s as [|c t IH]; intros q.
  - cbn [run gscan]. rewrite match_at_Plus. cbn. auto.
  - assert (H0 : flat_map (fun x => match x with Matched _ => by_ | Kept c => [c] end)
                   (gscan (Plus (Chr p)) q 0 (c :: t)) = squeeze p by_ false (c :: t)).
    { cbn [gscan squeeze]. rewrite match_at_Plus. cbn [run].
      destruct (p c) eqn:E.
      - cbn [pos]. replace (q + S (run p t) - q) with (S (run p t)) by lia.
        cbn [flat_map]. f_equal. apply (IH (S q)).
      - cbn [flat_map]. cbn [app]. f_equal. apply (IH (S q)). }
    split; [exact H0|].
    cbn [run]. destruct (p c) eqn:E.
    + cbn [gscan squeeze]. rewrite E. cbn [app]. apply (IH (S q)).
    + rewrite H0. cbn [squeeze]. now rewrite E.
Qed.

Lemma replace_all_Plus p by_ s :
  replace_all (Plus (Chr p)) by_ s = squeeze p by_ false s.
Proof. unfold replace_all. apply (gscan_Plus p by_ s 0). Qed.

Lemma is_newline_space c : is_newline c = true -> is_space c = true.
Proof.
  unfold is_newline, is_space. intros H. apply orb_true_iff in H.
  destruct H as [H|H]; apply N.eqb_eq in H; subst; reflexivity.
Qed.

Lemma squeeze_newline_space : forall s b,
  squeeze is_space space_str b (squeeze is_newline space_str false s)
  = squeeze is_space space_str b s
  /\ squeeze is_space space_str true (squeeze is_newline space_str true s)
     = squeeze is_space space_str true s.
Proof.
  induction s as [|c t IH]; intros b; [split; reflexivity|].
  cbn [squeeze]. destruct (is_newline c) eqn:En.
  - rewrite (is_newline_space _ En). cbn [space_str js list_ascii_of_string map app].
    cbn [squeeze]. change (is_space (N_of_ascii " ")) with true. cbv iota.
    split.
    + f_equal. apply (IH true).
    + apply (IH true).
  - cbn [squeeze]. destruct (is_space c).
    + split; f_equal; apply (IH true).
    + split; f_equal; apply (IH false).
Qed.

(** The normalisation in one pass: whitespace runs become one space, the
    ends are trimmed. *)
Lemma cleanText_spec text :
  cleanText text = trim (squeeze is_space space_str false text).
Proof.
  unfold cleanText, re_spaces, re_newlines, space.
  rewrite !replace_all_Plus. f_equal. apply squeeze_newline_space.
Qed.

(** ** Facts on the character classes *)

Ltac class_cases H :=
  repeat match type of H with
         | (_ || _) = true => apply orb_true_iff in H; destruct H as [H|H]
         | (_ && _) = true =>
             let H' := fresh H in
             apply andb_true_iff in H; destruct H as [H H']
         | negb _ = true => apply negb_true_iff in H
         end.

Ltac class_arith :=
  repeat match goal with
         | H : (_ <=? _)%N = true |- _ => apply N.leb_le in H
         | H : (_ <=? _)%N = false |- _ => apply N.leb_gt in H
         | H : (_ =? _)%N = true |- _ => apply N.eqb_eq in H
         | H : (_ =? _)%N = false |- _ => apply N.eqb_neq in H
         end;
  try lia.

Lemma digit_range c : is_digit c = true <-> (48 <= c <= 57)%N.
Proof.
  unfold is_digit. rewrite andb_true_iff, !N.leb_le. tauto.
Qed.

Lemma digit_not_space c : is_digit c = true -> is_space c = false.
Proof.
  intros Hd. apply digit_range in Hd. apply not_true_is_false. intros H.
  unfold is_space in H. class_cases H; class_arith.
Qed.

Lemma digit_not_sepdash c : is_digit c = true -> is_sepdash c = false.
Proof.
  intros Hd. unfold is_sepdash. rewrite (digit_not_space _ Hd).
  apply digit_range in Hd. cbn. apply N.eqb_neq. lia.
Qed.

Lemma digit_not_labelsep c : is_digit c = true -> is_labelsep c = false.
Proof.
  intros Hd. unfold is_labelsep. rewrite (digit_not_space _ Hd).
  apply digit_range in Hd.
  replace (c =? 58)%N with false by (symmetry; apply N.eqb_neq; lia).
  replace (c =? 46)%N with false by (symmetry; apply N.eqb_neq; lia).
  cbn. apply N.eqb_neq. lia.
Qed.

Lemma space_sepdash c : is_space c = true -> is_sepdash c = true.
Proof. unfold is_sepdash. now intros ->. Qed.

(** ** A quantifier followed by a pattern *)

Lemma flat_map_flat_map (A B C : Type) (f : A -> list B) (g : B -> list C) l :
  flat_map g (flat_map f l) = flat_map (fun x => flat_map g (f x)) l.
Proof.
  induction l as [|a l IH]; cbn; [reflexivity|].
  now rewrite flat_map_app, IH.
Qed.

Lemma flat_map_nil_In (A B : Type) (f : A -> list B) l :
  (forall a, In a l -> f a = []) -> flat_map f l = [].
Proof.
  induction l as [|a l IH]; intros H; cbn; [reflexivity|].
  rewrite (H a) by now left. apply IH. intros b Hb. apply H. now right.
Qed.

(** The quantifier equation with the rest of the pattern as continuation. *)
Lemma matcher_Seq_Rep min max a b s :
  matcher (Seq (Rep min max a) b) s =
  match max with
  | Some O => matcher b s
  | _ =>
      flat_map
        (fun s' =>
           if (min =? 0) && (pos s' =? pos s) then []
           else matcher (Seq (Rep (Nat.pred min) (option_map Nat.pred max) a) b) s')
        (matcher a (clear_caps (groups a) s))
      ++ (if min =? 0 then matcher b s else [])
  end.
Proof.
  rewrite matcher_Seq, matcher_Rep.
  assert (Hgen :
    flat_map (matcher b)
      (flat_map (fun s' => if (min =? 0) && (pos s' =? pos s) then []
                           else matcher (Rep (Nat.pred min) (option_map Nat.pred max) a) s')
                (matcher a (clear_caps (groups a) s))
       ++ (if min =? 0 then [s] else []))
    = flat_map (fun s' => if (min =? 0) && (pos s' =? pos s) then []
                          else matcher (Seq (Rep (Nat.pred min) (option_map Nat.pred max) a) b) s')
               (matcher a (clear_caps (groups a) s))
      ++ (if min =? 0 then matcher b s else [])).
  { rewrite flat_map_app, flat_map_flat_map. f_equal.
    - apply flat_map_ext. intros s'.
      destruct ((min =? 0) && (pos s' =? pos s)); reflexivity.
    - destruct (min =? 0); cbn; [apply app_nil_r | reflexivity]. }
  destruct max as [[|k]|]; [cbn; apply app_nil_r | exact Hgen | exact Hgen].
Qed.

(** ** The digit-run pattern *)

Lemma run_here_0_head s :
  run_here s = 0 -> starts_with_digit s = false.
Proof.
  destruct s as [|c t]; cbn; [reflexivity|]. destruct (is_digit c); [discriminate | reflexivity].
Qed.

Lemma run_here_0_skip s j :
  run_here s = 0 -> j <= run is_sepdash s -> run_here (skipn j s) = 0.
Proof.
  revert s. induction j as [|j IH]; intros s H Hj; [exact H|].
  destruct s as [|c t]; [reflexivity|]. cbn in *.
  destruct (is_digit c) eqn:Ed; [discriminate|].
  destruct (is_sepdash c) eqn:Es; [|lia]. apply IH; [exact H | lia].
Qed.

Lemma matcher_digit_fail s :
  starts_with_digit (rest s) = false -> matcher digit s = [].
Proof.
  unfold digit. rewrite matcher_Chr. destruct (rest s) as [|c t]; [reflexivity|].
  cbn. now intros ->.
Qed.

Lemma matcher_run_body_fail s :
  starts_with_digit (rest s) = false -> matcher run_body s = [].
Proof.
  intros H. unfold run_body. rewrite matcher_Group, matcher_Seq.
  now rewrite (matcher_digit_fail _ H).
Qed.

(** The states reached by one iteration of the repeated group on a digit
    followed by [t]: after the digit and [j] separators, for [j] from the
    length of the separator run down to 0. *)
Lemma matcher_run_body_digit n d t cs :
  is_digit d = true ->
  matcher run_body (MState n (d :: t) cs) =
  map (fun j => close_group 1 (MState n (d :: t) cs)
                            (MState (S n + j) (skipn j t) cs))
      (downto (run is_sepdash t) 0).
Proof.
  intros Hd. unfold run_body. rewrite matcher_Group, matcher_Seq.
  unfold digit at 1. rewrite matcher_Chr. cbn [rest pos caps]. rewrite Hd.
  cbn [flat_map]. rewrite app_nil_r. unfold Star, sepdash.
  rewrite matcher_Rep_Chr by (intros m [=]). cbn [bound]. rewrite map_map.
  reflexivity.
Qed.

Lemma digit_runs_fail min s :
  starts_with_digit (rest s) = false ->
  matcher (Seq (Rep min None run_body) digit) s = [].
Proof.
  intros H. rewrite matcher_Seq_Rep.
  rewrite matcher_run_body_fail by exact H. cbn [flat_map app].
  rewrite matcher_digit_fail by exact H. now destruct (min =? 0).
Qed.

(** On a run of digits followed by no further digit of the same run, the
    digit-run pattern first matches the whole run, provided the run has more
    than [min] digits; otherwise it does not match. *)
Lemma digit_runs_first B :
  run_here B = 0 ->
  forall D min n cs,
    forallb is_digit D = true ->
    (min < List.length D ->
     exists cs' tl,
       matcher (Seq (Rep min None run_body) digit) (MState n (D ++ B) cs)
       = MState (n + List.length D) B cs' :: tl)
    /\ (List.length D <= min ->
        matcher (Seq (Rep min None run_body) digit) (MState n (D ++ B) cs) = []).
Proof.
  intros HB. induction D as [|d D IH]; intros min n cs HD.
  - split; [cbn; lia|]. intros _. apply digit_runs_fail.
    now apply run_here_0_head.
  - cbn [forallb] in HD. apply andb_true_iff in HD. destruct HD as [Hd HD].
    rewrite matcher_Seq_Rep. cbn [app].
    change (clear_caps (groups run_body) (MState n (d :: D ++ B) cs))
      with (MState n (d :: D ++ B)
                   (filter (fun e => negb (existsb (Nat.eqb (fst e)) [1])) cs)).
    rewrite matcher_run_body_digit by exact Hd.
    destruct D as [|d2 D].
    + (* last digit of the run *)
      cbn [app List.length].
      rewrite flat_map_nil_In.
      2:{ intros s' Hs'. apply in_map_iff in Hs'. destruct Hs' as (j & <- & Hj).
          unfold close_group. cbn [pos rest].
          replace (S n + j =? n) with false by (symmetry; apply Nat.eqb_neq; lia).
          rewrite andb_false_r. apply digit_runs_fail. cbn [rest].
          apply run_here_0_head, run_here_0_skip; [exact HB|].
          unfold downto in Hj. apply in_rev, in_seq in Hj. lia. }
      cbn [app]. split.
      * intros Hmin. assert (min = 0) by lia. subst min. cbn [Nat.eqb].
        unfold digit. rewrite matcher_Chr. cbn [rest pos caps]. rewrite Hd.
        exists cs, []. f_equal. f_equal. lia.
      * intros Hmin. destruct min; [lia | reflexivity].
    + (* more digits follow *)
      pose proof HD as HD'. cbn [forallb] in HD'. apply andb_true_iff in HD'.
      destruct HD' as [Hd2 _].
      cbn [app run]. rewrite (digit_not_sepdash _ Hd2).
      rewrite downto_same. cbn [map flat_map skipn]. unfold close_group.
      cbn [pos rest].
      replace (S n + 0 =? n) with false by (symmetry; apply Nat.eqb_neq; lia).
      rewrite andb_false_r, app_nil_r. cbn [option_map].
      match goal with
      | |- context [matcher (Seq (Rep (Nat.pred min) None run_body) digit)
                            (MState ?p _ ?c)] =>
          destruct (IH (Nat.pred min) p c HD) as [IH1 IH2]
      end.
      cbn [app] in IH1, IH2. split.
      * intros Hmin. destruct IH1 as (cs' & tl & E); [cbn [List.length] in *; lia|].
        rewrite E. exists cs'. eexists. cbn [app]. f_equal. f_equal.
        cbn [List.length]. lia.
      * intros Hmin. rewrite IH2 by (cbn [List.length] in *; lia).
        destruct min; [cbn [List.length] in Hmin; lia | reflexivity].
Qed.

(** ** The normalised text around a character that is not whitespace *)

Lemma squeeze_app_keep p by_ c : p c = false ->
  forall X Y b,
    squeeze p by_ b (X ++ c :: Y) = squeeze p by_ b X ++ c :: squeeze p by_ false Y.
Proof.
  intros Hc. induction X as [|x X IH]; intros Y b; cbn [app squeeze].
  - now rewrite Hc.
  - destruct (p x); rewrite IH; [now rewrite app_assoc | reflexivity].
Qed.

Lemma trim_start_app_keep c : is_space c = false ->
  forall X Y, trim_start (X ++ c :: Y) = trim_start X ++ c :: Y.
Proof.
  intros Hc. induction X as [|x X IH]; intros Y; cbn [app trim_start].
  - now rewrite Hc.
  - destruct (is_space x); [apply IH | reflexivity].
Qed.

Lemma trim_end_app_keep c : is_space c = false ->
  forall X Y, trim_end (X ++ c :: Y) = X ++ c :: trim_end Y.
Proof.
  intros Hc X Y. unfold trim_end.
  rewrite rev_app_distr. cbn [rev]. rewrite <- app_assoc. cbn [app].
  rewrite trim_start_app_keep by exact Hc.
  rewrite rev_app_distr. cbn [rev]. rewrite rev_involutive, <- app_assoc.
  reflexivity.
Qed.

Lemma cleanText_app_keep c : is_space c = false ->
  forall X Y, cleanText (X ++ c :: Y) = norm_left X ++ c :: norm_right Y.
Proof.
  intros Hc X Y. rewrite cleanText_spec. unfold trim, norm_left, norm_right.
  rewrite squeeze_app_keep by exact Hc.
  rewrite trim_start_app_keep by exact Hc.
  now rewrite trim_end_app_keep by exact Hc.
Qed.

Lemma norm_right_cons c : is_space c = false ->
  forall Y, norm_right (c :: Y) = c :: norm_right Y.
Proof.
  intros Hc Y. unfold norm_right. cbn [squeeze]. rewrite Hc.
  apply (@trim_end_app_keep c Hc []).
Qed.

Lemma digit_keep M Y :
  forallb is_digit M = true -> norm_right (M ++ Y) = M ++ norm_right Y.
Proof.
  induction M as [|c M IH]; intros H; [reflexivity|].
  cbn [forallb] in H. apply andb_true_iff in H. destruct H as [Hc HM].
  cbn [app]. rewrite norm_right_cons by now apply digit_not_space.
  now rewrite IH.
Qed.

(** The normalisation adds and removes whitespace only. *)
Lemma squeeze_Forall (P : char -> Prop) p by_ :
  Forall P by_ ->
  forall s b, Forall P s -> Forall P (squeeze p by_ b s).
Proof.
  intros Hby. induction s as [|c t IH]; intros b H; cbn [squeeze]; [constructor|].
  inversion H as [|? ? Hc Ht]; subst. destruct (p c).
  - apply Forall_app. split; [destruct b; [constructor | exact Hby] | now apply IH].
  - constructor; [exact Hc | now apply IH].
Qed.

Lemma trim_start_suffix s : exists z, s = z ++ trim_start s.
Proof.
  induction s as [|c t (z & IH)]; [now exists []|]. cbn [trim_start].
  destruct (is_space c); [|now exists []].
  exists (c :: z). cbn [app]. now f_equal.
Qed.

Lemma trim_end_prefix s : exists z, s = trim_end s ++ z.
Proof.
  unfold trim_end. destruct (trim_start_suffix (rev s)) as (z & Hz).
  exists (rev z). rewrite <- rev_app_distr, <- Hz. now rewrite rev_involutive.
Qed.

Lemma trim_start_Forall (P : char -> Prop) s :
  Forall P s -> Forall P (trim_start s).
Proof.
  destruct (trim_start_suffix s) as (z & Hz). intros H. rewrite Hz in H.
  now apply Forall_app in H.
Qed.

Lemma trim_end_Forall (P : char -> Prop) s :
  Forall P s -> Forall P (trim_end s).
Proof.
  destruct (trim_end_prefix s) as (z & Hz). intros H. rewrite Hz in H.
  now apply Forall_app in H.
Qed.

Lemma forallb_Forall (p : char -> bool) s :
  forallb p s = true <-> Forall (fun c => p c = true) s.
Proof.
  rewrite forallb_forall, Forall_forall. tauto.
Qed.

Lemma norm_left_not_digit s :
  forallb not_digit s = true -> forallb not_digit (norm_left s) = true.
Proof.
  rewrite !forallb_Forall. intros H. unfold norm_left.
  apply trim_start_Forall, squeeze_Forall; [|exact H].
  repeat constructor.
Qed.

Lemma norm_right_not_digit s :
  forallb not_digit s = true -> forallb not_digit (norm_right s) = true.
Proof.
  rewrite !forallb_Forall. intros H. unfold norm_right.
  apply trim_end_Forall, squeeze_Forall; [|exact H].
  repeat constructor.
Qed.

Lemma not_digit_run_here s : forallb not_digit s = true -> run_here s = 0.
Proof.
  induction s as [|c t IH]; [reflexivity|]. cbn [forallb run_here].
  intros H. apply andb_true_iff in H. destruct H as [Hc Ht].
  unfold not_digit in Hc. apply negb_true_iff in Hc. rewrite Hc.
  destruct (is_sepdash c); [now apply IH | reflexivity].
Qed.

(** ** The label *)

Lemma has_label_app_r X Y : has_label Y = true -> has_label (X ++ Y) = true.
Proof.
  intros H. induction X as [|x X IH]; [exact H|].
  cbn [app has_label]. rewrite IH. apply orb_true_r.
Qed.

Lemma starts_label_app X Y : starts_label X = true -> starts_label (X ++ Y) = true.
Proof.
  destruct X as [|a [|b [|c X]]]; cbn; try discriminate. auto.
Qed.

Lemma has_label_app_l X Y : has_label X = true -> has_label (X ++ Y) = true.
Proof.
  induction X as [|x X IH]; [discriminate|].
  cbn [has_label]. intros H. apply orb_true_iff in H.
  change ((x :: X) ++ Y) with (x :: (X ++ Y)). cbn [has_label].
  apply orb_true_iff. destruct H as [H|H].
  - left. apply (starts_label_app (x :: X) Y H).
  - right. now apply IH.
Qed.

Lemma has_label_squeeze : forall s b,
  has_label (squeeze is_space space_str b s) = true -> has_label s = true.
Proof.
  induction s as [|c t IH]; intros b; [discriminate|].
  cbn [squeeze]. destruct (is_space c) eqn:Ec.
  - intros H. cbn [has_label]. apply orb_true_iff. right.
    apply (IH true). destruct b; [exact H|].
    change (space_str ++ squeeze is_space space_str true t)
      with (32%N :: squeeze is_space space_str true t) in H.
    cbn [has_label] in H. apply orb_true_iff in H. destruct H as [H|H]; [|exact H].
    destruct (squeeze is_space space_str true t) as [|x1 [|x2 X]];
      cbn in H; discriminate H.
  - cbn [has_label]. intros H. apply orb_true_iff in H. apply orb_true_iff.
    destruct H as [H|H]; [|right; now apply (IH false)].
    left. destruct t as [|c2 t2]; [cbn [squeeze starts_label] in H; discriminate H|].
    cbn [squeeze] in H. destruct (is_space c2) eqn:Ec2.
    + change (space_str ++ squeeze is_space space_str true t2)
        with (32%N :: squeeze is_space space_str true t2) in H.
      destruct (squeeze is_space space_str true t2);
        cbn [starts_label] in H; [discriminate H|].
      change (lit_ci (ch "I") 32%N) with false in H.
      rewrite andb_false_r in H. discriminate H.
    + destruct t2 as [|c3 t3]; [cbn [squeeze starts_label] in H; discriminate H|].
      cbn [squeeze] in H. destruct (is_space c3) eqn:Ec3.
      * change (space_str ++ squeeze is_space space_str true t3)
          with (32%N :: squeeze is_space space_str true t3) in H.
        cbn [starts_label] in H.
        change (lit_ci (ch "K") 32%N) with false in H.
        rewrite andb_false_r in H. discriminate H.
      * exact H.
Qed.

Lemma has_label_cleanText s :
  has_label s = false -> has_label (cleanText s) = false.
Proof.
  intros H. apply not_true_is_false. intros Hc. rewrite cleanText_spec in Hc.
  unfold trim in Hc.
  destruct (trim_end_prefix (trim_start (squeeze is_space space_str false s)))
    as (z & Hz).
  apply (has_label_app_l _ z) in Hc. rewrite <- Hz in Hc.
  destruct (trim_start_suffix (squeeze is_space space_str false s)) as (z' & Hz').
  apply (has_label_app_r z' _) in Hc. rewrite <- Hz' in Hc.
  apply has_label_squeeze in Hc. congruence.
Qed.

Lemma nik_label_fail s :
  starts_label (rest s) = false -> matcher re_nik_label s = [].
Proof.
  destruct s as [n r cs]. cbn [rest]. intros H.
  unfold re_nik_label. cbn [seqs].
  rewrite matcher_Seq, matcher_Chr. cbn [rest pos caps].
  destruct r as [|a r]; [reflexivity|].
  destruct (lit_ci (ch "N") a) eqn:Ea; [|reflexivity].
  cbn [flat_map]. rewrite app_nil_r.
  rewrite matcher_Seq, matcher_Chr. cbn [rest pos caps].
  destruct r as [|b r]; [reflexivity|].
  destruct (lit_ci (ch "I") b) eqn:Eb; [|reflexivity].
  cbn [flat_map]. rewrite app_nil_r.
  rewrite matcher_Seq, matcher_Chr. cbn [rest pos caps].
  destruct r as [|c r]; [reflexivity|].
  destruct (lit_ci (ch "K") c) eqn:Ek; [|reflexivity].
  cbn [starts_label] in H. rewrite Ea, Eb, Ek in H. discriminate H.
Qed.

Lemma exec_from_no_label : forall s p,
  has_label s = false -> exec_from re_nik_label p s = None.
Proof.
  induction s as [|c t IH]; intros p H; cbn [exec_from]; unfold match_at.
  - now rewrite nik_label_fail.
  - cbn [has_label] in H. apply orb_false_iff in H. destruct H as [H1 H2].
    rewrite nik_label_fail by exact H1. cbn [hd_error]. now apply IH.
Qed.

Lemma method1_no_label s : has_label s = false -> method1 s = None.
Proof.
  intros H. unfold method1, match_first. now rewrite exec_from_no_label.
Qed.

(** ** The digit-run scan on a run preceded by no digit *)

Lemma gscan_skip_nondigits : forall A q s,
  forallb not_digit A = true ->
  gscan re_digit_runs q 0 (A ++ s)
  = map Kept A ++ gscan re_digit_runs (q + List.length A) 0 s.
Proof.
  induction A as [|c A IH]; intros q s H.
  - cbn. now rewrite Nat.add_0_r.
  - cbn [forallb] in H. apply andb_true_iff in H. destruct H as [Hc HA].
    unfold not_digit in Hc. apply negb_true_iff in Hc.
    cbn [app gscan]. unfold match_at, re_digit_runs.
    rewrite digit_runs_fail by (cbn; exact Hc).
    cbn [hd_error map app]. fold re_digit_runs.
    rewrite IH by exact HA. cbn [List.length].
    now replace (S q + List.length A) with (q + S (List.length A)) by lia.
Qed.

Lemma gscan_digit_run D B q :
  forallb is_digit D = true -> 16 <= List.length D -> run_here B = 0 ->
  exists l, gscan re_digit_runs q 0 (D ++ B) = Matched D :: l.
Proof.
  intros HD Hlen HB.
  destruct (@digit_runs_first B HB D 15 q [] HD) as [H1 _].
  destruct H1 as (cs' & tl & E); [lia|].
  destruct D as [|d D]; [cbn in Hlen; lia|].
  cbn [app gscan]. unfold match_at, re_digit_runs.
  cbn [app] in E. rewrite E. cbn [hd_error pos].
  replace (q + List.length (d :: D) - q) with (S (List.length D))
    by (cbn [List.length]; lia).
  eexists. f_equal. cbn [firstn]. f_equal. f_equal.
  rewrite firstn_app, firstn_all, Nat.sub_diag. cbn [firstn]. apply app_nil_r.
Qed.

Lemma filter_digit_all D : forallb is_digit D = true -> filter is_digit D = D.
Proof.
  induction D as [|d D IH]; [reflexivity|]. cbn.
  intros H. apply andb_true_iff in H. destruct H as [-> H]. now rewrite IH.
Qed.

Lemma strip_nondigit w : replace_all re_nondigit [] w = filter is_digit w.
Proof.
  unfold re_nondigit. rewrite replace_all_Chr_nil. apply filter_ext.
  intros c. unfold not_digit. apply negb_involutive.
Qed.

(** The digit-run scan returns the first 16 digits of the first run of at
    least 16 contiguous digits when no digit comes before it. *)
Lemma method2_first_run A D B :
  forallb not_digit A = true ->
  forallb is_digit D = true -> 16 <= List.length D ->
  run_here B = 0 ->
  method2 (A ++ D ++ B) = Some (firstn 16 D).
Proof.
  intros HA HD Hlen HB. unfold method2, match_all.
  rewrite gscan_skip_nondigits by exact HA.
  destruct (@gscan_digit_run D B (0 + List.length A) HD Hlen HB) as (l & ->).
  rewrite flat_map_app.
  replace (flat_map (fun x => match x with Matched w => [w] | Kept _ => [] end)
                    (map Kept A)) with (@nil jsstring)
    by (induction A as [|a A IH]; [reflexivity | cbn; apply IH;
        cbn in HA; apply andb_true_iff in HA; tauto]).
  cbn [app flat_map method2_loop].
  rewrite strip_nondigit, filter_digit_all by exact HD.
  rewrite is_nik_spec, HD, andb_true_r.
  destruct (List.length D =? 16) eqn:E16.
  - apply Nat.eqb_eq in E16. rewrite <- E16, firstn_all. reflexivity.
  - apply Nat.eqb_neq in E16.
    replace (16 <? List.length D) with true by (symmetry; apply Nat.ltb_lt; lia).
    rewrite test_16digits. unfold substring0.
    rewrite length_firstn, Nat.min_l by lia. cbn [Nat.eqb andb].
    replace (forallb is_digit (firstn 16 D)) with true; [reflexivity|].
    symmetry. apply forallb_forall. intros x Hx.
    rewrite forallb_forall in HD. apply HD.
    rewrite <- (firstn_skipn 16 D). apply in_or_app. now left.
Qed.

(** C5. A text whose only digits are one contiguous run of exactly 17 digits,
    and in which the label "NIK" does not occur (in any case), yields the
    first 16 digits of the run: the labelled strategy finds nothing and the
    digit-run scan takes the first 16 digits of its over-long match. *)
Theorem extractNIK_seventeen_digits (A D B : jsstring) :
  forallb not_digit A = true ->
  forallb not_digit B = true ->
  List.length D = 17 -> forallb is_digit D = true ->
  has_label (A ++ D ++ B) = false ->
  extractNIK (A ++ D ++ B) = Some (firstn 16 D)
  /\ method1 (cleanText (A ++ D ++ B)) = None
  /\ method2 (cleanText (A ++ D ++ B)) = Some (firstn 16 D).
Proof.
  intros HA HB Hlen HD Hlab.
  assert (H1 : method1 (cleanText (A ++ D ++ B)) = None)
    by now apply method1_no_label, has_label_cleanText.
  assert (H2 : method2 (cleanText (A ++ D ++ B)) = Some (firstn 16 D)).
  { destruct D as [|d D']; [discriminate Hlen|].
    pose proof HD as HD'. cbn [forallb] in HD'. apply andb_true_iff in HD'.
    destruct HD' as [Hd HD'].
    change (A ++ (d :: D') ++ B) with (A ++ d :: (D' ++ B)).
    rewrite cleanText_app_keep by now apply digit_not_space.
    rewrite digit_keep by exact HD'.
    change (norm_left A ++ d :: D' ++ norm_right B)
      with (norm_left A ++ (d :: D') ++ norm_right B).
    apply method2_first_run; [| exact HD | lia |].
    - now apply norm_left_not_digit.
    - now apply not_digit_run_here, norm_right_not_digit. }
  split; [|split; assumption]. unfold extractNIK.
  destruct (A ++ D ++ B) as [|c0 t0] eqn:Etext.
  { apply (f_equal (@List.length _)) in Etext.
    rewrite !length_app, Hlen in Etext. cbn in Etext. lia. }
  cbv zeta. now rewrite H1, H2.
Qed.

Lemma extractNIK_seventeen_digits_witness :
  extractNIK (js "No. " ++ js "12345678901234567" ++ js " - berlaku")
  = Some (firstn 16 (js "12345678901234567"))
  /\ method1 (cleanText (js "No. " ++ js "12345678901234567" ++ js " - berlaku")) = None
  /\ method2 (cleanText (js "No. " ++ js "12345678901234567" ++ js " - berlaku"))
     = Some (firstn 16 (js "12345678901234567")).
Proof.
  apply extractNIK_seventeen_digits; vm_compute; reflexivity.
Defined.

(** ** Matches are substrings *)

Lemma consumes_firstn P s s' w :
  consumes P s s' w -> firstn (pos s' - pos s) (rest s) = w.
Proof.
  intros (H & Hp & _). rewrite H, Hp.
  replace (pos s + List.length w - pos s) with (List.length w) by lia.
  rewrite firstn_app, firstn_all, Nat.sub_diag. cbn. apply app_nil_r.
Qed.

Lemma hd_error_In (A : Type) (l : list A) a : hd_error l = Some a -> In a l.
Proof. destruct l; [discriminate|]. intros [= <-]. now left. Qed.

(** A match found by [exec_from] is a way the pattern matches some suffix. *)
Lemma exec_from_sound r : forall s p p' t e,
  exec_from r p s = Some (p', t, e) ->
  exists pre, s = pre ++ t /\ In e (matcher r (MState p' t [])).
Proof.
  induction s as [|c s IH]; intros p p' t e; cbn [exec_from];
    destruct (match_at r p _) as [e0|] eqn:E.
  - intros [= <- <- <-]. exists []. split; [reflexivity|]. now apply hd_error_In.
  - discriminate.
  - intros [= <- <- <-]. exists []. split; [reflexivity|]. now apply hd_error_In.
  - intros H. apply IH in H. destruct H as (pre & -> & Hin).
    exists (c :: pre). split; [reflexivity | exact Hin].
Qed.

(** Every match listed by a global scan is a substring made of characters
    the pattern can consume. *)
Lemma gscan_sound P r : chars_in P r ->
  forall s q k w, In (Matched w) (gscan r q k s) ->
  exists pre post, s = pre ++ w ++ post /\ forallb P w = true.
Proof.
  intros Hr.
  assert (Hm : forall q s e, match_at r q s = Some e ->
             exists post, s = firstn (pos e - q) s ++ post
                          /\ forallb P (firstn (pos e - q) s) = true).
  { intros q s e E. apply hd_error_In in E.
    destruct (matcher_consumes P r Hr _ _ E) as (w & C).
    pose proof (consumes_firstn _ _ _ _ C) as F. cbn [pos rest] in F. rewrite F.
    destruct C as (R & _ & Fw). cbn [rest] in R. exists (rest e). auto. }
  induction s as [|c s IH]; intros q k w Hin.
  - destruct k; cbn [gscan] in Hin; [|destruct Hin].
    destruct (match_at r q []) as [e|] eqn:E; [|destruct Hin].
    destruct Hin as [Hin|[]]. injection Hin as <-.
    destruct (Hm _ _ _ E) as (post & Hs & Hf). exists [], post. auto.
  - destruct k as [|k]; cbn [gscan] in Hin.
    + destruct (match_at r q (c :: s)) as [e|] eqn:E.
      * destruct Hin as [Hin|Hin].
        -- injection Hin as <-. destruct (Hm _ _ _ E) as (post & Hs & Hf).
           exists [], post. auto.
        -- assert (Hin' : exists k', In (Matched w) (gscan r (S q) k' s)).
           { destruct (pos e - q) as [|k'].
             - destruct Hin as [Hin|Hin]; [discriminate|]. now exists 0.
             - now exists k'. }
           destruct Hin' as (k' & Hin').
           destruct (IH _ _ _ Hin') as (pre & post & -> & Hf).
           exists (c :: pre), post. auto.
      * destruct Hin as [Hin|Hin]; [discriminate|].
        destruct (IH _ _ _ Hin) as (pre & post & -> & Hf).
        exists (c :: pre), post. auto.
    + destruct (IH _ _ _ Hin) as (pre & post & -> & Hf).
      exists (c :: pre), post. auto.
Qed.

(** ** Digit runs *)

Lemma run_here_count w post :
  forallb digit_or_sep w = true -> count_digits w <= run_here (w ++ post).
Proof.
  unfold count_digits. induction w as [|c w IH]; intros H; cbn [app]; [cbn; lia|].
  cbn [forallb] in H. apply andb_true_iff in H. destruct H as [Hc Hw].
  cbn [filter run_here]. destruct (is_digit c) eqn:Ed.
  - cbn [List.length]. apply IH in Hw. lia.
  - unfold digit_or_sep in Hc. rewrite Ed in Hc. cbn in Hc. rewrite Hc. now apply IH.
Qed.

Lemma run_here_le_max s : run_here s <= max_digit_run s.
Proof. destruct s as [|c t]; [cbn; lia|]. cbn [max_digit_run]. lia. Qed.

Lemma max_digit_run_app pre s : max_digit_run s <= max_digit_run (pre ++ s).
Proof.
  induction pre as [|c pre IH]; [cbn; lia|].
  cbn [app max_digit_run]. lia.
Qed.

(** A substring made of digits and separators belongs to one run. *)
Lemma max_digit_run_substring pre w post :
  forallb digit_or_sep w = true ->
  count_digits w <= max_digit_run (pre ++ w ++ post).
Proof.
  intros H. pose proof (run_here_count _ post H).
  pose proof (run_here_le_max (w ++ post)).
  pose proof (max_digit_run_app pre (w ++ post)). lia.
Qed.

Lemma run_here_strip s : run_here (strip_space s) = run_here s.
Proof.
  induction s as [|c t IH]; [reflexivity|].
  cbn [strip_space filter run_here]. destruct (is_space c) eqn:Es; cbn [negb].
  - fold (strip_space t). rewrite IH.
    destruct (is_digit c) eqn:Ed; [now rewrite (digit_not_space _ Ed) in Es|].
    now rewrite (space_sepdash _ Es).
  - fold (strip_space t). cbn [run_here]. now rewrite IH.
Qed.

Lemma max_digit_run_strip s : max_digit_run (strip_space s) = max_digit_run s.
Proof.
  induction s as [|c t IH]; [reflexivity|].
  cbn [max_digit_run]. cbn [strip_space filter].
  destruct (is_space c) eqn:Es; cbn [negb]; fold (strip_space t).
  - rewrite IH. cbn [run_here].
    destruct (is_digit c) eqn:Ed; [now rewrite (digit_not_space _ Ed) in Es|].
    rewrite (space_sepdash _ Es). pose proof (run_here_le_max t). lia.
  - cbn [max_digit_run]. rewrite IH. f_equal.
    cbn [run_here]. now rewrite (run_here_strip t).
Qed.

Lemma strip_space_squeeze : forall s b,
  strip_space (squeeze is_space space_str b s) = strip_space s.
Proof.
  induction s as [|c t IH]; intros b; [reflexivity|].
  cbn [squeeze]. unfold strip_space in *. destruct (is_space c) eqn:Es.
  - rewrite filter_app. cbn [filter]. rewrite Es. cbn [negb].
    rewrite IH. destruct b; reflexivity.
  - cbn [filter]. rewrite Es. cbn [negb]. now rewrite IH.
Qed.

Lemma strip_space_trim_start s : strip_space (trim_start s) = strip_space s.
Proof.
  induction s as [|c t IH]; [reflexivity|].
  cbn [trim_start]. destruct (is_space c) eqn:Es; [|reflexivity].
  rewrite IH. unfold strip_space. cbn [filter]. now rewrite Es.
Qed.

Lemma strip_space_rev s : strip_space (rev s) = rev (strip_space s).
Proof.
  unfold strip_space. induction s as [|c t IH]; [reflexivity|].
  cbn [rev filter]. rewrite filter_app, IH. cbn [filter].
  destruct (negb (is_space c)); cbn [rev]; [reflexivity | apply app_nil_r].
Qed.

Lemma strip_space_trim_end s : strip_space (trim_end s) = strip_space s.
Proof.
  unfold trim_end.
  now rewrite strip_space_rev, strip_space_trim_start, strip_space_rev, rev_involutive.
Qed.

(** The normalisation keeps the digit runs. *)
Lemma max_digit_run_cleanText s : max_digit_run (cleanText s) = max_digit_run s.
Proof.
  rewrite <- (max_digit_run_strip (cleanText s)), <- (max_digit_run_strip s).
  f_equal. rewrite cleanText_spec. unfold trim.
  now rewrite strip_space_trim_end, strip_space_trim_start, strip_space_squeeze.
Qed.

(** ** The labelled and the digit-run strategies need a run of 16 digits *)

Lemma chars_in_nik_groups : chars_in digit_or_sep re_nik_groups.
Proof.
  unfold re_nik_groups, digits13, Opt, digit, sepdash, digit_or_sep.
  cbn [seqs chars_in]. repeat split; intros c ->; auto using orb_true_r.
Qed.

Lemma chars_in_digit_runs : chars_in digit_or_sep re_digit_runs.
Proof.
  unfold re_digit_runs, Star, digit, sepdash, digit_or_sep.
  cbn [chars_in]. repeat split; intros c ->; auto using orb_true_r.
Qed.

Lemma in_matcher_Seq a b s e :
  In e (matcher (Seq a b) s) ->
  exists s1, In s1 (matcher a s) /\ In e (matcher b s1).
Proof. rewrite matcher_Seq. apply in_flat_map. Qed.

(** On a match of the labelled pattern, group 1 is defined and holds a
    substring made of digits and separators. *)
Lemma nik_label_capture clean mr :
  match_first re_nik_label clean = Some mr ->
  exists pre raw post,
    m1 mr = Some raw /\ clean = pre ++ raw ++ post
    /\ forallb digit_or_sep raw = true.
Proof.
  unfold match_first.
  destruct (exec_from re_nik_label 0 clean) as [[[p t] e]|] eqn:E; [|discriminate].
  intros [= <-]. apply exec_from_sound in E. destruct E as (pre & -> & Hin).
  unfold re_nik_label in Hin. cbn [seqs] in Hin.
  apply in_matcher_Seq in Hin. destruct Hin as (s1 & H1 & Hin).
  apply in_matcher_Seq in Hin. destruct Hin as (s2 & H2 & Hin).
  apply in_matcher_Seq in Hin. destruct Hin as (s3 & H3 & Hin).
  apply in_matcher_Seq in Hin. destruct Hin as (s4 & H4 & Hin).
  apply in_matcher_Seq in Hin. destruct Hin as (s5 & H5 & Hin).
  apply in_matcher_Seq in Hin. destruct Hin as (s6 & H6 & Hin).
  apply matcher_advances in H1, H2, H3, H4, H5, H6.
  assert (Hadv : advances (MState p t []) s6)
    by (repeat (eapply advances_trans; [eassumption|]); apply advances_refl).
  rewrite matcher_Group in Hin. apply in_map_iff in Hin.
  destruct Hin as (s7 & <- & H7).
  destruct (matcher_consumes digit_or_sep _ chars_in_nik_groups _ _ H7) as (raw & C).
  destruct Hadv as (w0 & R0 & _). cbn [rest] in R0.
  exists (pre ++ w0), raw, (rest s7). cbn [m1 close_group caps get_cap find fst snd Nat.eqb].
  rewrite (consumes_firstn _ _ _ _ C). destruct C as (R & _ & F).
  repeat split; [|exact F]. now rewrite R0, R, <- !app_assoc.
Qed.

Lemma strip_sepdash raw :
  forallb digit_or_sep raw = true ->
  replace_all re_sepdash [] raw = filter is_digit raw.
Proof.
  intros H. unfold re_sepdash, sepdash. rewrite replace_all_Chr_nil.
  induction raw as [|c raw IH]; [reflexivity|].
  cbn [forallb] in H. apply andb_true_iff in H. destruct H as [Hc Hr].
  cbn [filter]. rewrite (IH Hr). unfold digit_or_sep in Hc.
  destruct (is_digit c) eqn:Ed.
  - now rewrite (digit_not_sepdash _ Ed).
  - cbn in Hc. now rewrite Hc.
Qed.

Lemma method1_run clean nik :
  method1 clean = Some nik -> 16 <= max_digit_run clean.
Proof.
  unfold method1.
  destruct (match_first re_nik_label clean) as [mr|] eqn:E; [|discriminate].
  destruct (nik_label_capture _ _ E) as (pre & raw & post & -> & -> & F).
  rewrite strip_sepdash by exact F. rewrite is_nik_spec.
  destruct (List.length (filter is_digit raw) =? 16) eqn:E16; [|discriminate].
  intros _. apply Nat.eqb_eq in E16.
  pose proof (max_digit_run_substring pre _ post F). unfold count_digits in *. lia.
Qed.

Lemma method2_loop_run l nik :
  method2_loop l = Some nik ->
  exists w, In w l /\ 16 <= count_digits w.
Proof.
  induction l as [|w l IH]; cbn [method2_loop]; [discriminate|].
  rewrite strip_nondigit, is_nik_spec.
  destruct (List.length (filter is_digit w) =? 16) eqn:E16.
  - intros _. exists w. split; [now left|]. apply Nat.eqb_eq in E16.
    unfold count_digits. lia.
  - cbn [andb]. destruct (16 <? List.length (filter is_digit w)) eqn:Egt.
    + intros _. exists w. split; [now left|]. apply Nat.ltb_lt in Egt.
      unfold count_digits. lia.
    + intros H. destruct (IH H) as (w' & Hin & Hc). exists w'. split; [now right | exact Hc].
Qed.

Lemma method2_run clean nik :
  method2 clean = Some nik -> 16 <= max_digit_run clean.
Proof.
  unfold method2, match_all.
  set (l := flat_map _ (gscan re_digit_runs 0 0 clean)).
  assert (Hl : forall w, In w l -> In (Matched w) (gscan re_digit_runs 0 0 clean)).
  { intros w Hw. unfold l in Hw. apply in_flat_map in Hw.
    destruct Hw as ([c|w'] & Hin & Hw); [destruct Hw|].
    destruct Hw as [<-|[]]. exact Hin. }
  destruct l as [|w0 l0] eqn:El; [discriminate|]. intros H.
  apply method2_loop_run in H. destruct H as (w & Hin & Hc).
  apply Hl in Hin.
  destruct (gscan_sound digit_or_sep _ chars_in_digit_runs _ _ _ _ Hin)
    as (pre & post & -> & F).
  pose proof (max_digit_run_substring pre _ post F). lia.
Qed.

(** ** Splitting into words *)

Lemma trim_start_split s :
  exists z, s = z ++ trim_start s /\ forallb is_space z = true.
Proof.
  induction s as [|c t (z & IH & Hz)]; [now exists []|]. cbn [trim_start].
  destruct (is_space c) eqn:Ec; [|now exists []].
  exists (c :: z). cbn [app forallb]. rewrite Ec, Hz. split; [now f_equal | reflexivity].
Qed.

Lemma trim_end_split s :
  exists z, s = trim_end s ++ z /\ forallb is_space z = true.
Proof.
  unfold trim_end. destruct (trim_start_split (rev s)) as (z & Hz & Fz).
  exists (rev z). split.
  - rewrite <- rev_app_distr, <- Hz. now rewrite rev_involutive.
  - apply forallb_forall. intros c Hc. apply in_rev in Hc.
    rewrite forallb_forall in Fz. now apply Fz.
Qed.

Section Fields.

Variable p : char -> bool.
Hypothesis Hp : forall c, is_space c = true -> p c = true.

Lemma fields_cons s : fields p s = hd [] (fields p s) :: tl (fields p s).
Proof.
  induction s as [|c t IH]; [reflexivity|]. cbn [fields].
  destruct (p c); [reflexivity|]. rewrite IH. reflexivity.
Qed.

Lemma fields_step c t :
  fields p (c :: t) =
  if p c then [] :: fields p t
  else (c :: hd [] (fields p t)) :: tl (fields p t).
Proof.
  cbn [fields]. destruct (p c); [reflexivity|]. now rewrite (fields_cons t).
Qed.

(** The pieces of [split] on runs of a class are fields between characters
    of the class. *)
Lemma split_scan_fields : forall s q cur w,
  (In w (split_scan (Plus (Chr p)) q 0 cur s) ->
   w = rev cur ++ hd [] (fields p s) \/ In w (tl (fields p s)))
  /\ (In w (split_scan (Plus (Chr p)) q (run p s) [] s) -> In w (fields p s)).
Proof.
  induction s as [|c t IH]; intros q cur w.
  - cbn. split; intros [<-|[]]; [left; now rewrite app_nil_r | now left].
  - assert (H0 : forall cur', In w (split_scan (Plus (Chr p)) q 0 cur' (c :: t)) ->
                 w = rev cur' ++ hd [] (fields p (c :: t))
                 \/ In w (tl (fields p (c :: t)))).
    { intros cur'. cbn [split_scan]. rewrite match_at_Plus, fields_step. cbn [run].
      destruct (p c) eqn:E.
      - cbn [pos hd tl]. replace (q + S (run p t) - q) with (S (run p t)) by lia.
        intros H.
        assert (H' : w = rev cur' \/ In w (split_scan (Plus (Chr p)) (S q) (run p t) [] t))
          by (destruct cur'; destruct H; auto).
        destruct H' as [->|H']; [left; now rewrite app_nil_r|].
        right. now apply (IH (S q) [] w).
      - cbn [hd tl]. intros H. apply (IH (S q) (c :: cur') w) in H.
        destruct H as [->|H]; [left|now right].
        cbn [rev]. now rewrite <- app_assoc. }
    split; [apply H0|].
    cbn [run]. destruct (p c) eqn:E.
    + cbn [split_scan]. rewrite fields_step, E. intros H. right.
      now apply (IH (S q) [] w).
    + intros H. apply H0 in H. rewrite (fields_cons (c :: t)).
      destruct H as [->|H]; [now left | now right].
Qed.

Lemma split_fields s w :
  In w (split (Plus (Chr p)) s) -> In w (fields p s).
Proof.
  unfold split. destruct s as [|c t].
  - rewrite match_at_Plus. cbn. auto.
  - intros H. apply (split_scan_fields (c :: t) 0 [] w) in H.
    rewrite (fields_cons (c :: t)). destruct H as [->|H]; [now left | now right].
Qed.

(** The normalisation keeps the non-empty fields. *)
Lemma fields_squeeze s :
  hd [] (fields p (squeeze is_space space_str false s)) = hd [] (fields p s)
  /\ (forall w, In w (tl (fields p (squeeze is_space space_str false s))) ->
                w = [] \/ In w (tl (fields p s)))
  /\ (forall w, In w (fields p (squeeze is_space space_str true s)) ->
                w = [] \/ In w (fields p s)).
Proof.
  assert (Hsp : p 32%N = true) by (apply Hp; reflexivity).
  induction s as [|c t (IH1 & IH2 & IH3)].
  - cbn. repeat split; auto; intros w [<-|[]]; now left.
  - assert (Hkeep : is_space c = false ->
              hd [] (fields p (c :: squeeze is_space space_str false t))
              = hd [] (fields p (c :: t))
              /\ forall w, In w (tl (fields p (c :: squeeze is_space space_str false t))) ->
                           w = [] \/ In w (tl (fields p (c :: t)))).
    { intros Ec. rewrite !fields_step. destruct (p c).
      - cbn [hd tl]. split; [reflexivity|]. intros w Hw.
        rewrite fields_cons in Hw. rewrite (fields_cons t).
        destruct Hw as [<-|Hw].
        + right. left. symmetry. exact IH1.
        + destruct (IH2 w Hw) as [->|H]; [now left | right; now right].
      - cbn [hd tl]. split; [now rewrite IH1 | exact IH2]. }
    cbn [squeeze]. destruct (is_space c) eqn:Ec.
    + change (space_str ++ squeeze is_space space_str true t)
        with (32%N :: squeeze is_space space_str true t).
      rewrite !fields_step, Hsp, (Hp c Ec). cbn [hd tl app].
      split; [reflexivity|]. split; [exact IH3|].
      intros w Hw. destruct (IH3 w Hw) as [->|H]; [now left | right; now right].
    + destruct (Hkeep eq_refl) as [K1 K2]. split; [exact K1|]. split; [exact K2|].
      intros w Hw. rewrite fields_cons in Hw. rewrite (fields_cons (c :: t)).
      destruct Hw as [<-|Hw].
      * right. left. symmetry. exact K1.
      * destruct (K2 w Hw) as [->|H]; [now left | right; now right].
Qed.

Lemma fields_trim_start :
  forall s w, In w (fields p (trim_start s)) -> In w (fields p s).
Proof.
  induction s as [|c t IH]; intros w; [auto|].
  cbn [trim_start]. destruct (is_space c) eqn:Ec; [|auto].
  intros H. rewrite fields_step, (Hp c Ec). right. now apply IH.
Qed.

Lemma fields_app_sep x z :
  match z with [] => True | c :: _ => p c = true end ->
  fields p (x ++ z) = fields p x ++ tl (fields p z).
Proof.
  intros Hz. induction x as [|c x IH].
  - cbn [app]. destruct z as [|c z]; [reflexivity|].
    rewrite fields_step, Hz. reflexivity.
  - cbn [app]. rewrite !fields_step, IH. destruct (p c); [reflexivity|].
    rewrite (fields_cons x). reflexivity.
Qed.

Lemma fields_trim_end s w :
  In w (fields p (trim_end s)) -> In w (fields p s).
Proof.
  intros H. destruct (trim_end_split s) as (z & Hz & Fz).
  rewrite Hz, fields_app_sep.
  - apply in_or_app. now left.
  - destruct z as [|c z]; [exact I|]. cbn in Fz. apply andb_true_iff in Fz.
    apply Hp. tauto.
Qed.

Lemma fields_cleanText s w :
  In w (fields p (cleanText s)) -> w = [] \/ In w (fields p s).
Proof.
  intros H. rewrite cleanText_spec in H. unfold trim in H.
  apply fields_trim_end, fields_trim_start in H.
  destruct (fields_squeeze s) as (H1 & H2 & _).
  rewrite fields_cons in H. rewrite (fields_cons s).
  destruct H as [<-|H].
  - right. left. symmetry. exact H1.
  - destruct (H2 w H) as [->|H']; [now left | right; now right].
Qed.

End Fields.

(** ** The branches of [extractKTPInfo] that are not reachable *)

Lemma split_scan_nonempty r : forall s q k cur, split_scan r q k cur s <> [].
Proof.
  induction s as [|c t IH]; intros q k cur; cbn [split_scan]; [discriminate|].
  destruct k as [|k]; [|apply IH].
  destruct (match_at r q (c :: t)) as [e|]; [|apply IH].
  destruct (pos e - q) as [|n]; [destruct cur|]; try discriminate. apply IH.
Qed.

Lemma next_label_split_nonempty s : split re_next_label s <> [].
Proof.
  destruct s as [|c t]; [vm_compute; discriminate|].
  unfold split. apply split_scan_nonempty.
Qed.

(** Group 1 takes part in every match of the name pattern. *)
Lemma nama_capture text mr :
  match_first re_nama text = Some mr -> exists captured, m1 mr = Some captured.
Proof.
  unfold match_first.
  destruct (exec_from re_nama 0 text) as [[[p t] e]|] eqn:E; [|discriminate].
  intros [= <-]. apply exec_from_sound in E. destruct E as (pre & _ & Hin).
  unfold re_nama in Hin. cbn [seqs] in Hin.
  do 7 (apply in_matcher_Seq in Hin; destruct Hin as (? & _ & Hin)).
  rewrite matcher_Group in Hin. apply in_map_iff in Hin.
  destruct Hin as (s' & <- & _).
  eexists. cbn [m1 close_group caps get_cap find fst snd Nat.eqb]. reflexivity.
Qed.

(** The name is absent exactly when the name pattern does not match. *)
Lemma extractKTPInfo_nama text :
  text <> [] ->
  (nama (extractKTPInfo text) = None <-> match_first re_nama text = None).
Proof.
  intros Hne. unfold extractKTPInfo. destruct text as [|c t]; [contradiction|].
  destruct (match_first re_nama (c :: t)) as [mr|] eqn:E; [|tauto].
  destruct (nama_capture _ _ E) as (captured & ->).
  destruct (split re_next_label (trim captured)) as [|w l] eqn:Es.
  - now apply next_label_split_nonempty in Es.
  - cbn. split; discriminate.
Qed.

(** ** The token scan needs a token of 16 digits *)

Lemma method3_loop_token l nik :
  method3_loop l = Some nik ->
  exists w, In w l /\ count_digits w = 16.
Proof.
  induction l as [|w l IH]; cbn [method3_loop]; [discriminate|].
  rewrite strip_nondigit, is_nik_spec.
  destruct (List.length (filter is_digit w) =? 16) eqn:E16.
  - intros _. exists w. split; [now left|]. now apply Nat.eqb_eq in E16.
  - cbn [andb]. intros H. destruct (IH H) as (w' & Hin & Hc).
    exists w'. split; [now right | exact Hc].
Qed.

Lemma method3_token text nik :
  method3 (cleanText text) = Some nik -> has_token16 text = true.
Proof.
  unfold method3, re_word_sep, sepdash. intros H.
  apply method3_loop_token in H. destruct H as (w & Hin & Hc).
  apply split_fields in Hin.
  apply (fields_cleanText is_sepdash space_sepdash) in Hin.
  destruct Hin as [->|Hin]; [discriminate Hc|].
  unfold has_token16. apply existsb_exists. exists w.
  split; [exact Hin | now apply Nat.eqb_eq].
Qed.

Lemma run_single_le s : forall b, run_single b s <= run_here s.
Proof.
  induction s as [|c t IH]; intros b; cbn [run_single run_here]; [lia|].
  destruct (is_digit c); [specialize (IH false); lia|].
  destruct (is_sepdash c); cbn [andb]; [|lia].
  destruct b; cbn [negb]; [lia | apply IH].
Qed.

(** A run with single separators is a run. *)
Lemma max_single_run_le s : max_single_run s <= max_digit_run s.
Proof.
  induction s as [|c t IH]; cbn [max_single_run max_digit_run]; [lia|].
  pose proof (run_single_le (c :: t) false). lia.
Qed.

(** C3, amended. A text that holds no run of at least 15 digits (digits
    separated by whitespace or dashes only) and no whitespace/dash-delimited
    token with exactly 16 digit characters yields no identity number. *)
Theorem extractNIK_none (text : jsstring) :
  max_digit_run text < 15 ->
  has_token16 text = false ->
  extractNIK text = None.
Proof.
  intros Hrun Htok. unfold extractNIK. destruct text as [|c t]; [reflexivity|].
  cbv zeta. rewrite <- (max_digit_run_cleanText (c :: t)) in Hrun.
  destruct (method1 (cleanText (c :: t))) as [n1|] eqn:E1.
  { apply method1_run in E1. lia. }
  destruct (method2 (cleanText (c :: t))) as [n2|] eqn:E2.
  { apply method2_run in E2. lia. }
  destruct (method3 (cleanText (c :: t))) as [n3|] eqn:E3; [|reflexivity].
  apply method3_token in E3. congruence.
Qed.

Lemma extractNIK_none_witness :
  extractNIK (js "NIK: 3201 0145 0390 - Nama: 1a2b3c") = None.
Proof.
  apply extractNIK_none; [vm_compute; lia | vm_compute; reflexivity].
Defined.

(** ** First successes, compositionally *)

Lemma first_Seq a b s s1 e :
  first_is a s s1 -> first_is b s1 e -> first_is (Seq a b) s e.
Proof.
  intros (l1 & H1) (l2 & H2).
  exists (l2 ++ flat_map (matcher b) l1). rewrite matcher_Seq, H1. cbn [flat_map].
  now rewrite H2.
Qed.

Lemma first_Chr p q c t cs :
  p c = true -> first_is (Chr p) (MState q (c :: t) cs) (MState (S q) t cs).
Proof. intros H. exists []. rewrite matcher_Chr. cbn. now rewrite H. Qed.

Lemma first_Group n a s e :
  first_is a s e -> first_is (Group n a) s (close_group n s e).
Proof. intros (l & H). exists (map (close_group n s) l). rewrite matcher_Group, H. reflexivity. Qed.

Lemma first_Rep_Chr p min max q t cs hi :
  (forall m, max = Some m -> min <= m) ->
  bound max (run p t) = hi -> min <= hi ->
  first_is (Rep min max (Chr p)) (MState q t cs) (MState (q + hi) (skipn hi t) cs).
Proof.
  intros Hmax Hhi Hle. unfold first_is.
  rewrite matcher_Rep_Chr by exact Hmax. rewrite Hhi.
  destruct hi as [|hi].
  - assert (min = 0) by lia. subst. rewrite downto_same. eexists. reflexivity.
  - destruct (Nat.eq_dec min (S hi)) as [->|Hne].
    + rewrite downto_same. eexists. reflexivity.
    + rewrite downto_cons by lia. eexists. reflexivity.
Qed.

Lemma first_match_at r q s e :
  first_is r (MState q s []) e -> match_at r q s = Some e.
Proof. intros (l & H). unfold match_at. now rewrite H. Qed.

(** ** Runs of a class inside a longer text *)

Lemma run_app_stop p X Y : stops_class p Y -> run p (X ++ Y) = run p X.
Proof.
  intros HY. induction X as [|x X IH]; cbn [app run].
  - destruct Y as [|c Y]; [reflexivity|]. cbn in *. now rewrite HY.
  - now rewrite IH.
Qed.

Lemma run_all_length p X : forallb p X = true -> run p X = List.length X.
Proof. apply run_all. Qed.

Lemma run_stop p s : stops_class p s -> run p s = 0.
Proof. destruct s as [|c t]; [reflexivity|]. cbn. now intros ->. Qed.

Lemma forallb_skipn (p : char -> bool) n s :
  forallb p s = true -> forallb p (skipn n s) = true.
Proof.
  rewrite !forallb_forall. intros H x Hx. apply H.
  rewrite <- (firstn_skipn n s). apply in_or_app. now right.
Qed.

(** ** The eight digit groups *)

Lemma re_nik_groups_eq : re_nik_groups = nik_groups 7.
Proof. reflexivity. Qed.

Lemma stops_head B : stops B = true -> starts_with_digit B = false.
Proof.
  destruct B as [|c t]; [reflexivity|]. cbn. intros H.
  apply andb_true_iff in H. destruct H as [H _]. now apply negb_true_iff in H.
Qed.

Lemma swd_stops_class s : starts_with_digit s = false -> stops_class is_digit s.
Proof. destruct s; intros H; [exact I | exact H]. Qed.

Lemma matcher_digits13 q t cs :
  matcher digits13 (MState q t cs)
  = map (adv (MState q t cs)) (downto (Nat.min (run is_digit t) 3) 1).
Proof.
  unfold digits13, digit. rewrite matcher_Rep_Chr by (intros m [= <-]; lia).
  reflexivity.
Qed.

Lemma nik_groups_fail m s :
  starts_with_digit (rest s) = false -> matcher (nik_groups m) s = [].
Proof.
  intros H. destruct s as [q t cs]. cbn [rest] in H.
  assert (E : matcher digits13 (MState q t cs) = []).
  { rewrite matcher_digits13, (run_stop is_digit t (swd_stops_class t H)).
    reflexivity. }
  destruct m; cbn [nik_groups]; [exact E|]. now rewrite matcher_Seq, E.
Qed.

Section DigitGroups.

(** The text [B] after the digits does not extend the capture. *)
Variable B : jsstring.
Hypothesis HB : stops B = true.

(** After a digit group, the optional separator and the remaining groups:
    when digits follow the separator is empty, and at the end of the digits
    nothing more can match. *)
Lemma after_group m D q cs :
  forallb is_digit D = true ->
  flat_map (matcher (nik_groups m)) (matcher (Opt sepdash) (MState q (D ++ B) cs))
  = matcher (nik_groups m) (MState q (D ++ B) cs).
Proof.
  intros HD. pose proof HB as HB'. unfold Opt, sepdash.
  rewrite matcher_Rep_Chr by (intros k [= <-]; lia). cbn [bound].
  destruct D as [|d D].
  - cbn [app]. rewrite (nik_groups_fail m (MState q B cs)) by (now apply stops_head).
    clear HB. destruct B as [|c t].
    + cbn [run]. change (downto (Nat.min 0 1) 0) with [0].
      cbn [map flat_map]. unfold adv. cbn [pos rest caps skipn].
      now rewrite (nik_groups_fail m (MState (q + 0) [] cs)).
    + cbn [run]. destruct (is_sepdash c) eqn:Es.
      * cbn in HB'. rewrite Es in HB'. cbn in HB'.
        apply andb_true_iff in HB'. destruct HB' as [Hc Ht].
        apply negb_true_iff in Hc, Ht.
        replace (Nat.min (S (run is_sepdash t)) 1) with 1 by lia.
        change (downto 1 0) with [1; 0].
        cbn [map flat_map]. unfold adv. cbn [pos rest caps skipn].
        rewrite (nik_groups_fail m (MState (q + 1) t cs)) by exact Ht.
        rewrite (nik_groups_fail m (MState (q + 0) (c :: t) cs))
          by (cbn; exact Hc).
        reflexivity.
      * change (downto (Nat.min 0 1) 0) with [0].
        cbn [map flat_map]. unfold adv. cbn [pos rest caps skipn].
        rewrite (nik_groups_fail m (MState (q + 0) (c :: t) cs)); [reflexivity|].
        apply (stops_head (c :: t) HB').
  - cbn [forallb] in HD. apply andb_true_iff in HD. destruct HD as [Hd _].
    cbn [app run]. rewrite (digit_not_sepdash d Hd).
    change (downto (Nat.min 0 1) 0) with [0].
    cbn [map flat_map]. rewrite app_nil_r. unfold adv. cbn [pos rest caps skipn].
    now rewrite Nat.add_0_r.
Qed.

Lemma nik_groups_S m D q cs :
  forallb is_digit D = true ->
  matcher (nik_groups (S m)) (MState q (D ++ B) cs)
  = flat_map (fun j => matcher (nik_groups m) (MState (q + j) (skipn j D ++ B) cs))
             (downto (Nat.min (List.length D) 3) 1).
Proof.
  intros HD. cbn [nik_groups]. rewrite matcher_Seq, matcher_digits13.
  rewrite (run_app_stop is_digit D B (swd_stops_class B (stops_head B HB))).
  rewrite (run_all_length is_digit D HD).
  assert (Hj : forall j, In j (downto (Nat.min (List.length D) 3) 1) -> j <= List.length D).
  { intros j Hj. unfold downto in Hj. apply in_rev, in_seq in Hj. lia. }
  induction (downto (Nat.min (List.length D) 3) 1) as [|j l IH]; [reflexivity|].
  cbn [map flat_map]. rewrite IH by (intros j' Hj'; apply Hj; now right).
  f_equal. rewrite matcher_Seq. unfold adv. cbn [pos rest caps].
  assert (Hle : j <= List.length D) by (apply Hj; now left).
  rewrite skipn_app. replace (j - List.length D) with 0 by lia. cbn [skipn].
  apply after_group. now apply forallb_skipn.
Qed.

(** On [k] contiguous digits that nothing extends, [m]+1 digit groups do not
    match when [k <= m], and otherwise first match the first
    [min k (3 (m+1))] digits. *)
Lemma nik_groups_first :
  forall m D q cs,
    forallb is_digit D = true ->
    (List.length D <= m -> matcher (nik_groups m) (MState q (D ++ B) cs) = [])
    /\ (m < List.length D ->
        first_is (nik_groups m) (MState q (D ++ B) cs)
                 (MState (q + Nat.min (List.length D) (3 * S m))
                         (skipn (Nat.min (List.length D) (3 * S m)) D ++ B) cs)).
Proof.
  induction m as [|m IH]; intros D q cs HD.
  - unfold first_is. cbn [nik_groups]. rewrite matcher_digits13.
    rewrite (run_app_stop is_digit D B (swd_stops_class B (stops_head B HB))).
    rewrite (run_all_length is_digit D HD). split.
    + intros H. replace (List.length D) with 0 by lia. reflexivity.
    + intros H. change (3 * 1) with 3.
      destruct (Nat.min (List.length D) 3) as [|j] eqn:Ej; [lia|].
      rewrite downto_cons by lia. cbn [map]. eexists. f_equal.
      unfold adv. cbn [pos rest caps]. f_equal.
      rewrite skipn_app. replace (S j - List.length D) with 0 by lia. reflexivity.
  - unfold first_is. rewrite (nik_groups_S m D q cs HD).
    set (k := List.length D).
    assert (Hnil : forall j, j <= k -> k - j <= m ->
              matcher (nik_groups m) (MState (q + j) (skipn j D ++ B) cs) = []).
    { intros j Hj Hm. apply (IH (skipn j D) (q + j) cs (forallb_skipn _ j D HD)).
      rewrite length_skipn. fold k. lia. }
    assert (Hfst : forall j, j <= k -> m < k - j ->
              j + Nat.min (k - j) (3 * S m) = Nat.min k (3 * S (S m)) ->
              exists tl,
                matcher (nik_groups m) (MState (q + j) (skipn j D ++ B) cs)
                = MState (q + Nat.min k (3 * S (S m)))
                         (skipn (Nat.min k (3 * S (S m))) D ++ B) cs :: tl).
    { intros j Hj Hm Hc.
      destruct (IH (skipn j D) (q + j) cs (forallb_skipn _ j D HD)) as [_ H].
      rewrite length_skipn in H. fold k in H. specialize (H Hm).
      destruct H as (tl & H). exists tl. rewrite H. f_equal.
      rewrite skipn_skipn. f_equal; [lia|]. f_equal. f_equal. lia. }
    split.
    + intros Hk. apply flat_map_nil_In. intros j Hj.
      unfold downto in Hj. apply in_rev, in_seq in Hj. apply Hnil; lia.
    + intros Hk.
      destruct (Nat.eq_dec k 2) as [E2|E2].
      * rewrite E2. change (downto (Nat.min 2 3) 1) with [2; 1].
        cbn [flat_map]. rewrite (Hnil 2) by lia.
        destruct (Hfst 1) as (tl & ->); [lia | lia | lia |].
        rewrite <- E2. eexists. reflexivity.
      * replace (Nat.min k 3) with 3 by lia.
        change (downto 3 1) with [3; 2; 1]. cbn [flat_map].
        destruct (Nat.lt_ge_cases m (k - 3)) as [H3|H3].
        { destruct (Hfst 3) as (tl & ->); [lia | lia | lia |].
          eexists. reflexivity. }
        rewrite (Hnil 3) by lia.
        destruct (Nat.lt_ge_cases m (k - 2)) as [H2|H2].
        { destruct (Hfst 2) as (tl & ->); [lia | lia | lia |].
          eexists. reflexivity. }
        rewrite (Hnil 2) by lia.
        destruct (Hfst 1) as (tl & ->); [lia | lia | lia |].
        eexists. reflexivity.
Qed.

End DigitGroups.

(** ** The label letters *)

Lemma lit_ci_letter (u x : N) :
  (65 <= u <= 90)%N -> lit_ci u x = true -> x = u \/ x = (u + 32)%N.
Proof.
  intros Hu. unfold lit_ci, canonicalize.
  replace ((97 <=? u) && (u <=? 122))%N with false
    by (symmetry; apply andb_false_iff; left; apply N.leb_gt; lia).
  cbv iota.
  destruct ((97 <=? x) && (x <=? 122))%N eqn:E; intros H; apply N.eqb_eq in H.
  - apply andb_true_iff in E. destruct E as [E1 E2].
    apply N.leb_le in E1, E2. right. lia.
  - now left.
Qed.

Lemma label_letters lab :
  starts_label lab = true -> List.length lab = 3 ->
  exists l1 l2 l3 : char,
    lab = [l1; l2; l3]
    /\ (l1 = 78 \/ l1 = 110)%N /\ (l2 = 73 \/ l2 = 105)%N /\ (l3 = 75 \/ l3 = 107)%N.
Proof.
  destruct lab as [|l1 [|l2 [|l3 [|x lab]]]]; cbn [starts_label List.length];
    try discriminate.
  intros H _. apply andb_true_iff in H. destruct H as [H H3].
  apply andb_true_iff in H. destruct H as [H1 H2].
  exists l1, l2, l3. split; [reflexivity|].
  apply (lit_ci_letter 78) in H1; [|lia].
  apply (lit_ci_letter 73) in H2; [|lia].
  apply (lit_ci_letter 75) in H3; [|lia]. auto.
Qed.

Lemma exec_from_cons r p c t :
  exec_from r p (c :: t) =
  match match_at r p (c :: t) with
  | Some e => Some (p, c :: t, e)
  | None => exec_from r (S p) t
  end.
Proof. reflexivity. Qed.

(** Before the label nothing matches when the label does not occur there:
    no occurrence can straddle the boundary either. *)
Lemma exec_skip_label (l1 l2 l3 : char) (R : jsstring) :
  (l1 = 78 \/ l1 = 110)%N ->
  forall A q,
    has_label A = false ->
    exec_from re_nik_label q (A ++ l1 :: l2 :: l3 :: R)
    = exec_from re_nik_label (q + List.length A) (l1 :: l2 :: l3 :: R).
Proof.
  intros H1. induction A as [|c A IH]; intros q HA.
  - cbn. now rewrite Nat.add_0_r.
  - cbn [has_label] in HA. apply orb_false_iff in HA. destruct HA as [Hs HA].
    cbn [app]. rewrite exec_from_cons. unfold match_at at 1. rewrite nik_label_fail.
    + cbn [hd_error]. rewrite IH by exact HA. cbn [List.length].
      now replace (q + S (List.length A)) with (S q + List.length A) by lia.
    + cbn [rest]. destruct A as [|c2 [|c3 A]]; cbn [app starts_label] in *.
      * destruct H1 as [-> | ->]; cbn; now rewrite andb_false_r.
      * destruct H1 as [-> | ->]; cbn; apply andb_false_r.
      * exact Hs.
Qed.

(** ** What follows the number *)

Lemma trim_start_snoc X c :
  trim_start (X ++ [c]) =
  match trim_start X with
  | [] => if is_space c then [] else [c]
  | l => l ++ [c]
  end.
Proof.
  induction X as [|x X IH]; cbn [app trim_start]; [reflexivity|].
  destruct (is_space x); [exact IH | reflexivity].
Qed.

Lemma trim_end_cons c t :
  trim_end (c :: t) =
  match trim_end t with
  | [] => if is_space c then [] else [c]
  | l => c :: l
  end.
Proof.
  unfold trim_end. cbn [rev]. rewrite trim_start_snoc.
  destruct (trim_start (rev t)) as [|x l].
  - cbn [rev]. now destruct (is_space c).
  - rewrite rev_app_distr. cbn [rev app].
    destruct (rev l ++ [x]) eqn:E; [|reflexivity].
    apply (f_equal (@List.length _)) in E. rewrite length_app in E. cbn in E. lia.
Qed.

Lemma swd_trim_end X :
  starts_with_digit (trim_end X) = true -> starts_with_digit X = true.
Proof.
  destruct X as [|c t]; [auto|]. rewrite trim_end_cons.
  destruct (trim_end t); [destruct (is_space c)|]; cbn; auto; discriminate.
Qed.

Lemma space_not_digit c : is_space c = true -> is_digit c = false.
Proof.
  intros H. destruct (is_digit c) eqn:E; [|reflexivity].
  now rewrite (digit_not_space c E) in H.
Qed.

Lemma swd_squeeze_false s :
  starts_with_digit (squeeze is_space space_str false s) = starts_with_digit s.
Proof.
  destruct s as [|c t]; [reflexivity|]. cbn [squeeze].
  destruct (is_space c) eqn:E; [|reflexivity].
  cbn. symmetry. now apply space_not_digit.
Qed.

Lemma swd_squeeze_true s :
  starts_with_digit (squeeze is_space space_str true s)
  = starts_with_digit (trim_start s).
Proof.
  induction s as [|c t IH]; [reflexivity|]. cbn [squeeze trim_start].
  destruct (is_space c); [exact IH | reflexivity].
Qed.

Lemma swd_norm_right s :
  starts_with_digit s = false -> starts_with_digit (norm_right s) = false.
Proof.
  intros H. apply not_true_is_false. intros Hn. unfold norm_right in Hn.
  apply swd_trim_end in Hn. rewrite swd_squeeze_false in Hn. congruence.
Qed.

Lemma stops_norm_right post :
  ends_number post = true -> stops (norm_right post) = true.
Proof.
  destruct post as [|c t]; [reflexivity|]. cbn [ends_number]. intros H.
  apply andb_true_iff in H. destruct H as [H Hsp].
  apply andb_true_iff in H. destruct H as [Hd H45].
  apply negb_true_iff in Hd, H45, Hsp.
  destruct (is_space c) eqn:Ec.
  - cbn [andb] in Hsp. unfold norm_right. cbn [squeeze]. rewrite Ec.
    change (space_str ++ squeeze is_space space_str true t)
      with (32%N :: squeeze is_space space_str true t).
    rewrite trim_end_cons.
    destruct (trim_end (squeeze is_space space_str true t)) as [|x l] eqn:E;
      [reflexivity|].
    cbn [stops]. change (is_digit 32%N) with false.
    change (is_sepdash 32%N) with true.
    cbn [negb andb]. apply negb_true_iff. apply not_true_is_false. intros Hx.
    assert (Hx' : starts_with_digit (trim_end (squeeze is_space space_str true t)) = true)
      by (rewrite E; exact Hx).
    apply swd_trim_end in Hx'. rewrite swd_squeeze_true in Hx'. congruence.
  - rewrite norm_right_cons by exact Ec. cbn [stops]. rewrite Hd. cbn [negb andb].
    unfold is_sepdash. rewrite Ec. cbn [orb].
    destruct (c =? 45)%N; [|reflexivity]. cbn [andb] in H45 |- *.
    now rewrite swd_norm_right.
Qed.

Lemma norm_right_app_keep c : is_space c = false ->
  forall X Y,
    norm_right (X ++ c :: Y) = squeeze is_space space_str false X ++ c :: norm_right Y.
Proof.
  intros Hc X Y. unfold norm_right.
  rewrite squeeze_app_keep by exact Hc. now apply trim_end_app_keep.
Qed.

Lemma has_label_norm_left s :
  has_label s = false -> has_label (norm_left s) = false.
Proof.
  intros H. apply not_true_is_false. intros Hc. unfold norm_left in Hc.
  destruct (trim_start_suffix (squeeze is_space space_str false s)) as (z & Hz).
  apply (has_label_app_r z _) in Hc. rewrite <- Hz in Hc.
  apply has_label_squeeze in Hc. congruence.
Qed.

Lemma first_Star p q t cs :
  first_is (Star (Chr p)) (MState q t cs)
           (MState (q + run p t) (skipn (run p t) t) cs).
Proof.
  apply first_Rep_Chr; [intros m [=] | reflexivity | lia].
Qed.

Lemma squeeze_labelsep s b :
  forallb is_labelsep s = true ->
  forallb is_labelsep (squeeze is_space space_str b s) = true.
Proof.
  rewrite !forallb_Forall. apply squeeze_Forall. repeat constructor.
Qed.

(** ** The labelled strategy on a labelled number *)

Lemma first_is_eq r s e e' : first_is r s e -> e = e' -> first_is r s e'.
Proof. now intros H <-. Qed.

Lemma number16_digits n :
  is_number16 n = true -> List.length n = 16 /\ forallb is_digit n = true.
Proof.
  unfold is_number16. intros H. apply andb_true_iff in H.
  destruct H as [H1 H2]. now apply Nat.eqb_eq in H1.
Qed.

Lemma strip_sepdash_digits n :
  forallb is_digit n = true -> replace_all re_sepdash [] n = n.
Proof.
  intros H. rewrite strip_sepdash.
  - now apply filter_digit_all.
  - rewrite forallb_forall in *. intros c Hc. unfold digit_or_sep.
    now rewrite (H c Hc).
Qed.

Lemma method1_labelled (A : jsstring) (l1 l2 l3 : char) (seps n B : jsstring) :
  (l1 = 78 \/ l1 = 110)%N -> (l2 = 73 \/ l2 = 105)%N -> (l3 = 75 \/ l3 = 107)%N ->
  has_label A = false ->
  forallb is_labelsep seps = true ->
  is_number16 n = true ->
  stops B = true ->
  method1 (A ++ l1 :: l2 :: l3 ::  seps ++ n ++ B) = Some n.
Proof.
  intros H1 H2 H3 HA HS Hn HB.
  destruct (number16_digits n Hn) as [Hlen Hdig].
  assert (HY : starts_with_digit (n ++ B) = true).
  { destruct n as [|d n']; [discriminate Hlen|]. cbn in *.
    apply andb_true_iff in Hdig. tauto. }
  assert (HYs : stops_class is_space (n ++ B)).
  { destruct (n ++ B) as [|d Y]; [exact I|]. cbn in *. now apply digit_not_space. }
  assert (HYl : stops_class is_labelsep (n ++ B)).
  { destruct (n ++ B) as [|d Y]; [exact I|]. cbn in *. now apply digit_not_labelsep. }
  set (q := 0 + List.length A).
  set (q3 := S (S (S q))).
  set (r1 := run is_space seps).
  assert (Hr1 : r1 <= List.length seps) by apply run_le.
  assert (F1 : first_is (Star space) (MState q3 (seps ++ n ++ B) [])
                        (MState (q3 + r1) (skipn r1 seps ++ n ++ B) [])).
  { eapply first_is_eq; [apply first_Star|].
    rewrite (run_app_stop is_space seps (n ++ B) HYs). fold r1.
    rewrite skipn_app. replace (r1 - List.length seps) with 0 by lia. reflexivity. }
  assert (F2 : first_is (Star (Chr is_labelsep))
                        (MState (q3 + r1) (skipn r1 seps ++ n ++ B) [])
                        (MState (q3 + List.length seps) (n ++ B) [])).
  { eapply first_is_eq; [apply first_Star|].
    rewrite (run_app_stop is_labelsep (skipn r1 seps) (n ++ B) HYl).
    rewrite (run_all_length is_labelsep _ (forallb_skipn _ r1 seps HS)).
    rewrite length_skipn, skipn_app, skipn_all2 by (rewrite length_skipn; lia).
    rewrite length_skipn, Nat.sub_diag. cbn [skipn app]. f_equal. lia. }
  assert (F3 : first_is (Star space) (MState (q3 + List.length seps) (n ++ B) [])
                        (MState (q3 + List.length seps) (n ++ B) [])).
  { eapply first_is_eq; [apply first_Star|].
    rewrite (run_stop is_space (n ++ B) HYs). cbn [skipn]. f_equal. lia. }
  assert (F4 : first_is re_nik_groups (MState (q3 + List.length seps) (n ++ B) [])
                        (MState (q3 + List.length seps + 16) B [])).
  { rewrite re_nik_groups_eq.
    destruct (nik_groups_first B HB 7 n (q3 + List.length seps) [] Hdig) as [_ F].
    eapply first_is_eq; [apply F; lia|].
    rewrite Hlen. change (Nat.min 16 (3 * 8)) with 16.
    rewrite skipn_all2 by lia. reflexivity. }
  assert (F : first_is re_nik_label (MState q (l1 :: l2 :: l3 ::  seps ++ n ++ B) [])
                (close_group 1 (MState (q3 + List.length seps) (n ++ B) [])
                               (MState (q3 + List.length seps + 16) B []))).
  { unfold re_nik_label. cbn [seqs].
    eapply first_Seq; [apply first_Chr; destruct H1 as [-> | ->]; reflexivity|].
    eapply first_Seq; [apply first_Chr; destruct H2 as [-> | ->]; reflexivity|].
    eapply first_Seq; [apply first_Chr; destruct H3 as [-> | ->]; reflexivity|].
    eapply first_Seq; [exact F1|].
    eapply first_Seq; [exact F2|].
    eapply first_Seq; [exact F3|].
    apply first_Group. exact F4. }
  unfold method1, match_first.
  rewrite (exec_skip_label l1 l2 l3 (seps ++ n ++ B) H1 A 0 HA). fold q.
  rewrite exec_from_cons, (first_match_at _ _ _ _ F).
  cbn [m1 close_group caps get_cap find fst snd Nat.eqb pos rest].
  replace (q3 + List.length seps + 16 - (q3 + List.length seps)) with (List.length n) by lia.
  rewrite firstn_app, firstn_all, Nat.sub_diag. cbn [firstn]. rewrite app_nil_r.
  rewrite (strip_sepdash_digits n Hdig).
  unfold is_number16 in Hn. rewrite is_nik_spec, Hn. reflexivity.
Qed.

(** C2, amended. When the text up to the label holds no other occurrence of
    "NIK" and the 16 digits after the label are not followed by a digit, by
    a dash and a digit, or by whitespace and a digit, the labelled strategy
    yields the labelled number and [extractNIK] returns it, whatever other
    16-digit numbers the text holds; the other strategies are not
    consulted. *)
Theorem extractNIK_labelled (pre lab sep n post : jsstring) :
  labelled lab sep n post ->
  has_label pre = false ->
  ends_number post = true ->
  method1 (cleanText (pre ++ lab ++ sep ++ n ++ post)) = Some n
  /\ extractNIK (pre ++ lab ++ sep ++ n ++ post) = Some n.
Proof.
  intros (Hlab & Hlen & Hsep & Hn & _) Hpre Hpost.
  destruct (label_letters lab Hlab Hlen) as (l1 & l2 & l3 & -> & H1 & H2 & H3).
  destruct (number16_digits n Hn) as [Hnlen Hdig].
  assert (Hm : method1 (cleanText (pre ++ [l1; l2; l3] ++ sep ++ n ++ post)) = Some n).
  { destruct n as [|d n']; [discriminate Hnlen|].
    pose proof Hdig as Hdig'. cbn [forallb] in Hdig'.
    apply andb_true_iff in Hdig'. destruct Hdig' as [Hd Hn'].
    assert (S1 : is_space l1 = false) by (destruct H1 as [-> | ->]; reflexivity).
    assert (S2 : is_space l2 = false) by (destruct H2 as [-> | ->]; reflexivity).
    assert (S3 : is_space l3 = false) by (destruct H3 as [-> | ->]; reflexivity).
    change (pre ++ [l1; l2; l3] ++ sep ++ (d :: n') ++ post)
      with (pre ++ l1 :: (l2 :: l3 :: sep ++ d :: (n' ++ post))).
    rewrite (cleanText_app_keep l1 S1).
    rewrite (norm_right_cons l2 S2), (norm_right_cons l3 S3).
    rewrite (norm_right_app_keep d (digit_not_space d Hd)).
    rewrite (digit_keep n' post Hn').
    change (norm_left pre ++ l1 :: l2 :: l3 ::
              squeeze is_space space_str false sep ++ d :: n' ++ norm_right post)
      with (norm_left pre ++ l1 :: l2 :: l3 ::
              squeeze is_space space_str false sep ++ (d :: n') ++ norm_right post).
    apply method1_labelled; auto.
    - now apply has_label_norm_left.
    - now apply squeeze_labelsep.
    - now apply stops_norm_right. }
  split; [exact Hm|]. unfold extractNIK.
  destruct (pre ++ [l1; l2; l3] ++ sep ++ n ++ post) as [|c0 t0] eqn:E.
  { apply (f_equal (@List.length _)) in E. rewrite !length_app in E. cbn in E. lia. }
  cbv zeta. now rewrite Hm.
Qed.

Lemma extractNIK_labelled_witness :
  method1 (cleanText (js "Provinsi 9999999999999999 " ++ js "nik" ++ js " : "
                      ++ js "3201014503900021" ++ js " - 5 Nama"))
  = Some (js "3201014503900021")
  /\ extractNIK (js "Provinsi 9999999999999999 " ++ js "nik" ++ js " : "
                 ++ js "3201014503900021" ++ js " - 5 Nama")
     = Some (js "3201014503900021").
Proof.
  apply extractNIK_labelled.
  - repeat split; vm_compute; reflexivity.
  - vm_compute; reflexivity.
  - vm_compute; reflexivity.
Defined.

(** ** The scenario of the specification *)

Ltac rep_step :=
  eapply first_Seq;
  [ apply first_Rep_Chr; [intros ? [= <-]; lia | cbn; reflexivity | lia]
  | cbn [skipn] ].

Lemma scenario_groups_first B q cs :
  starts_with_digit B = false ->
  first_is re_nik_groups
           (MState q (js "3201 0145 0390 0021" ++ B) cs)
           (MState (q + 19) B cs).
Proof.
  intros HB.
  assert (Hrun : run is_digit B = 0) by (apply run_stop; now apply swd_stops_class).
  let l := eval vm_compute in (js "3201 0145 0390 0021") in
  change (js "3201 0145 0390 0021") with l.
  cbn [app]. unfold re_nik_groups, digits13, Opt, digit, sepdash. cbn [seqs].
  eapply first_is_eq.
  - do 14 rep_step.
    apply first_Rep_Chr; [intros ? [= <-]; lia | cbn [bound run is_digit]; cbn; rewrite Hrun; reflexivity | lia].
  - cbn [skipn]. f_equal. lia.
Qed.

Lemma method1_scenario A B :
  has_label A = false -> starts_with_digit B = false ->
  method1 (A ++ scenario ++ B) = Some (js "3201014503900021").
Proof.
  intros HA HB.
  set (q := 0 + List.length A).
  assert (F : first_is re_nik_label
                (MState q (scenario ++ B) [])
                (close_group 1 (MState (q + 5) (js "3201 0145 0390 0021" ++ B) [])
                               (MState (q + 5 + 19) B []))).
  { unfold re_nik_label. cbn [seqs].
    let l := eval vm_compute in scenario in change scenario with l.
    cbn [app].
    eapply first_Seq; [apply first_Chr; reflexivity|].
    eapply first_Seq; [apply first_Chr; reflexivity|].
    eapply first_Seq; [apply first_Chr; reflexivity|].
    unfold Star, space. do 3 rep_step.
    eapply first_is_eq; [apply first_Group, scenario_groups_first, HB|].
    f_equal; f_equal; lia. }
  unfold method1, match_first.
  change (scenario ++ B)
    with (78%N :: 73%N :: 75%N :: js ": 3201 0145 0390 0021" ++ B) in *.
  rewrite (exec_skip_label 78%N 73%N 75%N _ (or_introl eq_refl) A 0 HA). fold q.
  rewrite exec_from_cons.
  match goal with
  | |- context [match_at ?r ?p ?t] =>
      replace (match_at r p t)
        with (Some (close_group 1 (MState (q + 5) (js "3201 0145 0390 0021" ++ B) [])
                                  (MState (q + 5 + 19) B [])))
        by (symmetry; apply first_match_at; exact F)
  end.
  cbn [m1 close_group caps get_cap find fst snd Nat.eqb pos rest].
  replace (q + 5 + 19 - (q + 5)) with 19 by lia.
  let l := eval vm_compute in (js "3201 0145 0390 0021") in
  change (js "3201 0145 0390 0021") with l.
  cbn [app firstn].
  vm_compute. reflexivity.
Qed.

(** C4, amended. A text that holds ["NIK: 3201 0145 0390 0021"] yields
    ["3201014503900021"] provided the label does not occur before the
    substring and no digit follows it. *)
Theorem extractNIK_scenario (pre post : jsstring) :
  has_label pre = false ->
  starts_with_digit post = false ->
  extractNIK (pre ++ js "NIK: 3201 0145 0390 0021" ++ post)
  = Some (js "3201014503900021").
Proof.
  intros Hpre Hpost.
  assert (Hm : method1 (cleanText (pre ++ js "NIK: 3201 0145 0390 0021" ++ post))
               = Some (js "3201014503900021")).
  { change (pre ++ js "NIK: 3201 0145 0390 0021" ++ post)
      with (pre ++ 78%N :: (js "IK: 3201 0145 0390 002" ++ 49%N :: post)).
    rewrite (cleanText_app_keep 78%N eq_refl).
    rewrite (norm_right_app_keep 49%N eq_refl).
    change (norm_left pre ++ 78%N ::
              squeeze is_space space_str false (js "IK: 3201 0145 0390 002")
              ++ 49%N :: norm_right post)
      with (norm_left pre ++ scenario ++ norm_right post).
    apply method1_scenario.
    - now apply has_label_norm_left.
    - now apply swd_norm_right. }
  unfold extractNIK.
  destruct (pre ++ js "NIK: 3201 0145 0390 0021" ++ post) as [|c0 t0] eqn:E.
  { apply (f_equal (@List.length _)) in E. rewrite !length_app in E. cbn in E. lia. }
  cbv zeta. now rewrite Hm.
Qed.

Lemma extractNIK_scenario_witness :
  extractNIK (js "PROVINSI JAWA BARAT 1111111111111111 "
              ++ js "NIK: 3201 0145 0390 0021" ++ js " Nama: BUDI")
  = Some (js "3201014503900021").
Proof.
  apply extractNIK_scenario; vm_compute; reflexivity.
Defined.

(** * [extractNIK]: further properties *)

(** ** The normalisation is idempotent *)

Lemma tidy_squeeze : forall s b, tidy b (squeeze is_space space_str b s) = true.
Proof.
  induction s as [|c t IH]; intros b; [reflexivity|]. cbn [squeeze].
  destruct (is_space c) eqn:Ec.
  - destruct b; cbn [app]; [apply IH|].
    change (space_str ++ squeeze is_space space_str true t)
      with (32%N :: squeeze is_space space_str true t).
    cbn [tidy]. change (is_space 32%N) with true. cbn. apply IH.
  - cbn [tidy]. rewrite Ec. apply IH.
Qed.

Lemma squeeze_tidy : forall s b,
  tidy b s = true -> squeeze is_space space_str b s = s.
Proof.
  induction s as [|c t IH]; intros b H; [reflexivity|]. cbn [tidy squeeze] in *.
  destruct (is_space c) eqn:Ec.
  - apply andb_true_iff in H. destruct H as [H Ht].
    apply andb_true_iff in H. destruct H as [Hb Hc].
    destruct b; [discriminate|]. apply N.eqb_eq in Hc. subst c.
    rewrite (IH true Ht). reflexivity.
  - now rewrite (IH false H).
Qed.

Lemma tidy_app_l : forall x y b, tidy b (x ++ y) = true -> tidy b x = true.
Proof.
  induction x as [|c x IH]; intros y b H; [reflexivity|].
  cbn [app tidy] in *. destruct (is_space c).
  - apply andb_true_iff in H. destruct H as [H Ht]. rewrite H. cbn.
    now apply (IH y).
  - now apply (IH y).
Qed.

Lemma tidy_trim_start : forall s b,
  tidy b s = true -> tidy false (trim_start s) = true.
Proof.
  induction s as [|c t IH]; intros b H; [reflexivity|].
  cbn [trim_start]. cbn [tidy] in H. destruct (is_space c) eqn:Ec.
  - apply andb_true_iff in H. destruct H as [_ Ht]. now apply (IH true).
  - cbn [tidy]. now rewrite Ec.
Qed.

Lemma tidy_trim_end s b : tidy b s = true -> tidy b (trim_end s) = true.
Proof.
  intros H. destruct (trim_end_prefix s) as (z & Hz). rewrite Hz in H.
  now apply tidy_app_l in H.
Qed.

Lemma trim_start_stops s : stops_class is_space (trim_start s).
Proof.
  induction s as [|c t IH]; [exact I|]. cbn [trim_start].
  destruct (is_space c) eqn:Ec; [exact IH | exact Ec].
Qed.

Lemma trim_start_fix s : stops_class is_space s -> trim_start s = s.
Proof. destruct s as [|c t]; [reflexivity|]. cbn. now intros ->. Qed.

Lemma trim_end_stops s : stops_class is_space s -> stops_class is_space (trim_end s).
Proof.
  destruct s as [|c t]; [intros _; exact I|]. cbn [stops_class]. intros Ec.
  change (c :: t) with ([] ++ c :: t).
  rewrite (trim_end_app_keep c Ec [] t). exact Ec.
Qed.

Lemma trim_end_idem s : trim_end (trim_end s) = trim_end s.
Proof.
  unfold trim_end. rewrite rev_involutive.
  now rewrite (trim_start_fix _ (trim_start_stops (rev s))).
Qed.

Lemma trim_idem s : trim (trim s) = trim s.
Proof.
  unfold trim.
  rewrite (trim_start_fix _ (trim_end_stops _ (trim_start_stops s))).
  apply trim_end_idem.
Qed.

Lemma cleanText_tidy s : tidy false (cleanText s) = true.
Proof.
  rewrite cleanText_spec. unfold trim.
  apply tidy_trim_end, (tidy_trim_start _ false), tidy_squeeze.
Qed.

Lemma cleanText_idem s : cleanText (cleanText s) = cleanText s.
Proof.
  rewrite (cleanText_spec (cleanText s)), (squeeze_tidy _ _ (cleanText_tidy s)).
  rewrite cleanText_spec. apply trim_idem.
Qed.

(** X1. The normalisation of [extractNIK] is idempotent, and normalising the
    text beforehand does not change the result: [extractNIK] depends on the
    text only through its normalised form. *)
Theorem extractNIK_normalised (text : jsstring) :
  cleanText (cleanText text) = cleanText text
  /\ extractNIK (cleanText text) = extractNIK text.
Proof.
  split; [apply cleanText_idem|].
  destruct text as [|c t]; [reflexivity|].
  unfold extractNIK at 2. cbv zeta.
  unfold extractNIK. destruct (cleanText (c :: t)) as [|c' t'] eqn:E; [reflexivity|].
  cbv zeta. rewrite <- E, cleanText_idem. reflexivity.
Qed.

(** ** The digits of the result are digits of the text *)

Lemma filter_digit_strip s : filter is_digit (strip_space s) = filter is_digit s.
Proof.
  unfold strip_space. induction s as [|c t IH]; [reflexivity|]. cbn [filter].
  destruct (is_space c) eqn:Ec; cbn [negb filter]; rewrite IH.
  - now rewrite (space_not_digit _ Ec).
  - reflexivity.
Qed.

Lemma filter_digit_cleanText s :
  filter is_digit (cleanText s) = filter is_digit s.
Proof.
  rewrite <- (filter_digit_strip (cleanText s)), <- (filter_digit_strip s).
  f_equal. rewrite cleanText_spec. unfold trim.
  now rewrite strip_space_trim_end, strip_space_trim_start, strip_space_squeeze.
Qed.

Lemma method1_digits clean nik :
  method1 clean = Some nik ->
  exists a b, filter is_digit clean = a ++ nik ++ b.
Proof.
  unfold method1.
  destruct (match_first re_nik_label clean) as [mr|] eqn:E; [|discriminate].
  destruct (nik_label_capture _ _ E) as (pre & raw & post & -> & -> & F).
  rewrite strip_sepdash by exact F.
  destruct (is_nik (filter is_digit raw)); [|discriminate]. intros [= <-].
  exists (filter is_digit pre), (filter is_digit post).
  now rewrite !filter_app.
Qed.

Lemma method2_loop_pick l nik :
  method2_loop l = Some nik ->
  exists w, In w l /\ nik = firstn 16 (filter is_digit w).
Proof.
  induction l as [|w l IH]; cbn [method2_loop]; [discriminate|].
  rewrite strip_nondigit, is_nik_spec. unfold substring0.
  destruct (List.length (filter is_digit w) =? 16) eqn:E16.
  - destruct (forallb is_digit (filter is_digit w)); cbn [andb].
    + intros [= <-]. exists w. split; [now left|]. apply Nat.eqb_eq in E16.
      now rewrite <- E16, firstn_all.
    + replace (16 <? List.length (filter is_digit w)) with false
        by (symmetry; apply Nat.ltb_ge; apply Nat.eqb_eq in E16; lia).
      intros H. destruct (IH H) as (w' & Hin & Hw'). exists w'. split; [now right | exact Hw'].
  - cbn [andb]. destruct (16 <? List.length (filter is_digit w)).
    + destruct (test re_16digits (firstn 16 (filter is_digit w))).
      * intros [= <-]. exists w. split; [now left | reflexivity].
      * intros H. destruct (IH H) as (w' & Hin & Hw'). exists w'. split; [now right | exact Hw'].
    + intros H. destruct (IH H) as (w' & Hin & Hw'). exists w'. split; [now right | exact Hw'].
Qed.

Lemma method2_digits clean nik :
  method2 clean = Some nik ->
  exists a b, filter is_digit clean = a ++ nik ++ b.
Proof.
  unfold method2, match_all.
  set (l := flat_map _ (gscan re_digit_runs 0 0 clean)).
  assert (Hl : forall w, In w l -> In (Matched w) (gscan re_digit_runs 0 0 clean)).
  { intros w Hw. unfold l in Hw. apply in_flat_map in Hw.
    destruct Hw as ([c|w'] & Hin & Hw); [destruct Hw|].
    destruct Hw as [<-|[]]. exact Hin. }
  destruct l as [|w0 l0] eqn:El; [discriminate|]. intros H.
  apply method2_loop_pick in H. destruct H as (w & Hin & ->).
  apply Hl in Hin.
  destruct (gscan_sound digit_or_sep _ chars_in_digit_runs _ _ _ _ Hin)
    as (pre & post & -> & _).
  exists (filter is_digit pre), (skipn 16 (filter is_digit w) ++ filter is_digit post).
  rewrite !filter_app, app_assoc, (app_assoc (firstn _ _)), firstn_skipn.
  now rewrite <- app_assoc.
Qed.

Lemma fields_hd_prefix p : forall s, exists post, s = hd [] (fields p s) ++ post.
Proof.
  induction s as [|c t (post & IH)]; [now exists []|].
  rewrite fields_step. destruct (p c); cbn [hd].
  - now exists (c :: t).
  - exists post. cbn [app]. now rewrite <- IH.
Qed.

Lemma fields_tl_substring p : forall s w,
  In w (tl (fields p s)) -> exists pre post, s = pre ++ w ++ post.
Proof.
  induction s as [|c t IH]; intros w; [intros []|].
  rewrite fields_step. destruct (p c); cbn [tl].
  - rewrite (fields_cons p t). intros [<-|H].
    + destruct (fields_hd_prefix p t) as (post & E).
      exists [c], post. cbn [app]. now rewrite <- E.
    + destruct (IH w H) as (pre & post & ->). now exists (c :: pre), post.
  - intros H. destruct (IH w H) as (pre & post & ->). now exists (c :: pre), post.
Qed.

Lemma fields_substring p s w :
  In w (fields p s) -> exists pre post, s = pre ++ w ++ post.
Proof.
  rewrite (fields_cons p s). intros [<-|H].
  - destruct (fields_hd_prefix p s) as (post & E). now exists [], post.
  - now apply (fields_tl_substring p).
Qed.

Lemma method3_loop_pick l nik :
  method3_loop l = Some nik -> exists w, In w l /\ nik = filter is_digit w.
Proof.
  induction l as [|w l IH]; cbn [method3_loop]; [discriminate|].
  rewrite strip_nondigit. destruct (is_nik (filter is_digit w)).
  - intros [= <-]. exists w. split; [now left | reflexivity].
  - intros H. destruct (IH H) as (w' & Hin & Hw'). exists w'. split; [now right | exact Hw'].
Qed.

Lemma method3_digits clean nik :
  method3 clean = Some nik ->
  exists a b, filter is_digit clean = a ++ nik ++ b.
Proof.
  unfold method3. intros H. apply method3_loop_pick in H.
  destruct H as (w & Hin & ->). apply split_fields, fields_substring in Hin.
  destruct Hin as (pre & post & ->).
  exists (filter is_digit pre), (filter is_digit post). now rewrite !filter_app.
Qed.

Lemma extractNIK_is_number16 text nik :
  extractNIK text = Some nik -> is_number16 nik = true.
Proof.
  intros H.
  assert (H' : List.length nik = 16 /\ forallb is_digit nik = true).
  { revert H. unfold extractNIK. destruct text as [|c t]; [discriminate|].
    cbv zeta.
    destruct (method1 (cleanText (c :: t))) as [n1|] eqn:E1.
    - intros [= <-]. eapply method1_nik; eauto.
    - destruct (method2 (cleanText (c :: t))) as [n2|] eqn:E2.
      + intros [= <-]. unfold method2 in E2.
        destruct (match_all re_digit_runs (cleanText (c :: t))); [|discriminate].
        eapply method2_loop_nik; eauto.
      + unfold method3. apply method3_loop_nik. }
  destruct H' as [H1 H2]. unfold is_number16. now rewrite H1, H2.
Qed.

(** X2. The number [extractNIK] returns is never made up: its 16 digits are
    consecutive digits of the text once everything but the digits is
    removed, in the same order. In particular a text that yields a number
    holds at least 16 digits. *)
Theorem extractNIK_digits_of_text (text nik : jsstring) :
  extractNIK text = Some nik ->
  (exists a b, filter is_digit text = a ++ nik ++ b)
  /\ 16 <= count_digits text.
Proof.
  intros H.
  assert (Hblock : exists a b, filter is_digit text = a ++ nik ++ b).
  { revert H. unfold extractNIK. destruct text as [|c t]; [discriminate|]. cbv zeta.
    rewrite <- (filter_digit_cleanText (c :: t)).
    destruct (method1 (cleanText (c :: t))) as [n1|] eqn:E1.
    - intros [= <-]. now apply method1_digits.
    - destruct (method2 (cleanText (c :: t))) as [n2|] eqn:E2.
      + intros [= <-]. now apply method2_digits.
      + apply method3_digits. }
  split; [exact Hblock|].
  destruct Hblock as (a & b & E). unfold count_digits. rewrite E, !length_app.
  apply extractNIK_is_number16, number16_digits in H. lia.
Qed.

Lemma extractNIK_digits_of_text_witness :
  (exists a b,
     filter is_digit (js "RT 001/002 NIK 3201-0145-0390-0021 Kode 40123")
     = a ++ js "3201014503900021" ++ b)
  /\ 16 <= count_digits (js "RT 001/002 NIK 3201-0145-0390-0021 Kode 40123").
Proof.
  apply extractNIK_digits_of_text. vm_compute. reflexivity.
Defined.

(** ** A run of at least 16 digits *)

(** X3. In a text without the label "NIK" whose first digits form an
    unbroken run [D] of 16 digits or more, which whitespace or dashes
    followed by a digit do not continue, [extractNIK] returns the first 16
    digits of the run: a longer number is cut, not rejected. What follows
    the run may hold further numbers. *)
Theorem extractNIK_long_run (A D B : jsstring) :
  forallb not_digit A = true ->
  forallb is_digit D = true -> 16 <= List.length D ->
  run_here B = 0 ->
  has_label (A ++ D ++ B) = false ->
  extractNIK (A ++ D ++ B) = Some (firstn 16 D).
Proof.
  intros HA HD Hlen HB Hlab.
  assert (H1 : method1 (cleanText (A ++ D ++ B)) = None)
    by now apply method1_no_label, has_label_cleanText.
  assert (H2 : method2 (cleanText (A ++ D ++ B)) = Some (firstn 16 D)).
  { destruct D as [|d D']; [cbn in Hlen; lia|].
    pose proof HD as HD'. cbn [forallb] in HD'. apply andb_true_iff in HD'.
    destruct HD' as [Hd HD'].
    change (A ++ (d :: D') ++ B) with (A ++ d :: (D' ++ B)).
    rewrite cleanText_app_keep by now apply digit_not_space.
    rewrite digit_keep by exact HD'.
    change (norm_left A ++ d :: D' ++ norm_right B)
      with (norm_left A ++ (d :: D') ++ norm_right B).
    apply method2_first_run; [| exact HD | lia |].
    - now apply norm_left_not_digit.
    - rewrite <- run_here_strip. unfold norm_right.
      rewrite strip_space_trim_end, strip_space_squeeze, run_here_strip. exact HB. }
  unfold extractNIK.
  destruct (A ++ D ++ B) as [|c0 t0] eqn:Etext.
  { apply (f_equal (@List.length _)) in Etext.
    rewrite !length_app in Etext. cbn in Etext. lia. }
  cbv zeta. now rewrite H1, H2.
Qed.

Lemma extractNIK_long_run_witness :
  extractNIK (js "No: " ++ js "32010145039000219876" ++ js " / 2024-01-01")
  = Some (firstn 16 (js "32010145039000219876")).
Proof.
  apply extractNIK_long_run; vm_compute; try reflexivity. lia.
Defined.

(** ** The token scan *)

Lemma nonempty_cons w l : nonempty (w :: l) = nonempty [w] ++ nonempty l.
Proof. unfold nonempty. cbn [filter]. now destruct w. Qed.

Lemma nonempty_app l1 l2 : nonempty (l1 ++ l2) = nonempty l1 ++ nonempty l2.
Proof. apply filter_app. Qed.

Lemma find_nonempty (f : jsstring -> bool) l :
  f [] = false -> find f (nonempty l) = find f l.
Proof.
  intros Hf. induction l as [|w l IH]; [reflexivity|].
  destruct w as [|c w]; cbn [nonempty filter find].
  - rewrite Hf. exact IH.
  - destruct (f (c :: w)); [reflexivity | exact IH].
Qed.

Lemma method3_loop_find l :
  method3_loop l = option_map (filter is_digit) (find sixteen_digits l).
Proof.
  induction l as [|w l IH]; [reflexivity|]. cbn [method3_loop find].
  rewrite strip_nondigit, is_nik_spec. unfold sixteen_digits at 1, count_digits.
  replace (forallb is_digit (filter is_digit w)) with true.
  - rewrite andb_true_r. destruct (List.length (filter is_digit w) =? 16); [reflexivity | exact IH].
  - symmetry. apply forallb_forall. intros x Hx. apply filter_In in Hx. tauto.
Qed.

Section Tokens.

Variable p : char -> bool.
Hypothesis Hp : forall c, is_space c = true -> p c = true.

Lemma split_scan_tokens : forall s q cur,
  nonempty (split_scan (Plus (Chr p)) q 0 cur s)
  = nonempty ((rev cur ++ hd [] (fields p s)) :: tl (fields p s))
  /\ nonempty (split_scan (Plus (Chr p)) q (run p s) [] s) = nonempty (fields p s).
Proof.
  induction s as [|c t IH]; intros q cur.
  - cbn [split_scan run fields hd tl]. now rewrite app_nil_r.
  - assert (H0 : forall cur',
              nonempty (split_scan (Plus (Chr p)) q 0 cur' (c :: t))
              = nonempty ((rev cur' ++ hd [] (fields p (c :: t)))
                            :: tl (fields p (c :: t)))).
    { intros cur'. cbn [split_scan]. rewrite match_at_Plus, fields_step. cbn [run].
      destruct (p c) eqn:E.
      - cbn [pos hd tl]. replace (q + S (run p t) - q) with (S (run p t)) by lia.
        rewrite app_nil_r.
        pose proof (proj2 (IH (S q) [])) as IH2. unfold nonempty in *.
        cbn [filter]. now rewrite IH2.
      - cbn [hd tl]. rewrite (proj1 (IH (S q) (c :: cur'))).
        cbn [rev]. now rewrite <- app_assoc. }
    split; [apply H0|].
    cbn [run]. destruct (p c) eqn:E.
    + cbn [split_scan]. rewrite fields_step, E.
      rewrite (proj2 (IH (S q) [])). reflexivity.
    + rewrite H0. cbn [rev app]. now rewrite <- fields_cons.
Qed.

Lemma split_tokens s :
  nonempty (split (Plus (Chr p)) s) = nonempty (fields p s).
Proof.
  unfold split. destruct s as [|c t].
  - rewrite match_at_Plus. reflexivity.
  - rewrite (proj1 (split_scan_tokens (c :: t) 0 [])). cbn [rev app].
    now rewrite <- fields_cons.
Qed.

Lemma tokens_squeeze : forall s,
  hd [] (fields p (squeeze is_space space_str false s)) = hd [] (fields p s)
  /\ nonempty (tl (fields p (squeeze is_space space_str false s)))
     = nonempty (tl (fields p s))
  /\ nonempty (fields p (squeeze is_space space_str true s))
     = nonempty (fields p s).
Proof.
  assert (Hsp : p 32%N = true) by (apply Hp; reflexivity).
  induction s as [|c t (IH1 & IH2 & IH3)]; [now cbn|].
  assert (Hkeep : nonempty (fields p (c :: squeeze is_space space_str false t))
                  = nonempty (fields p (c :: t))
                  /\ hd [] (fields p (c :: squeeze is_space space_str false t))
                     = hd [] (fields p (c :: t))
                  /\ nonempty (tl (fields p (c :: squeeze is_space space_str false t)))
                     = nonempty (tl (fields p (c :: t)))).
  { assert (Hf : nonempty (fields p (squeeze is_space space_str false t))
                 = nonempty (fields p t)).
    { rewrite (fields_cons p (squeeze is_space space_str false t)), (fields_cons p t).
      rewrite nonempty_cons, (nonempty_cons (hd [] (fields p t))). now rewrite IH1, IH2. }
    rewrite !fields_step. destruct (p c); cbn [hd tl].
    - unfold nonempty. cbn [filter]. fold nonempty. auto.
    - rewrite nonempty_cons, (nonempty_cons (c :: hd [] (fields p t))).
      now rewrite IH1, IH2. }
  cbn [squeeze]. destruct (is_space c) eqn:Ec.
  - change (space_str ++ squeeze is_space space_str true t)
      with (32%N :: squeeze is_space space_str true t).
    rewrite !fields_step, Hsp, (Hp c Ec). cbn [hd tl app].
    split; [reflexivity|]. split; [exact IH3|].
    unfold nonempty. cbn [filter]. exact IH3.
  - tauto.
Qed.

Lemma tokens_trim_start : forall s,
  nonempty (fields p (trim_start s)) = nonempty (fields p s).
Proof.
  induction s as [|c t IH]; [reflexivity|]. cbn [trim_start].
  destruct (is_space c) eqn:Ec; [|reflexivity].
  rewrite fields_step, (Hp c Ec). unfold nonempty. cbn [filter]. exact IH.
Qed.

Lemma tokens_spaces : forall z,
  forallb is_space z = true -> nonempty (fields p z) = [].
Proof.
  induction z as [|c z IH]; [reflexivity|]. cbn [forallb]. intros H.
  apply andb_true_iff in H. destruct H as [Hc Hz].
  rewrite fields_step, (Hp c Hc). unfold nonempty. cbn [filter]. now apply IH.
Qed.

Lemma tokens_trim_end s :
  nonempty (fields p (trim_end s)) = nonempty (fields p s).
Proof.
  destruct (trim_end_split s) as (z & Hz & Fz).
  rewrite Hz at 2. rewrite fields_app_sep.
  - rewrite nonempty_app.
    assert (E : nonempty (tl (fields p z)) = []).
    { pose proof (tokens_spaces z Fz) as E. rewrite (fields_cons p z), nonempty_cons in E.
      now apply app_eq_nil in E. }
    now rewrite E, app_nil_r.
  - destruct z as [|c z]; [exact I|]. cbn in Fz. apply andb_true_iff in Fz.
    apply Hp. tauto.
Qed.

Lemma tokens_cleanText s :
  nonempty (fields p (cleanText s)) = nonempty (fields p s).
Proof.
  rewrite cleanText_spec. unfold trim.
  rewrite tokens_trim_end, tokens_trim_start.
  destruct (tokens_squeeze s) as (H1 & H2 & _).
  rewrite (fields_cons p (squeeze is_space space_str false s)), (fields_cons p s).
  rewrite nonempty_cons, (nonempty_cons (hd [] (fields p s))). now rewrite H1, H2.
Qed.

End Tokens.

Lemma method3_tokens text :
  method3 (cleanText text)
  = option_map (filter is_digit) (find sixteen_digits (fields is_sepdash text)).
Proof.
  unfold method3. rewrite method3_loop_find. f_equal.
  rewrite <- (find_nonempty sixteen_digits (split re_word_sep (cleanText text)))
    by reflexivity.
  rewrite <- (find_nonempty sixteen_digits (fields is_sepdash text)) by reflexivity.
  f_equal. unfold re_word_sep, sepdash.
  rewrite split_tokens. apply tokens_cleanText. exact space_sepdash.
Qed.

(** X4. When no digit run of the text (digits separated by whitespace or
    dashes only) has 15 digits or more, [extractNIK] returns the digits of
    the first token, among those delimited by whitespace and dashes, that
    holds exactly 16 digits, whatever else the token holds; it returns null
    when there is no such token. *)
Theorem extractNIK_token_scan (text : jsstring) :
  max_digit_run text < 15 ->
  extractNIK text
  = option_map (filter is_digit) (find sixteen_digits (fields is_sepdash text)).
Proof.
  intros Hrun. destruct text as [|c t]; [reflexivity|].
  unfold extractNIK. cbv zeta.
  destruct (method1 (cleanText (c :: t))) as [n1|] eqn:E1.
  { apply method1_run in E1. rewrite max_digit_run_cleanText in E1. lia. }
  destruct (method2 (cleanText (c :: t))) as [n2|] eqn:E2.
  { apply method2_run in E2. rewrite max_digit_run_cleanText in E2. lia. }
  apply method3_tokens.
Qed.

Lemma extractNIK_token_scan_witness :
  extractNIK (js "No.KTP 3201.0145.0390.0021 - 12/05/1990")
  = option_map (filter is_digit)
      (find sixteen_digits (fields is_sepdash (js "No.KTP 3201.0145.0390.0021 - 12/05/1990"))).
Proof.
  apply extractNIK_token_scan. vm_compute. lia.
Defined.

(** * [extractKTPInfo] *)

(** ** Literal words *)

Lemma matcher_spells (f : char -> char -> bool) : forall w s,
  matcher (seqs (map (fun x => Chr (f x)) w)) s
  = if spells f w (rest s) then [adv s (List.length w)] else [].
Proof.
  induction w as [|x w IH]; intros s.
  - cbn. now rewrite adv_0.
  - assert (H1 : matcher (Seq (Chr (f x)) (seqs (map (fun x => Chr (f x)) w))) s
                 = if spells f (x :: w) (rest s) then [adv s (S (List.length w))] else []).
    { rewrite matcher_Seq, matcher_Chr. destruct s as [q [|c t] cs]; [reflexivity|].
      cbn [rest pos caps spells]. destruct (f x c); [|reflexivity].
      cbn [flat_map andb]. rewrite app_nil_r, IH. cbn [rest].
      destruct (spells f w t); [|reflexivity].
      unfold adv. cbn [pos rest caps skipn]. do 2 f_equal. lia. }
    destruct w as [|y w]; [|exact H1].
    clear H1 IH. cbn [map seqs List.length]. rewrite matcher_Chr.
    destruct s as [q [|c t] cs]; [reflexivity|].
    cbn [rest pos caps spells]. rewrite andb_true_r.
    destruct (f x c); [|reflexivity].
    unfold adv. cbn [pos rest caps skipn]. do 2 f_equal. lia.
Qed.

Lemma starts_ci_spells : forall w s, starts_ci w s = spells lit_ci w s.
Proof.
  induction w as [|x w IH]; intros s; [reflexivity|].
  destruct s as [|c t]; [reflexivity|]. cbn [starts_ci spells]. now rewrite IH.
Qed.

Lemma matcher_word w s :
  matcher (seqs (map (fun c => Chr (lit_ci c)) w)) s
  = if starts_ci w (rest s) then [adv s (List.length w)] else [].
Proof. rewrite starts_ci_spells. apply matcher_spells. Qed.

Lemma lit_ci_lf c : lit_ci 10%N c = (c =? 10)%N.
Proof.
  unfold lit_ci, canonicalize. change ((97 <=? 10) && (10 <=? 122))%N with false.
  cbv iota. destruct ((97 <=? c) && (c <=? 122))%N eqn:E; [|reflexivity].
  apply andb_true_iff in E. destruct E as [E1 E2]. apply N.leb_le in E1, E2.
  transitivity false; [apply N.eqb_neq; lia | symmetry; apply N.eqb_neq; lia].
Qed.

Lemma starts_ci_snoc x : forall w r,
  starts_ci (w ++ [x]) r
  = starts_ci w r
    && match skipn (List.length w) r with c :: _ => lit_ci x c | [] => false end.
Proof.
  induction w as [|y w IH]; intros r.
  - cbn. destruct r; [reflexivity | apply andb_true_r].
  - destruct r as [|c t]; [reflexivity|]. cbn [app starts_ci List.length skipn].
    now rewrite IH, andb_assoc.
Qed.

Lemma matcher_gol s :
  matcher (Seq (word_ci "Gol") (Chr (lit_ci (ch ".")))) s
  = if starts_ci (js "Gol.") (rest s) then [adv s 4] else [].
Proof.
  unfold word_ci. rewrite matcher_Seq, matcher_word.
  change (js "Gol.") with (js "Gol" ++ [ch "."]). rewrite starts_ci_snoc.
  destruct (starts_ci (js "Gol") (rest s)); [|reflexivity].
  cbn [flat_map andb]. rewrite app_nil_r, matcher_Chr.
  unfold adv at 1. cbn [rest pos caps].
  change (List.length (js "Gol")) with 3.
  destruct (skipn 3 (rest s)) as [|c t] eqn:E; [reflexivity|].
  destruct (lit_ci (ch ".") c); [|reflexivity].
  unfold adv. cbn [pos rest caps]. f_equal. f_equal; [lia|].
  change 4 with (1 + 3). now rewrite <- skipn_skipn, E.
Qed.

(** The matcher of the separator pattern, one alternative after the other. *)
Lemma matcher_next_label s :
  matcher re_next_label s
  = (match rest s with
     | c :: _ => if (c =? 10)%N then [adv s 1] else []
     | [] => []
     end)
    ++ (if starts_ci (js "Tempat") (rest s) then [adv s 6] else [])
    ++ (if starts_ci (js "Jenis") (rest s) then [adv s 5] else [])
    ++ (if starts_ci (js "Gol.") (rest s) then [adv s 4] else [])
    ++ (if starts_ci (js "Alamat") (rest s) then [adv s 6] else []).
Proof.
  unfold re_next_label. cbn [alts]. rewrite !matcher_Alt, matcher_gol.
  unfold word_ci. rewrite !matcher_word, matcher_Chr.
  f_equal. destruct s as [q [|c t] cs]; [reflexivity|]. cbn [rest pos caps].
  rewrite lit_ci_lf. destruct (c =? 10)%N; [|reflexivity].
  unfold adv. cbn [pos rest caps skipn]. do 2 f_equal. lia.
Qed.

Lemma next_label_none q s :
  starts_next_label s = false -> match_at re_next_label q s = None.
Proof.
  unfold starts_next_label, match_at, next_labels. rewrite matcher_next_label.
  cbn [rest existsb]. intros H.
  apply orb_false_iff in H. destruct H as [H0 H].
  apply orb_false_iff in H. destruct H as [H1 H].
  apply orb_false_iff in H. destruct H as [H2 H].
  apply orb_false_iff in H. destruct H as [H3 H].
  apply orb_false_iff in H. destruct H as [H4 _].
  rewrite H1, H2, H3, H4. destruct s as [|c t]; [reflexivity|]. now rewrite H0.
Qed.

Lemma next_label_some q s :
  starts_next_label s = true ->
  exists e, match_at re_next_label q s = Some e /\ q < pos e.
Proof.
  unfold starts_next_label, match_at, next_labels. rewrite matcher_next_label.
  cbn [rest existsb]. intros H.
  assert (Hadv : forall k, 0 < k -> q < pos (adv (MState q s []) k))
    by (intros k Hk; cbn; lia).
  destruct s as [|c t].
  - cbn in H. discriminate H.
  - destruct (c =? 10)%N; [eexists; split; [reflexivity | apply Hadv; lia]|].
    cbn [orb app] in H |- *.
    destruct (starts_ci (js "Tempat") (c :: t));
      [eexists; split; [reflexivity | apply Hadv; lia]|].
    destruct (starts_ci (js "Jenis") (c :: t));
      [eexists; split; [reflexivity | apply Hadv; lia]|].
    destruct (starts_ci (js "Gol.") (c :: t));
      [eexists; split; [reflexivity | apply Hadv; lia]|].
    destruct (starts_ci (js "Alamat") (c :: t));
      [eexists; split; [reflexivity | apply Hadv; lia]|].
    discriminate H.
Qed.

(** ** The first piece of the split *)

Lemma split_scan_before_label : forall s q cur,
  hd [] (split_scan re_next_label q 0 cur s) = rev cur ++ before_label s.
Proof.
  induction s as [|c t IH]; intros q cur.
  - cbn. now rewrite app_nil_r.
  - cbn [split_scan before_label].
    destruct (starts_next_label (c :: t)) eqn:E.
    + destruct (next_label_some q _ E) as (e & -> & Hpos).
      destruct (pos e - q) as [|k] eqn:Ek; [lia|].
      cbn [hd]. now rewrite app_nil_r.
    + rewrite (next_label_none q _ E), IH. cbn [rev]. now rewrite <- app_assoc.
Qed.

Lemma split_before_label s :
  hd [] (split re_next_label s) = before_label s.
Proof.
  destruct s as [|c t]; [reflexivity|]. unfold split.
  now rewrite split_scan_before_label.
Qed.

Lemma before_label_prefix : forall s, exists z, s = before_label s ++ z.
Proof.
  induction s as [|c t (z & IH)]; [now exists []|]. cbn [before_label].
  destruct (starts_next_label (c :: t)); [now exists (c :: t)|].
  exists z. cbn [app]. now rewrite <- IH.
Qed.

Lemma starts_ci_app w : forall x y, starts_ci w x = true -> starts_ci w (x ++ y) = true.
Proof.
  induction w as [|a w IH]; intros x y; [reflexivity|].
  destruct x as [|c x]; [discriminate|]. cbn [app starts_ci]. intros H.
  apply andb_true_iff in H. destruct H as [-> H]. now apply IH.
Qed.

Lemma occurs_ci_app_l w : forall x y, occurs_ci w x = true -> occurs_ci w (x ++ y) = true.
Proof.
  induction x as [|c x IH]; intros y H.
  - cbn in H. destruct w; [|discriminate]. now destruct y.
  - cbn [app occurs_ci] in *. apply orb_true_iff in H. apply orb_true_iff.
    destruct H as [H|H]; [left; now apply (starts_ci_app w (c :: x)) | right; now apply IH].
Qed.

Lemma occurs_ci_app_r w : forall x y, occurs_ci w y = true -> occurs_ci w (x ++ y) = true.
Proof.
  induction x as [|c x IH]; intros y H; [exact H|].
  cbn [app occurs_ci]. apply orb_true_iff. right. now apply IH.
Qed.

Lemma occurs_ci_substring w a n b :
  occurs_ci w (a ++ n ++ b) = false -> occurs_ci w n = false.
Proof.
  intros H. destruct (occurs_ci w n) eqn:E; [|reflexivity].
  rewrite (occurs_ci_app_r w a _ (occurs_ci_app_l w n b E)) in H. discriminate H.
Qed.

Lemma before_label_free w :
  In w next_labels -> forall s, occurs_ci w (before_label s) = false.
Proof.
  intros Hw.
  assert (Hne : starts_ci w [] = false).
  { cbn in Hw. destruct Hw as [<-|[<-|[<-|[<-|[]]]]]; reflexivity. }
  induction s as [|c t IH]; [exact Hne|]. cbn [before_label].
  destruct (starts_next_label (c :: t)) eqn:E; [exact Hne|].
  cbn [occurs_ci]. rewrite IH, orb_false_r.
  destruct (starts_ci w (c :: before_label t)) eqn:Es; [|reflexivity].
  destruct (before_label_prefix t) as (z & Hz).
  apply (starts_ci_app w _ z) in Es. cbn [app] in Es. rewrite <- Hz in Es.
  unfold starts_next_label in E. apply orb_false_iff in E. destruct E as [_ E].
  assert (Hex : existsb (fun w => starts_ci w (c :: t)) next_labels = true)
    by (apply existsb_exists; now exists w).
  rewrite Hex in E. discriminate E.
Qed.

Lemma before_label_no_lf : forall s, forallb not_lf (before_label s) = true.
Proof.
  induction s as [|c t IH]; [reflexivity|]. cbn [before_label].
  destruct (starts_next_label (c :: t)) eqn:E; [reflexivity|].
  cbn [forallb]. rewrite IH, andb_true_r.
  unfold starts_next_label in E. apply orb_false_iff in E. destruct E as [E _].
  unfold not_lf. now rewrite E.
Qed.

(** ** The name pattern *)

Lemma occurs_trans (a b c : jsstring) : occurs a b -> occurs b c -> occurs a c.
Proof.
  intros (x & y & ->) (x' & y' & ->). exists (x' ++ x), (y ++ y').
  now rewrite <- !app_assoc.
Qed.

Lemma occurs_trim s : occurs (trim s) s.
Proof.
  unfold trim. destruct (trim_start_suffix s) as (z & Hz).
  destruct (trim_end_prefix (trim_start s)) as (z' & Hz').
  exists z, z'. now rewrite <- Hz', <- Hz.
Qed.

Lemma occurs_before_label s : occurs (before_label s) s.
Proof. destruct (before_label_prefix s) as (z & Hz). now exists [], z. Qed.

Lemma trim_forallb (p : char -> bool) s :
  forallb p s = true -> forallb p (trim s) = true.
Proof.
  rewrite !forallb_Forall. intros H. unfold trim.
  now apply trim_end_Forall, trim_start_Forall.
Qed.

Lemma chars_in_not_lf : chars_in not_lf (Plus (Chr not_lf)).
Proof. cbn. auto. Qed.

Lemma nama_capture_line text mr :
  match_first re_nama text = Some mr ->
  exists captured,
    m1 mr = Some captured /\ occurs captured text
    /\ forallb not_lf captured = true.
Proof.
  unfold match_first.
  destruct (exec_from re_nama 0 text) as [[[p t] e]|] eqn:E; [|discriminate].
  intros [= <-]. apply exec_from_sound in E. destruct E as (pre & -> & Hin).
  unfold re_nama in Hin. cbn [seqs] in Hin.
  apply in_matcher_Seq in Hin. destruct Hin as (s1 & H1 & Hin).
  apply in_matcher_Seq in Hin. destruct Hin as (s2 & H2 & Hin).
  apply in_matcher_Seq in Hin. destruct Hin as (s3 & H3 & Hin).
  apply in_matcher_Seq in Hin. destruct Hin as (s4 & H4 & Hin).
  apply in_matcher_Seq in Hin. destruct Hin as (s5 & H5 & Hin).
  apply in_matcher_Seq in Hin. destruct Hin as (s6 & H6 & Hin).
  apply in_matcher_Seq in Hin. destruct Hin as (s7 & H7 & Hin).
  apply matcher_advances in H1, H2, H3, H4, H5, H6, H7.
  assert (Hadv : advances (MState p t []) s7)
    by (repeat (eapply advances_trans; [eassumption|]); apply advances_refl).
  rewrite matcher_Group in Hin. apply in_map_iff in Hin.
  destruct Hin as (s8 & <- & H8).
  destruct (matcher_consumes not_lf _ chars_in_not_lf _ _ H8) as (cap & C).
  destruct Hadv as (w0 & R0 & _). cbn [rest] in R0.
  exists cap. cbn [m1 close_group caps get_cap find fst snd Nat.eqb].
  rewrite (consumes_firstn _ _ _ _ C). destruct C as (R & _ & F).
  repeat split; [|exact F]. exists (pre ++ w0), (rest s8).
  now rewrite R0, R, <- !app_assoc.
Qed.

(** The result in terms of the captured line. *)
Lemma extractKTPInfo_captured text mr captured :
  match_first re_nama text = Some mr -> m1 mr = Some captured ->
  extractKTPInfo text = KtpInfo (Some (trim (before_label (trim captured)))).
Proof.
  intros E Ec. unfold extractKTPInfo. destruct text as [|c t]; [discriminate E|].
  rewrite E, Ec. rewrite <- split_before_label.
  destruct (split re_next_label (trim captured)) as [|w l] eqn:Es; [|reflexivity].
  now apply next_label_split_nonempty in Es.
Qed.

(** X5. A name returned by [extractKTPInfo] is a piece of the text with no
    whitespace at either end; it holds no line feed, and none of the labels
    "Tempat", "Jenis", "Gol." and "Alamat" occurs in it, in any case. *)
Theorem extractKTPInfo_name_shape (text n : jsstring) :
  nama (extractKTPInfo text) = Some n ->
  occurs n text
  /\ trim n = n
  /\ forallb not_lf n = true
  /\ forallb (fun w => negb (occurs_ci w n)) next_labels = true.
Proof.
  intros H.
  assert (Hne : text <> []) by (intros ->; discriminate H).
  destruct (match_first re_nama text) as [mr|] eqn:E.
  2: { apply (extractKTPInfo_nama text Hne) in E. rewrite E in H. discriminate H. }
  destruct (nama_capture_line _ _ E) as (cap & Ec & Hocc & Hlf).
  rewrite (extractKTPInfo_captured _ _ _ E Ec) in H. cbn [nama] in H.
  injection H as <-. repeat split.
  - eapply occurs_trans; [apply occurs_trim|].
    eapply occurs_trans; [apply occurs_before_label|].
    eapply occurs_trans; [apply occurs_trim | exact Hocc].
  - apply trim_idem.
  - apply trim_forallb, before_label_no_lf.
  - apply forallb_forall. intros w Hw. apply negb_true_iff.
    destruct (occurs_trim (before_label (trim cap))) as (a & b & Hab).
    apply (occurs_ci_substring w a _ b). rewrite <- Hab.
    now apply before_label_free.
Qed.

Lemma extractKTPInfo_name_shape_witness :
  occurs (js "BUDI SANTOSO") (js "NIK 3201 nama: BUDI SANTOSO Jenis Kelamin: L")
  /\ trim (js "BUDI SANTOSO") = js "BUDI SANTOSO"
  /\ forallb not_lf (js "BUDI SANTOSO") = true
  /\ forallb (fun w => negb (occurs_ci w (js "BUDI SANTOSO"))) next_labels = true.
Proof.
  apply extractKTPInfo_name_shape. vm_compute. reflexivity.
Defined.

(** ** A text without a name *)

Lemma nama_fail s :
  starts_ci (js "Nama") (rest s) = false -> matcher re_nama s = [].
Proof.
  destruct s as [n r cs]. cbn [rest]. intros H.
  unfold re_nama. cbn [seqs].
  rewrite matcher_Seq, matcher_Chr. cbn [rest pos caps].
  destruct r as [|a r]; [reflexivity|].
  destruct (lit_ci (ch "N") a) eqn:Ea; [|reflexivity].
  cbn [flat_map]. rewrite app_nil_r.
  rewrite matcher_Seq, matcher_Chr. cbn [rest pos caps].
  destruct r as [|b r]; [reflexivity|].
  destruct (lit_ci (ch "a") b) eqn:Eb; [|reflexivity].
  cbn [flat_map]. rewrite app_nil_r.
  rewrite matcher_Seq, matcher_Chr. cbn [rest pos caps].
  destruct r as [|c r]; [reflexivity|].
  destruct (lit_ci (ch "m") c) eqn:Ec; [|reflexivity].
  cbn [flat_map]. rewrite app_nil_r.
  rewrite matcher_Seq, matcher_Chr. cbn [rest pos caps].
  destruct r as [|d r]; [reflexivity|].
  destruct (lit_ci (ch "a") d) eqn:Ed; [|reflexivity].
  exfalso. revert H. change (js "Nama") with [ch "N"; ch "a"; ch "m"; ch "a"].
  cbn [starts_ci]. now rewrite Ea, Eb, Ec, Ed.
Qed.

Lemma exec_from_no_nama : forall s p,
  occurs_ci (js "Nama") s = false -> exec_from re_nama p s = None.
Proof.
  induction s as [|c t IH]; intros p H; cbn [exec_from]; unfold match_at.
  - now rewrite nama_fail.
  - cbn [occurs_ci] in H. apply orb_false_iff in H. destruct H as [H1 H2].
    rewrite nama_fail by exact H1. cbn [hd_error]. now apply IH.
Qed.

Lemma in_matcher_Seq_intro a b s s1 e :
  In s1 (matcher a s) -> In e (matcher b s1) -> In e (matcher (Seq a b) s).
Proof.
  intros H1 H2. rewrite matcher_Seq. apply in_flat_map. now exists s1.
Qed.

Lemma in_Star p q t cs k :
  k <= run p t ->
  In (MState (q + k) (skipn k t) cs) (matcher (Star (Chr p)) (MState q t cs)).
Proof.
  intros Hk. unfold Star. rewrite matcher_Rep_Chr by discriminate.
  apply in_map_iff. exists k. split; [reflexivity|].
  unfold downto, bound. apply -> in_rev. apply in_seq. lia.
Qed.

Lemma in_Plus p q t cs :
  1 <= run p t ->
  exists e, In e (matcher (Plus (Chr p)) (MState q t cs)).
Proof.
  intros Hk. unfold Plus. rewrite matcher_Rep_Chr by discriminate.
  exists (adv (MState q t cs) 1). apply in_map_iff. exists 1. split; [reflexivity|].
  unfold downto, bound. apply -> in_rev. apply in_seq. lia.
Qed.

Lemma in_Plus_length p s e :
  In e (matcher (Plus (Chr p)) s) -> pos s < pos e.
Proof.
  destruct s as [q t cs]. unfold Plus. rewrite matcher_Rep_Chr by discriminate.
  intros H. apply in_map_iff in H. destruct H as (k & <- & Hk).
  unfold downto in Hk. apply in_rev in Hk. apply in_seq in Hk. cbn. lia.
Qed.

Lemma lf_is_space c : not_lf c = false -> is_space c = true.
Proof.
  unfold not_lf. intros H. apply negb_false_iff, N.eqb_eq in H. now subst c.
Qed.

(** The first character that is not a line feed. *)
Lemma first_not_lf : forall R,
  existsb not_lf R = true ->
  exists k c R', k <= run is_space R /\ skipn k R = c :: R' /\ not_lf c = true.
Proof.
  induction R as [|c R IH]; [discriminate|]. cbn [existsb]. intros H.
  destruct (not_lf c) eqn:Ec.
  - exists 0, c, R. cbn. split; [lia | auto].
  - cbn [orb] in H. destruct (IH H) as (k & c' & R' & Hk & Hs & Hc).
    exists (S k), c', R'. cbn [run skipn]. rewrite (lf_is_space _ Ec).
    split; [lia | auto].
Qed.

Lemma nama_match_exists q (l1 l2 l3 l4 : char) (R : jsstring) :
  starts_ci (js "Nama") (l1 :: l2 :: l3 :: l4 :: R) = true ->
  existsb not_lf R = true ->
  match_at re_nama q (l1 :: l2 :: l3 :: l4 :: R) <> None.
Proof.
  change (js "Nama") with [ch "N"; ch "a"; ch "m"; ch "a"]. cbn [starts_ci].
  rewrite andb_true_r. intros H HR.
  apply andb_true_iff in H. destruct H as [H1 H].
  apply andb_true_iff in H. destruct H as [H2 H].
  apply andb_true_iff in H. destruct H as [H3 H4].
  destruct (first_not_lf R HR) as (k & c & R' & Hk & Hs & Hc).
  assert (Hrun : 1 <= run not_lf (skipn k R)) by (rewrite Hs; cbn; rewrite Hc; lia).
  destruct (in_Plus not_lf (S (S (S (S q))) + k) (skipn k R) [] Hrun) as (e & He).
  assert (Hin : In (close_group 1 (MState (S (S (S (S q))) + k) (skipn k R) []) e)
                   (matcher re_nama (MState q (l1 :: l2 :: l3 :: l4 :: R) []))).
  { unfold re_nama. cbn [seqs].
    eapply in_matcher_Seq_intro;
      [rewrite matcher_Chr; cbn [rest pos caps]; rewrite H1; now left|].
    eapply in_matcher_Seq_intro;
      [rewrite matcher_Chr; cbn [rest pos caps]; rewrite H2; now left|].
    eapply in_matcher_Seq_intro;
      [rewrite matcher_Chr; cbn [rest pos caps]; rewrite H3; now left|].
    eapply in_matcher_Seq_intro;
      [rewrite matcher_Chr; cbn [rest pos caps]; rewrite H4; now left|].
    eapply in_matcher_Seq_intro; [apply (in_Star is_space _ R [] k Hk)|].
    eapply in_matcher_Seq_intro.
    { pose proof (in_Star is_colon (S (S (S (S q))) + k) (skipn k R) [] 0 (Nat.le_0_l _)) as H0.
      rewrite Nat.add_0_r in H0. exact H0. }
    eapply in_matcher_Seq_intro.
    { pose proof (in_Star is_space (S (S (S (S q))) + k) (skipn k R) [] 0 (Nat.le_0_l _)) as H0.
      rewrite Nat.add_0_r in H0. exact H0. }
    rewrite matcher_Group. apply in_map. exact He. }
  unfold match_at.
  destruct (matcher re_nama (MState q (l1 :: l2 :: l3 :: l4 :: R) [])); [destruct Hin | discriminate].
Qed.

(** A match of the name pattern needs the label and, after it, a character
    that is not a line feed. *)
Lemma nama_match_needs s e :
  In e (matcher re_nama s) ->
  starts_ci (js "Nama") (rest s) = true /\ existsb not_lf (skipn 4 (rest s)) = true.
Proof.
  intros Hin.
  assert (Hs : starts_ci (js "Nama") (rest s) = true).
  { destruct (starts_ci (js "Nama") (rest s)) eqn:E; [reflexivity|].
    rewrite (nama_fail s E) in Hin. destruct Hin. }
  split; [exact Hs|].
  destruct s as [q r cs]. cbn [rest] in *.
  destruct r as [|l1 [|l2 [|l3 [|l4 R]]]];
    try (exfalso; revert Hs; change (js "Nama") with [ch "N"; ch "a"; ch "m"; ch "a"];
         cbn [starts_ci]; rewrite ?andb_false_r; discriminate).
  cbn [skipn]. unfold re_nama in Hin. cbn [seqs] in Hin.
  apply in_matcher_Seq in Hin. destruct Hin as (s1 & H1 & Hin).
  apply in_matcher_Seq in Hin. destruct Hin as (s2 & H2 & Hin).
  apply in_matcher_Seq in Hin. destruct Hin as (s3 & H3 & Hin).
  apply in_matcher_Seq in Hin. destruct Hin as (s4 & H4 & Hin).
  apply in_matcher_Seq in Hin. destruct Hin as (s5 & H5 & Hin).
  apply in_matcher_Seq in Hin. destruct Hin as (s6 & H6 & Hin).
  apply in_matcher_Seq in Hin. destruct Hin as (s7 & H7 & Hin).
  assert (E4 : rest s4 = R).
  { rewrite matcher_Chr in H1. cbn [rest pos caps] in H1.
    destruct (lit_ci (ch "N") l1); [|destruct H1]. destruct H1 as [<-|[]].
    rewrite matcher_Chr in H2. cbn [rest pos caps] in H2.
    destruct (lit_ci (ch "a") l2); [|destruct H2]. destruct H2 as [<-|[]].
    rewrite matcher_Chr in H3. cbn [rest pos caps] in H3.
    destruct (lit_ci (ch "m") l3); [|destruct H3]. destruct H3 as [<-|[]].
    rewrite matcher_Chr in H4. cbn [rest pos caps] in H4.
    destruct (lit_ci (ch "a") l4); [|destruct H4]. destruct H4 as [<-|[]].
    reflexivity. }
  apply matcher_advances in H5, H6, H7.
  assert (Hadv : advances s4 s7)
    by (repeat (eapply advances_trans; [eassumption|]); apply advances_refl).
  destruct Hadv as (w0 & R0 & _). rewrite E4 in R0.
  rewrite matcher_Group in Hin. apply in_map_iff in Hin.
  destruct Hin as (s8 & _ & H8).
  pose proof (in_Plus_length _ _ _ H8) as Hlen.
  destruct (matcher_consumes not_lf _ chars_in_not_lf _ _ H8) as (cap & Hr & Hp & F).
  destruct cap as [|c cap]; [cbn in Hp; lia|].
  cbn [forallb] in F. apply andb_true_iff in F. destruct F as [Fc _].
  rewrite R0, Hr. rewrite existsb_app. apply orb_true_iff. right.
  cbn [app existsb]. now rewrite Fc.
Qed.

Lemma exec_from_nama_none : forall s p,
  has_name s = false -> exec_from re_nama p s = None.
Proof.
  assert (Hnil : forall p, match_at re_nama p [] = None).
  { intros p. unfold match_at. now rewrite nama_fail. }
  induction s as [|c t IH]; intros p H; [cbn [exec_from]; now rewrite Hnil|].
  cbn [has_name] in H. apply orb_false_iff in H. destruct H as [H1 H2].
  rewrite exec_from_cons.
  assert (E : match_at re_nama p (c :: t) = None).
  { unfold match_at.
    destruct (matcher re_nama (MState p (c :: t) [])) as [|e l] eqn:M; [reflexivity|].
    destruct (nama_match_needs (MState p (c :: t) []) e) as [Ha Hb];
      [rewrite M; now left|].
    cbn [rest] in Ha, Hb. now rewrite Ha, Hb in H1. }
  rewrite E. now apply IH.
Qed.

Lemma exec_from_nama_some : forall s p,
  has_name s = true -> exec_from re_nama p s <> None.
Proof.
  induction s as [|c t IH]; intros p H; [discriminate|].
  rewrite exec_from_cons.
  destruct (match_at re_nama p (c :: t)) eqn:E; [discriminate|].
  cbn [has_name] in H. apply orb_true_iff in H. destruct H as [H|H]; [|now apply IH].
  exfalso. apply andb_true_iff in H. destruct H as [Ha Hb].
  destruct t as [|l2 [|l3 [|l4 R]]];
    try (exfalso; revert Ha; change (js "Nama") with [ch "N"; ch "a"; ch "m"; ch "a"];
         cbn [starts_ci]; rewrite ?andb_false_r; discriminate).
  now apply (nama_match_exists p c l2 l3 l4 R Ha Hb).
Qed.

(** X6. [extractKTPInfo] finds a name exactly when some occurrence of
    "Nama", in any case, is followed in the rest of the text, at any
    distance, by a character that is not a line feed. In particular a text
    in which "Nama" does not occur has no name: the result is the empty
    object. *)
Theorem extractKTPInfo_absent (text : jsstring) :
  (nama (extractKTPInfo text) = None <-> has_name text = false)
  /\ (occurs_ci (js "Nama") text = false -> extractKTPInfo text = KtpInfo None).
Proof.
  split.
  - destruct text as [|c t]; [split; reflexivity|].
    rewrite extractKTPInfo_nama by discriminate. unfold match_first.
    destruct (has_name (c :: t)) eqn:H.
    + pose proof (exec_from_nama_some _ 0 H) as Hs.
      destruct (exec_from re_nama 0 (c :: t)) as [[[p r] e]|]; [|contradiction].
      split; discriminate.
    + rewrite (exec_from_nama_none _ 0 H). split; reflexivity.
  - intros H. unfold extractKTPInfo. destruct text as [|c t]; [reflexivity|].
    unfold match_first. now rewrite exec_from_no_nama.
Qed.

(** ** A line that holds the label and a name *)

Lemma colon_not_space c : is_colon c = true -> is_space c = false.
Proof. unfold is_colon. intros H. apply N.eqb_eq in H. now subst c. Qed.

Lemma space_not_colon c : is_space c = true -> is_colon c = false.
Proof.
  intros H. destruct (is_colon c) eqn:E; [|reflexivity].
  now rewrite (colon_not_space _ E) in H.
Qed.

Lemma skip_run p X Y :
  forallb p X = true -> stops_class p Y ->
  run p (X ++ Y) = List.length X /\ skipn (run p (X ++ Y)) (X ++ Y) = Y.
Proof.
  intros HX HY. rewrite (run_app_stop p X Y HY), (run_all_length p X HX).
  split; [reflexivity|]. rewrite skipn_app, skipn_all, Nat.sub_diag. reflexivity.
Qed.

Lemma stops_class_app p X Y :
  stops_class p Y -> (forall c, In c X -> p c = false) -> stops_class p (X ++ Y).
Proof.
  intros HY HX. destruct X as [|c X]; [exact HY|]. cbn. apply HX. now left.
Qed.

(** The three separators of the name pattern stop at the name. *)
Lemma name_separators (s1 colons s2 Y : jsstring) (q : nat) :
  forallb is_space s1 = true -> forallb is_colon colons = true ->
  forallb is_space s2 = true ->
  stops_class is_space Y -> stops_class is_colon Y ->
  exists e1 e2,
    first_is (Star space) (MState q (s1 ++ colons ++ s2 ++ Y) []) e1
    /\ first_is (Star (Chr is_colon)) e1 e2
    /\ first_is (Star space) e2
                (MState (q + List.length s1 + List.length colons + List.length s2) Y []).
Proof.
  intros H1 Hc H2 HYs HYc.
  destruct colons as [|c colons'].
  - cbn [app List.length]. rewrite Nat.add_0_r.
    exists (MState (q + List.length s1 + List.length s2) Y []),
           (MState (q + List.length s1 + List.length s2) Y []).
    repeat split.
    + eapply first_is_eq; [apply first_Star|].
      rewrite app_assoc.
      assert (H12 : forallb is_space (s1 ++ s2) = true)
        by (rewrite forallb_app, H1, H2; reflexivity).
      destruct (skip_run is_space (s1 ++ s2) Y H12 HYs) as [-> ->].
      rewrite length_app, Nat.add_assoc. reflexivity.
    + eapply first_is_eq; [apply first_Star|].
      rewrite (run_stop is_colon Y HYc). cbn [skipn]. now rewrite Nat.add_0_r.
    + eapply first_is_eq; [apply first_Star|].
      rewrite (run_stop is_space Y HYs). cbn [skipn]. now rewrite Nat.add_0_r.
  - set (colons := c :: colons') in *.
    assert (Hcs : stops_class is_space (colons ++ s2 ++ Y)).
    { cbn. apply colon_not_space. cbn in Hc. apply andb_true_iff in Hc. tauto. }
    assert (Hsc : stops_class is_colon (s2 ++ Y)).
    { apply stops_class_app; [exact HYc|]. intros x Hx. apply space_not_colon.
      rewrite forallb_forall in H2. now apply H2. }
    exists (MState (q + List.length s1) (colons ++ s2 ++ Y) []),
           (MState (q + List.length s1 + List.length colons) (s2 ++ Y) []).
    repeat split.
    + eapply first_is_eq; [apply first_Star|].
      destruct (skip_run is_space s1 _ H1 Hcs) as [-> ->]. reflexivity.
    + eapply first_is_eq; [apply first_Star|].
      destruct (skip_run is_colon colons _ Hc Hsc) as [-> ->]. reflexivity.
    + eapply first_is_eq; [apply first_Star|].
      destruct (skip_run is_space s2 Y H2 HYs) as [-> ->]. reflexivity.
Qed.

Lemma nama_letters lab :
  starts_ci (js "Nama") lab = true -> List.length lab = 4 ->
  exists l1 l2 l3 l4 : char,
    lab = [l1; l2; l3; l4]
    /\ (l1 = 78 \/ l1 = 110)%N
    /\ lit_ci (ch "N") l1 = true /\ lit_ci (ch "a") l2 = true
    /\ lit_ci (ch "m") l3 = true /\ lit_ci (ch "a") l4 = true.
Proof.
  destruct lab as [|l1 [|l2 [|l3 [|l4 [|x lab]]]]]; cbn [List.length]; try discriminate.
  change (js "Nama") with [ch "N"; ch "a"; ch "m"; ch "a"]. cbn [starts_ci].
  rewrite andb_true_r. intros H _.
  apply andb_true_iff in H. destruct H as [H1 H].
  apply andb_true_iff in H. destruct H as [H2 H].
  apply andb_true_iff in H. destruct H as [H3 H4].
  exists l1, l2, l3, l4. repeat split; try assumption.
  apply (lit_ci_letter 78); [lia | exact H1].
Qed.

(** Before the label nothing matches when the label does not occur there:
    no occurrence can straddle the boundary either. *)
Lemma exec_skip_nama (l1 : char) (R : jsstring) :
  (l1 = 78 \/ l1 = 110)%N ->
  forall A q,
    occurs_ci (js "Nama") A = false ->
    exec_from re_nama q (A ++ l1 :: R)
    = exec_from re_nama (q + List.length A) (l1 :: R).
Proof.
  intros H1. induction A as [|c A IH]; intros q HA.
  - cbn [app List.length]. now rewrite Nat.add_0_r.
  - cbn [occurs_ci] in HA. apply orb_false_iff in HA. destruct HA as [Hs HA].
    cbn [app]. rewrite exec_from_cons. unfold match_at at 1. rewrite nama_fail.
    + cbn [hd_error]. rewrite IH by exact HA. cbn [List.length].
      now replace (q + S (List.length A)) with (S q + List.length A) by lia.
    + cbn [rest]. revert Hs. change (js "Nama") with [ch "N"; ch "a"; ch "m"; ch "a"].
      destruct A as [|c2 [|c3 [|c4 A]]]; cbn [app starts_ci].
      * intros _. destruct H1 as [-> | ->]; cbn; now rewrite andb_false_r.
      * intros _. destruct H1 as [-> | ->]; cbn; now rewrite !andb_false_r.
      * intros _. destruct H1 as [-> | ->]; cbn; now rewrite !andb_false_r.
      * auto.
Qed.

Lemma occurs_ci_starts w s : occurs_ci w s = false -> starts_ci w s = false.
Proof.
  destruct s as [|c t]; cbn [occurs_ci]; [auto|]. intros H.
  apply orb_false_iff in H. tauto.
Qed.

Lemma before_label_all : forall s,
  forallb not_lf s = true ->
  forallb (fun w => negb (occurs_ci w s)) next_labels = true ->
  before_label s = s.
Proof.
  induction s as [|c t IH]; [reflexivity|]. intros Hlf Hw.
  cbn [before_label forallb] in *. apply andb_true_iff in Hlf. destruct Hlf as [Hc Hlf].
  assert (Hw' : forall w, In w next_labels -> occurs_ci w (c :: t) = false).
  { intros w Hin. rewrite forallb_forall in Hw. now apply negb_true_iff, Hw. }
  assert (E : starts_next_label (c :: t) = false).
  { unfold starts_next_label. apply orb_false_iff. split.
    - unfold not_lf in Hc. now apply negb_true_iff in Hc.
    - destruct (existsb _ next_labels) eqn:Ex; [|reflexivity].
      apply existsb_exists in Ex. destruct Ex as (w & Hin & Hs).
      now rewrite (occurs_ci_starts _ _ (Hw' w Hin)) in Hs. }
  rewrite E. f_equal. apply IH; [exact Hlf|].
  apply forallb_forall. intros w Hin. apply negb_true_iff.
  specialize (Hw' w Hin). cbn [occurs_ci] in Hw'. apply orb_false_iff in Hw'. tauto.
Qed.

Lemma name_line_captured (pre lab s1 colons s2 line more : jsstring) :
  name_line lab s1 colons s2 line more ->
  occurs_ci (js "Nama") pre = false ->
  exists mr,
    match_first re_nama (pre ++ lab ++ s1 ++ colons ++ s2 ++ line ++ more) = Some mr
    /\ m1 mr = Some line.
Proof.
  intros (Hlab & Hlen & H1 & Hc & H2 & Hx & Hlf & Hrest) Hpre.
  destruct (nama_letters lab Hlab Hlen) as (l1 & l2 & l3 & l4 & -> & HN & E1 & E2 & E3 & E4).
  assert (HYs : stops_class is_space (line ++ more))
    by (destruct line as [|x line']; [destruct Hx | cbn; tauto]).
  assert (HYc : stops_class is_colon (line ++ more))
    by (destruct line as [|x line']; [destruct Hx | cbn; tauto]).
  assert (Hline : 1 <= List.length line)
    by (destruct line; [destruct Hx | cbn; lia]).
  assert (Hstop : stops_class not_lf more)
    by (destruct more as [|c more']; [exact I | cbn; now subst c]).
  set (q := 0 + List.length pre).
  set (q4 := S (S (S (S q)))).
  set (q5 := q4 + List.length s1 + List.length colons + List.length s2).
  assert (F : first_is re_nama
                (MState q (l1 :: l2 :: l3 :: l4 :: s1 ++ colons ++ s2 ++ line ++ more) [])
                (close_group 1 (MState q5 (line ++ more) [])
                               (MState (q5 + List.length line) more []))).
  { unfold re_nama. cbn [seqs].
    eapply first_Seq; [apply first_Chr; exact E1|].
    eapply first_Seq; [apply first_Chr; exact E2|].
    eapply first_Seq; [apply first_Chr; exact E3|].
    eapply first_Seq; [apply first_Chr; exact E4|].
    destruct (name_separators s1 colons s2 (line ++ more) q4 H1 Hc H2 HYs HYc)
      as (e1 & e2 & F1 & F2 & F3).
    eapply first_Seq; [exact F1|].
    eapply first_Seq; [exact F2|].
    eapply first_Seq; [exact F3|].
    apply first_Group. fold q5.
    eapply first_is_eq; [apply (first_Rep_Chr not_lf 1 None q5 (line ++ more) []
                                  (List.length line))|].
    - discriminate.
    - cbn [bound]. rewrite (run_app_stop not_lf line more Hstop).
      now apply run_all_length.
    - exact Hline.
    - rewrite skipn_app, skipn_all, Nat.sub_diag. reflexivity. }
  unfold match_first.
  change (pre ++ [l1; l2; l3; l4] ++ s1 ++ colons ++ s2 ++ line ++ more)
    with (pre ++ l1 :: l2 :: l3 :: l4 :: s1 ++ colons ++ s2 ++ line ++ more).
  rewrite (exec_skip_nama l1 _ HN pre 0 Hpre). fold q.
  rewrite exec_from_cons, (first_match_at _ _ _ _ F).
  eexists. split; [reflexivity|].
  cbn [m1 close_group caps get_cap find fst snd Nat.eqb pos rest].
  replace (q5 + List.length line - q5) with (List.length line) by lia.
  now rewrite firstn_app, firstn_all, Nat.sub_diag, app_nil_r.
Qed.

(** X7. When the first occurrence of "Nama" (in any case) is followed by
    whitespace, colons and whitespace, in that order and each possibly
    empty, and then by the rest [line] of its line, which begins with another
    character, the name is [line] cut before its first label and trimmed.
    It is [line] trimmed when none of the labels occurs in [line]. *)
Theorem extractKTPInfo_name_line (pre lab s1 colons s2 line more : jsstring) :
  name_line lab s1 colons s2 line more ->
  occurs_ci (js "Nama") pre = false ->
  nama (extractKTPInfo (pre ++ lab ++ s1 ++ colons ++ s2 ++ line ++ more))
  = Some (trim (before_label (trim line)))
  /\ (forallb (fun w => negb (occurs_ci w line)) next_labels = true ->
      nama (extractKTPInfo (pre ++ lab ++ s1 ++ colons ++ s2 ++ line ++ more))
      = Some (trim line)).
Proof.
  intros HL Hpre.
  destruct (name_line_captured pre lab s1 colons s2 line more HL Hpre) as (mr & E & Ec).
  rewrite (extractKTPInfo_captured _ _ _ E Ec). cbn [nama].
  split; [reflexivity|]. intros Hfree.
  destruct HL as (_ & _ & _ & _ & _ & _ & Hlf & _).
  rewrite before_label_all, trim_idem; [reflexivity | now apply trim_forallb |].
  apply forallb_forall. intros w Hw. apply negb_true_iff.
  destruct (occurs_trim line) as (a & b & Hab).
  apply (occurs_ci_substring w a _ b). rewrite <- Hab.
  rewrite forallb_forall in Hfree. now apply negb_true_iff, Hfree.
Qed.

Lemma extractKTPInfo_name_line_witness :
  nama (extractKTPInfo (js "PROVINSI JAWA BARAT NIK : 3201" ++ LF ++ js "NAMA" ++ js " "
                        ++ js ":" ++ js " " ++ js "SITI AMINAH  Tempat/Tgl Lahir : BOGOR"
                        ++ LF ++ js "Alamat : JL. MAWAR"))
  = Some (trim (before_label (trim (js "SITI AMINAH  Tempat/Tgl Lahir : BOGOR"))))
  /\ (forallb (fun w => negb (occurs_ci w (js "SITI AMINAH  Tempat/Tgl Lahir : BOGOR")))
              next_labels = true ->
      nama (extractKTPInfo (js "PROVINSI JAWA BARAT NIK : 3201" ++ LF ++ js "NAMA" ++ js " "
                            ++ js ":" ++ js " " ++ js "SITI AMINAH  Tempat/Tgl Lahir : BOGOR"
                            ++ LF ++ js "Alamat : JL. MAWAR"))
      = Some (trim (js "SITI AMINAH  Tempat/Tgl Lahir : BOGOR"))).
Proof.
  apply (extractKTPInfo_name_line (js "PROVINSI JAWA BARAT NIK : 3201" ++ LF));
    [|vm_compute; reflexivity].
  unfold name_line. repeat split; try (vm_compute; reflexivity).
Defined.

(** * [compressImage]: the result *)

Section CompressImageResult.

Variable sharp : buffer -> Z -> Z -> result buffer.

(** X8. A buffer at or under the ceiling of 1,048,576 bytes is returned as
    it is and the encoder is not invoked, whatever the encoder would do. *)
Theorem compressImage_small (fuel : nat) (imageBuffer : buffer) (mimeType : jsstring) :
  (byteLength imageBuffer <= MAX_FILE_SIZE)%N ->
  compressImage sharp fuel imageBuffer mimeType = Some (Ok imageBuffer)
  /\ entered sharp fuel (initial imageBuffer) = [].
Proof.
  intros H.
  assert (Hc : loop_cond (initial imageBuffer) = false).
  { unfold loop_cond, initial. cbn [compressed].
    apply andb_false_iff. left. apply N.ltb_ge. exact H. }
  unfold compressImage, try_block.
  destruct fuel; cbn [while_loop entered]; rewrite Hc; split; reflexivity.
Qed.

Lemma while_loop_exit : forall fuel st st',
  while_loop sharp fuel st = Some (Ok st') ->
  loop_cond st' = false
  /\ attempts st' = attempts st + List.length (entered sharp fuel st).
Proof.
  induction fuel as [|fuel IH]; intros st st'; cbn [while_loop entered];
    destruct (loop_cond st) eqn:Hc; try discriminate.
  - intros [= <-]. cbn. split; [exact Hc | lia].
  - unfold loop_body.
    destruct (sharp (compressed st) (maxDimension st) (quality st)) as [b|];
      [|discriminate].
    intros H. apply IH in H. destruct H as [H1 H2]. split; [exact H1|].
    rewrite H2. cbn [attempts List.length]. lia.
  - intros [= <-]. cbn. split; [exact Hc | lia].
Qed.

(** X9. The buffer [compressImage] returns is the original one, or is within
    the ceiling, or comes out of five attempts, made with the qualities 80,
    70, 60, 50, 40 and the dimensions 2000, 1800, 1620, 1458, 1312: the loop
    does not give up earlier. *)
Theorem compressImage_result (fuel : nat) (imageBuffer : buffer) (mimeType : jsstring) :
  maxAttempts <= fuel ->
  exists b,
    compressImage sharp fuel imageBuffer mimeType = Some (Ok b)
    /\ (b = imageBuffer
        \/ (byteLength b <= MAX_FILE_SIZE)%N
        \/ map params (entered sharp fuel (initial imageBuffer))
           = [(0, 80%Z, 2000%Z); (1, 70%Z, 1800%Z); (2, 60%Z, 1620%Z);
              (3, 50%Z, 1458%Z); (4, 40%Z, 1312%Z)]).
Proof.
  intros Hf.
  destruct (loop_runs sharp fuel 0 (initial imageBuffer))
    as (H1 & H2 & H3); [reflexivity | unfold maxAttempts; lia | lia |].
  unfold compressImage, try_block.
  destruct (while_loop sharp fuel (initial imageBuffer)) as [[st|]|] eqn:E;
    [| exists imageBuffer; split; [reflexivity | now left] | contradiction].
  exists (compressed st). split; [reflexivity|]. right.
  apply while_loop_exit in E. destruct E as [Hc Ha]. cbn [initial attempts] in Ha.
  unfold loop_cond in Hc. apply andb_false_iff in Hc. destruct Hc as [Hc|Hc].
  - left. now apply N.ltb_ge in Hc.
  - right. apply Nat.ltb_ge in Hc. unfold maxAttempts in *.
    assert (Hlen : List.length (entered sharp fuel (initial imageBuffer)) = 5) by lia.
    rewrite H2, Hlen. reflexivity.
Qed.

End CompressImageResult.

Lemma compressImage_small_witness :
  compressImage failing_encoder 0 (repeat Byte.x00 1024) (js "image/png")
  = Some (Ok (repeat Byte.x00 1024))
  /\ entered failing_encoder 0 (initial (repeat Byte.x00 1024)) = [].
Proof.
  apply compressImage_small. vm_compute. discriminate.
Defined.

Lemma compressImage_result_witness :
  exists b,
    compressImage padding_encoder 5 oversized (js "image/jpeg") = Some (Ok b)
    /\ (b = oversized
        \/ (byteLength b <= MAX_FILE_SIZE)%N
        \/ map params (entered padding_encoder 5 (initial oversized))
           = [(0, 80%Z, 2000%Z); (1, 70%Z, 1800%Z); (2, 60%Z, 1620%Z);
              (3, 50%Z, 1458%Z); (4, 40%Z, 1312%Z)]).
Proof.
  apply compressImage_result. unfold maxAttempts. lia.
Defined.

(** * The request handlers *)

(** ** Data URIs *)

Lemma startsWith_spells : forall prefix s,
  startsWith s prefix = spells is_char prefix s.
Proof.
  induction prefix as [|x p IH]; intros s; [now destruct s|].
  destruct s as [|c s]; [reflexivity|]. cbn [startsWith spells]. now rewrite IH.
Qed.

Lemma data_uri_starts mimeType base64 :
  startsWith (data_uri mimeType base64) (js "data:") = true.
Proof. reflexivity. Qed.

Lemma detectInput_data s :
  startsWith s (js "data:") = true -> detectInput s = Base64Image.
Proof.
  unfold detectInput. intros H. rewrite H.
  destruct s as [|c s]; [discriminate H|].
  cbn [js map list_ascii_of_string startsWith] in *.
  apply andb_true_iff in H. destruct H as [H _].
  unfold is_char in *. apply N.eqb_eq in H. subst c. reflexivity.
Qed.

Lemma matcher_word_lit w s :
  matcher (word w) s
  = if startsWith (rest s) (js w) then [adv s (List.length (js w))] else [].
Proof. rewrite startsWith_spells. apply matcher_spells. Qed.

Lemma first_word w q t cs :
  first_is (word w) (MState q (js w ++ t) cs) (MState (q + List.length (js w)) t cs).
Proof.
  exists []. rewrite matcher_word_lit. cbn [rest].
  replace (startsWith (js w ++ t) (js w)) with true.
  - unfold adv. cbn [pos rest caps]. now rewrite skipn_app, skipn_all, Nat.sub_diag.
  - symmetry. induction (js w) as [|x l IH]; [reflexivity|].
    cbn [app startsWith]. unfold is_char at 1. now rewrite N.eqb_refl, IH.
Qed.

(** The pattern takes a data URI apart into its MIME type and payload. *)
Lemma data_uri_groups (mimeType base64 : jsstring) :
  mimeType <> [] -> forallb not_semicolon mimeType = true ->
  base64 <> [] -> forallb any_char base64 = true ->
  match_groups re_data_uri (data_uri mimeType base64)
  = Some (Some mimeType, Some base64).
Proof.
  intros Hm Fm Hd Fd.
  assert (H1 : 1 <= List.length mimeType) by (destruct mimeType; [contradiction | cbn; lia]).
  assert (H2 : 1 <= List.length base64) by (destruct base64; [contradiction | cbn; lia]).
  assert (G1 : first_is (Plus (Chr not_semicolon))
                 (MState 5 (mimeType ++ js ";base64," ++ base64) [])
                 (MState (5 + List.length mimeType) (js ";base64," ++ base64) [])).
  { eapply first_is_eq;
      [apply (first_Rep_Chr not_semicolon 1 None _ _ [] (List.length mimeType))|].
    - discriminate.
    - cbn [bound]. rewrite run_app_stop; [now apply run_all_length | reflexivity].
    - exact H1.
    - now rewrite skipn_app, skipn_all, Nat.sub_diag. }
  assert (G2 : forall q cs, first_is (Plus (Chr any_char)) (MState q base64 cs)
                              (MState (q + List.length base64) [] cs)).
  { intros q cs. eapply first_is_eq;
      [apply (first_Rep_Chr any_char 1 None _ _ _ (List.length base64))|].
    - discriminate.
    - cbn [bound]. now apply run_all_length.
    - exact H2.
    - now rewrite skipn_all. }
  assert (F : exists e, first_is re_data_uri (MState 0 (data_uri mimeType base64) []) e
                        /\ get_cap 1 (caps e) = Some mimeType
                        /\ get_cap 2 (caps e) = Some base64).
  { eexists. split.
    - unfold re_data_uri, data_uri. cbn [seqs].
      eapply first_Seq; [apply (first_word "data:")|].
      eapply first_Seq; [apply first_Group; exact G1|].
      eapply first_Seq; [apply (first_word ";base64,")|].
      apply first_Group. apply G2.
    - unfold close_group.
      cbn [caps pos rest get_cap find filter fst snd Nat.eqb negb List.length js map
           list_ascii_of_string Nat.add].
      split; f_equal.
      + replace (S (S (S (S (S (List.length mimeType))))) - 5) with (List.length mimeType) by lia.
        now rewrite firstn_app, firstn_all, Nat.sub_diag, app_nil_r.
      + match goal with |- firstn ?n _ = _ => replace n with (List.length base64) by lia end.
        apply firstn_all. }
  destruct F as (e & F & C1 & C2).
  unfold match_groups.
  assert (E : exec_from re_data_uri 0 (data_uri mimeType base64)
              = Some (0, data_uri mimeType base64, e)).
  { revert F. unfold data_uri. cbn [js map list_ascii_of_string app]. intros F.
    rewrite exec_from_cons. now rewrite (first_match_at _ _ _ _ F). }
  now rewrite E, C1, C2.
Qed.

Lemma matcher_Plus_caps p s e :
  In e (matcher (Plus (Chr p)) s) -> caps e = caps s.
Proof.
  destruct s as [q t cs]. unfold Plus. rewrite matcher_Rep_Chr by discriminate.
  intros H. apply in_map_iff in H. destruct H as (k & <- & _). reflexivity.
Qed.

Lemma matcher_word_caps w s e : In e (matcher (word w) s) -> caps e = caps s.
Proof.
  rewrite matcher_word_lit. destruct (startsWith (rest s) (js w)); [|intros []].
  intros [<-|[]]. reflexivity.
Qed.

(** Both groups take part in every match of the data-URI pattern. *)
Lemma data_uri_groups_defined s g1 g2 :
  match_groups re_data_uri s = Some (g1, g2) ->
  exists m d, g1 = Some m /\ g2 = Some d.
Proof.
  unfold match_groups.
  destruct (exec_from re_data_uri 0 s) as [[[p t] e]|] eqn:E; [|discriminate].
  intros [= <- <-]. apply exec_from_sound in E. destruct E as (pre & _ & Hin).
  unfold re_data_uri in Hin. cbn [seqs] in Hin.
  apply in_matcher_Seq in Hin. destruct Hin as (s1 & H1 & Hin).
  apply in_matcher_Seq in Hin. destruct Hin as (s2 & H2 & Hin).
  apply in_matcher_Seq in Hin. destruct Hin as (s3 & H3 & Hin).
  rewrite matcher_Group in H2, Hin.
  apply in_map_iff in H2. destruct H2 as (s1' & <- & H2).
  apply in_map_iff in Hin. destruct Hin as (s3' & <- & H4).
  apply matcher_word_caps in H3. apply matcher_Plus_caps in H4.
  unfold close_group in *. cbn [caps] in *. rewrite H4, H3.
  cbn [get_cap find filter fst snd Nat.eqb negb]. eauto.
Qed.

(** ** The input of the OCR call *)

Section RouteProperties.

Variable sharp : buffer -> Z -> Z -> result buffer.
Variable crop : buffer -> result buffer.
Variable from_base64 : jsstring -> buffer.
Variable to_base64 : buffer -> jsstring.
Variable ocrSpace : jsstring -> result ocr_result.
Variable fuel : nat.
Hypothesis Hfuel : maxAttempts <= fuel.


(** X11. POST /extract-nik with a string [image] that is marked as base64
    ([type] is 'base64') or begins with "data:": on every path, the [catch]
    of the inner [try] included, the input handed to the OCR client begins
    with "data:", and [detectInput] classifies it as 'base64Image'. *)
Theorem base64_image_input (image : jsstring) (type : jsvalue) :
  isBase64 image type = true ->
  exists input,
    base64_input sharp from_base64 to_base64 fuel image type = Some input
    /\ startsWith input (js "data:") = true
    /\ detectInput input = Base64Image
    /\ (image <> [] ->
        post_extract_nik sharp from_base64 to_base64 ocrSpace fuel (VString image) type
        = Some (call_ocr ocrSpace input)).
Proof.
  intros Hb.
  assert (H : exists input,
             base64_input sharp from_base64 to_base64 fuel image type = Some input
             /\ startsWith input (js "data:") = true).
  { unfold base64_input. rewrite Hb. unfold base64_try.
    destruct (startsWith image (js "data:")) eqn:Es.
    - destruct (match match_groups re_data_uri image with
                | Some (Some m, Some d) => (m, d)
                | _ => (js "image/jpeg", image)
                end) as [mimeType base64Data].
      destruct (MAX_FILE_SIZE <? byteLength (from_base64 base64Data))%N.
      + destruct (compressImage_returns sharp fuel (from_base64 base64Data)
                    mimeType Hfuel) as (b & ->).
        eexists. split; [reflexivity | apply data_uri_starts].
      + cbn [negb]. eexists. split; [reflexivity | exact Es].
    - destruct (MAX_FILE_SIZE <? byteLength (from_base64 image))%N.
      + destruct (compressImage_returns sharp fuel (from_base64 image)
                    (js "image/jpeg") Hfuel) as (b & ->).
        eexists. split; [reflexivity | apply data_uri_starts].
      + cbn [negb]. eexists. split; [reflexivity | apply data_uri_starts]. }
  destruct H as (input & E & Hs). exists input.
  split; [exact E|]. split; [exact Hs|]. split; [now apply detectInput_data|].
  intros Hne. unfold post_extract_nik.
  destruct image as [|c t]; [contradiction|]. cbn [truthy negb]. now rewrite E.
Qed.

(** X12. POST /extract-nik with a string [image] that is not marked as
    base64 and does not begin with "data:": the string is handed to the OCR
    client unchanged, and [detectInput] classifies it as a URL when it
    begins with "http" and as the path of a local file otherwise. *)
Theorem plain_image_input (image : jsstring) (type : jsvalue) :
  isBase64 image type = false ->
  base64_input sharp from_base64 to_base64 fuel image type = Some image
  /\ detectInput image = (if startsWith image (js "http") then Url else File)
  /\ (image <> [] ->
      post_extract_nik sharp from_base64 to_base64 ocrSpace fuel (VString image) type
      = Some (call_ocr ocrSpace image)).
Proof.
  intros Hb.
  assert (E : base64_input sharp from_base64 to_base64 fuel image type = Some image)
    by (unfold base64_input; now rewrite Hb).
  split; [exact E|]. split.
  - unfold isBase64 in Hb. apply orb_false_iff in Hb. destruct Hb as [_ Hd].
    unfold detectInput. now rewrite Hd.
  - intros Hne. unfold post_extract_nik.
    destruct image as [|c t]; [contradiction|]. cbn [truthy negb]. now rewrite E.
Qed.

(** X13. A data URI built from a MIME type without semicolon and a payload
    without line terminator, both non-empty, is taken apart by the pattern
    of POST /extract-nik into these two. The route forwards such an [image]
    unchanged when the decoded payload is within the ceiling, and otherwise
    forwards the data URI of the compressed buffer under the same MIME
    type. *)
Theorem data_uri_round_trip (mimeType base64 : jsstring) (type : jsvalue) :
  mimeType <> [] -> forallb not_semicolon mimeType = true ->
  base64 <> [] -> forallb any_char base64 = true ->
  match_groups re_data_uri (data_uri mimeType base64) = Some (Some mimeType, Some base64)
  /\ ((byteLength (from_base64 base64) <= MAX_FILE_SIZE)%N ->
      base64_input sharp from_base64 to_base64 fuel (data_uri mimeType base64) type
      = Some (data_uri mimeType base64))
  /\ ((MAX_FILE_SIZE < byteLength (from_base64 base64))%N ->
      exists compressedBuffer,
        compressImage sharp fuel (from_base64 base64) mimeType = Some (Ok compressedBuffer)
        /\ base64_input sharp from_base64 to_base64 fuel (data_uri mimeType base64) type
           = Some (data_uri mimeType (to_base64 compressedBuffer))).
Proof.
  intros Hm Fm Hd Fd.
  pose proof (data_uri_groups mimeType base64 Hm Fm Hd Fd) as G.
  split; [exact G|].
  assert (Hb : isBase64 (data_uri mimeType base64) type = true)
    by (unfold isBase64; rewrite data_uri_starts; apply orb_true_r).
  unfold base64_input, base64_try. rewrite Hb, data_uri_starts, G. split.
  - intros Hle. apply N.ltb_ge in Hle. now rewrite Hle.
  - intros Hgt. apply N.ltb_lt in Hgt. rewrite Hgt.
    destruct (compressImage_returns sharp fuel (from_base64 base64) mimeType Hfuel)
      as (b & E).
    exists b. now rewrite E.
Qed.

(** ** The answer *)

Lemma call_ocr_success input r :
  call_ocr ocrSpace input = r -> status r = 200 ->
  exists message identity_number fullname,
    body r = Extracted message identity_number fullname
    /\ match identity_number with
       | None => message = js "NIK tidak ditemukan"
       | Some nik => is_number16 nik = true /\ message = js "Data berhasil diekstraksi"
       end
    /\ fullname <> Some [].
Proof.
  intros <-. unfold call_ocr.
  destruct (ocrSpace input) as [ocrResult|]; [|discriminate].
  unfold respond.
  destruct (negb (truthy (IsErroredOnProcessing ocrResult))); [|discriminate].
  destruct (ParsedText ocrResult) as [text|[|]]; cbn [extractNIK_of extractKTPInfo_of];
    [| discriminate |].
  - intros _. cbn [body]. do 3 eexists. split; [reflexivity|]. split.
    + destruct (extractNIK text) as [nik|] eqn:E; [|reflexivity].
      pose proof (extractNIK_is_number16 _ _ E) as H16. split; [exact H16|].
      destruct nik; [discriminate H16 | reflexivity].
    + destruct (nama (extractKTPInfo text)) as [[|c t]|]; discriminate.
  - intros _. cbn [body nama]. do 3 eexists. split; [reflexivity|].
    split; [reflexivity | discriminate].
Qed.

(** X14. A response of status 200 of either extraction route has the body
    of a success: [identity_number] is null with the message "NIK tidak
    ditemukan", or a string of 16 digits with the message "Data berhasil
    diekstraksi"; [fullname] is null or a non-empty string. *)
Theorem success_response (image type : jsvalue) (file : option upload)
        (crop_param : jsvalue) (r : response) :
  post_extract_nik sharp from_base64 to_base64 ocrSpace fuel image type = Some r
  \/ post_extract sharp crop to_base64 ocrSpace fuel file crop_param = Some r ->
  status r = 200 ->
  exists message identity_number fullname,
    body r = Extracted message identity_number fullname
    /\ match identity_number with
       | None => message = js "NIK tidak ditemukan"
       | Some nik => is_number16 nik = true /\ message = js "Data berhasil diekstraksi"
       end
    /\ fullname <> Some [].
Proof.
  intros [H|H] Hs.
  - unfold post_extract_nik in H.
    destruct (negb (truthy image)); [injection H as <-; discriminate Hs|].
    destruct image as [img|b]; [|injection H as <-; discriminate Hs].
    destruct (base64_input sharp from_base64 to_base64 fuel img type) as [input|];
      [|discriminate].
    injection H as H. now apply (call_ocr_success input).
  - unfold post_extract in H.
    destruct file as [f|]; [|injection H as <-; discriminate Hs].
    destruct (upload_input sharp crop to_base64 fuel f (strict_eq crop_param "true"))
      as [[input|]|]; [| injection H as <-; discriminate Hs | discriminate].
    injection H as H. now apply (call_ocr_success input).
Qed.

End RouteProperties.


Lemma base64_image_input_witness :
  exists input,
    base64_input halving_encoder sample_from_base64 sample_to_base64 5
                 (js "iVBORw0KGgo=") (VString (js "base64"))
    = Some input
    /\ startsWith input (js "data:") = true
    /\ detectInput input = Base64Image
    /\ (js "iVBORw0KGgo=" <> [] ->
        post_extract_nik halving_encoder sample_from_base64 sample_to_base64 sample_ocr 5
                         (VString (js "iVBORw0KGgo=")) (VString (js "base64"))
        = Some (call_ocr sample_ocr input)).
Proof.
  apply base64_image_input; [unfold maxAttempts; lia | reflexivity].
Defined.

Lemma plain_image_input_witness :
  base64_input halving_encoder sample_from_base64 sample_to_base64 5
               (js "uploads/ktp.jpg") (VOther false)
  = Some (js "uploads/ktp.jpg")
  /\ detectInput (js "uploads/ktp.jpg")
     = (if startsWith (js "uploads/ktp.jpg") (js "http") then Url else File)
  /\ (js "uploads/ktp.jpg" <> [] ->
      post_extract_nik halving_encoder sample_from_base64 sample_to_base64 sample_ocr 5
                       (VString (js "uploads/ktp.jpg")) (VOther false)
      = Some (call_ocr sample_ocr (js "uploads/ktp.jpg"))).
Proof.
  apply plain_image_input. reflexivity.
Defined.

Lemma data_uri_round_trip_witness :
  match_groups re_data_uri (data_uri (js "image/png") (js "iVBORw0KGgo="))
  = Some (Some (js "image/png"), Some (js "iVBORw0KGgo="))
  /\ ((byteLength (sample_from_base64 (js "iVBORw0KGgo=")) <= MAX_FILE_SIZE)%N ->
      base64_input halving_encoder sample_from_base64 sample_to_base64 5
                   (data_uri (js "image/png") (js "iVBORw0KGgo=")) (VString (js "base64"))
      = Some (data_uri (js "image/png") (js "iVBORw0KGgo=")))
  /\ ((MAX_FILE_SIZE < byteLength (sample_from_base64 (js "iVBORw0KGgo=")))%N ->
      exists compressedBuffer,
        compressImage halving_encoder 5 (sample_from_base64 (js "iVBORw0KGgo="))
                      (js "image/png")
        = Some (Ok compressedBuffer)
        /\ base64_input halving_encoder sample_from_base64 sample_to_base64 5
                        (data_uri (js "image/png") (js "iVBORw0KGgo="))
                        (VString (js "base64"))
           = Some (data_uri (js "image/png") (sample_to_base64 compressedBuffer))).
Proof.
  apply data_uri_round_trip;
    [unfold maxAttempts; lia | discriminate | reflexivity | discriminate | reflexivity].
Defined.

Lemma success_response_witness :
  exists message identity_number fullname,
    body (Response 200 (Extracted (js "Data berhasil diekstraksi")
                                  (Some (js "3201014503900021")) (Some (js "BUDI"))))
    = Extracted message identity_number fullname
    /\ match identity_number with
       | None => message = js "NIK tidak ditemukan"
       | Some nik => is_number16 nik = true /\ message = js "Data berhasil diekstraksi"
       end
    /\ fullname <> Some [].
Proof.
  apply (success_response halving_encoder failing_crop sample_from_base64
           sample_to_base64 sample_ocr 5
           (VString (js "https://example.com/ktp.jpg")) (VOther false)
           None (VOther false)).
  - left. vm_compute. reflexivity.
  - reflexivity.
Defined.
